(** * mysterybox2win: the giveaway lifecycle engine and the prize resolver

    A shallow embedding of [utils/database.py] (persistence and
    [parse_prize_ids]), of [cogs/giveaway.py] (the [GiveawayCog]
    commands, the timers kept in [bot.active_giveaways], the catalogue of
    prizes, the prize lists and the views), of the guild handlers of
    [bot.py] and of the retry loop of [main.py], with the properties of the
    design document proved or refuted against it and further properties
    read off the code.

    Modelling conventions.
    - A Python [str] is a [string]: a sequence of 8-bit characters read as
      the code points 0..255.
    - A Python [dict] with string keys is a [gmap string _] where nothing
      depends on the order of insertion, and a list of pairs kept in that
      order where the code shows it (the entries of a prize list).
    - Python exceptions are explicit: a computation ends in [Done] or in
      [Raised] together with the state reached when the exception left it.
    - The interpreter's limit on the length of integer literals
      ([sys.set_int_max_str_digits]) is not modelled.
    - Instants are integers: a count of microseconds since the epoch. The
      local time zone is UTC and the conversion of a [datetime] to a float
      [timestamp()] is taken as exact. The clock of a [World] shows an
      instant later than 0001-01-01, so that [datetime.now().timestamp()]
      does not raise; the [timestamp()] of a computed end date can.
    - The function that models a coroutine gives what the coroutine does
      when it runs to its end without another one in between; what the
      chat platform answers to the calls made on the way is given by a
      [World]. The event loop can start another command while one is
      suspended at an [await]: [end_giveaway_command_begin] gives the
      command [/endgiveaway] up to the [await] that separates its test of
      [ended] from [end_giveaway]. The properties of runs of several
      commands are about runs in which nothing overlaps ([Runs.step]).
    - A reply to an interaction always goes through.
    - A write of the file of giveaways that fails either was refused when
      the file was opened, and the file is as it was, or failed after
      [open(..., 'w')] had emptied the file, and the file holds nothing
      that [json.load] can read. The data directories exist once the cog
      is built.
    - The text files are written on a system whose line separator is
      [\n]; distinct list ids name distinct files; the table of prize
      lists holds entries written by [create_prize_list].
    - The delays of the retry loop are rationals; the floats the loop
      computes are these rationals exactly. *)

From Stdlib Require Import ZArith String Ascii List Lia DecimalString.
From Stdlib Require Import DecimalPos DecimalZ.
From Stdlib Require QArith Qminmax Lqa.
From stdpp Require Import gmap strings list list_numbers fin_maps sorting relations.

Set Warnings "-clear-no-such-hyp".

Local Open Scope string_scope.
Local Open Scope Z_scope.
Local Open Scope list_scope.

(** ** Python string primitives *)

Module Py.

(** [str.isspace] on the code points below 256. *)
Definition isspace (c : ascii) : bool :=
  let n := nat_of_ascii c in
  (((9 <=? n) && (n <=? 13)) || ((28 <=? n) && (n <=? 32))
   || (n =? 133) || (n =? 160))%nat.

Fixpoint lstrip (s : string) : string :=
  match s with
  | EmptyString => EmptyString
  | String c s' => if isspace c then lstrip s' else s
  end.

Fixpoint rstrip (s : string) : string :=
  match s with
  | EmptyString => EmptyString
  | String c s' =>
      match rstrip s' with
      | EmptyString => if isspace c then EmptyString else String c EmptyString
      | r => String c r
      end
  end.

(** [s.strip()] *)
Definition strip (s : string) : string := rstrip (lstrip s).

(** [s.split(sep)] for a one-character separator: never empty. *)
Fixpoint split (sep : ascii) (s : string) : list string :=
  match s with
  | EmptyString => [EmptyString]
  | String c s' =>
      if Ascii.eqb c sep then EmptyString :: split sep s'
      else match split sep s' with
           | p :: ps => String c p :: ps
           | [] => [String c EmptyString]
           end
  end.

(** [c in s] for a one-character [c]. *)
Fixpoint contains (c : ascii) (s : string) : bool :=
  match s with
  | EmptyString => false
  | String d s' => Ascii.eqb d c || contains c s'
  end.

Definition digit_value (c : ascii) : option Z :=
  let n := nat_of_ascii c in
  if ((48 <=? n) && (n <=? 57))%nat then Some (Z.of_nat n - 48) else None.

(** The digits of an integer literal: decimal digits, single underscores
    allowed between two digits. [prev_us] tells that the previous character
    was an underscore. *)
Fixpoint int_digits (acc : Z) (prev_us : bool) (s : string) : option Z :=
  match s with
  | EmptyString => if prev_us then None else Some acc
  | String c s' =>
      match digit_value c with
      | Some d => int_digits (10 * acc + d) false s'
      | None =>
          if Ascii.eqb c "_" then
            if prev_us then None else int_digits acc true s'
          else None
      end
  end.

(** An optional sign, then at least one digit; no leading underscore. *)
Definition int_literal (s : string) : option Z :=
  let unsigned (t : string) :=
    match t with
    | EmptyString => None
    | String c _ => if Ascii.eqb c "_" then None else int_digits 0 false t
    end in
  match s with
  | String "+" t => unsigned t
  | String "-" t => Z.opp <$> unsigned t
  | _ => unsigned s
  end.

(** The white space [int] skips around a literal: the ASCII characters
    tab to carriage return and the space, and the two other white space
    characters below 256. The separators 28 to 31, which [str.strip]
    removes, are not skipped. *)
Definition int_space (c : ascii) : bool :=
  let n := nat_of_ascii c in
  (((9 <=? n) && (n <=? 13)) || (n =? 32) || (n =? 133) || (n =? 160))%nat.

Fixpoint int_lstrip (s : string) : string :=
  match s with
  | EmptyString => EmptyString
  | String c s' => if int_space c then int_lstrip s' else s
  end.

Fixpoint int_rstrip (s : string) : string :=
  match s with
  | EmptyString => EmptyString
  | String c s' =>
      match int_rstrip s' with
      | EmptyString => if int_space c then EmptyString else String c EmptyString
      | r => String c r
      end
  end.

(** [int(s)]: [None] stands for [ValueError]. *)
Definition int (s : string) : option Z := int_literal (int_rstrip (int_lstrip s)).

(** [str(i)] *)
Definition str (i : Z) : string := NilZero.string_of_int (Z.to_int i).

(** [range(start, stop)] *)
Definition range (start stop : Z) : list Z := seqZ start (stop - start).

End Py.

(** ** Exceptions *)

Inductive exn :=
| ValueError | KeyError | IndexError | OverflowError
| DiscordError (* any exception of an API call of the chat platform *).

(** A value or an exception, for code without state. *)
Inductive result (A : Type) :=
| Ok (a : A)
| Err (e : exn).
Arguments Ok {A} a.
Arguments Err {A} e.

(** The outcome of a block run on a state [S]: it finishes, or an exception
    leaves it; the mutations made before the [raise] are kept. *)
Inductive outcome (S : Type) :=
| Done (s : S)
| Raised (e : exn) (s : S).
Arguments Done {S} s.
Arguments Raised {S} e s.

Definition bind_outcome {S} (o : outcome S) (k : S → outcome S) : outcome S :=
  match o with
  | Done s => k s
  | Raised e s => Raised e s
  end.

(** A [for] loop whose body may raise. *)
Fixpoint for_each {A S} (body : S → A → outcome S) (l : list A) (s : S)
  : outcome S :=
  match l with
  | [] => Done s
  | x :: l' => bind_outcome (body s x) (for_each body l')
  end.

(** ** The prize resolver: [parse_prize_ids] of [utils/database.py] *)

Module Resolver.

(** The two locals [result] and [missing]. *)
Definition acc : Type := gmap string string * list string.

(** [if prize_id in prizes: result[prize_id] = prizes[prize_id]
     else: missing.append(prize_id)]; the subscript raises [KeyError] on an
    absent key. *)
Definition lookup_id (prizes : gmap string string) (a : acc) (prize_id : string)
  : outcome acc :=
  if decide (is_Some (prizes !! prize_id)) then
    match prizes !! prize_id with
    | Some name => Done (<[prize_id := name]> a.1, a.2)
    | None => Raised KeyError a
    end
  else Done (a.1, a.2 ++ [prize_id]).

(** The body of the [try]: unpack the two sides of the dash, convert them,
    walk the range. *)
Definition try_range (prizes : gmap string string) (a : acc) (part : string)
  : outcome acc :=
  match Py.strip <$> Py.split "-" part with
  | [start; end_] =>
      match Py.int start with
      | None => Raised ValueError a
      | Some start_int =>
          match Py.int end_ with
          | None => Raised ValueError a
          | Some end_int =>
              for_each (λ a i, lookup_id prizes a (Py.str i))
                       (Py.range start_int (end_int + 1)) a
          end
      end
  | _ => Raised ValueError a
  end.

(** One iteration of [for part in parts]. *)
Definition process_part (prizes : gmap string string) (a : acc) (part : string)
  : outcome acc :=
  if Py.contains "-" part then
    match try_range prizes a part with
    | Raised ValueError a' => lookup_id prizes a' part
    | o => o
    end
  else lookup_id prizes a part.

Definition parse_parts (prizes : gmap string string) (parts : list string)
  : outcome acc :=
  for_each (process_part prizes) parts (∅, []).

Definition parse_prize_ids (prize_ids_str : string) (prizes : gmap string string)
  : outcome acc :=
  parse_parts prizes (Py.strip <$> Py.split "," prize_ids_str).

End Resolver.

(** ** Dates: [datetime(year, month, day, hour, minute)] and [timedelta] *)

Module Datetime.

Definition is_leap (y : Z) : bool :=
  (y mod 4 =? 0) && (negb (y mod 100 =? 0) || (y mod 400 =? 0)).

Definition days_in_month (y m : Z) : Z :=
  if m =? 2 then (if is_leap y then 29 else 28)
  else if (m =? 4) || (m =? 6) || (m =? 9) || (m =? 11) then 30 else 31.

Definition days_before_year (y : Z) : Z :=
  (y - 1) * 365 + (y - 1) / 4 - (y - 1) / 100 + (y - 1) / 400.

Fixpoint days_before_month_aux (y : Z) (months : nat) : Z :=
  match months with
  | O => 0
  | S k => days_before_month_aux y k + days_in_month y (Z.of_nat (S k))
  end.

Definition days_before_month (y m : Z) : Z :=
  days_before_month_aux y (Z.to_nat (m - 1)).

Definition ymd2ord (y m d : Z) : Z :=
  days_before_year y + days_before_month y m + d.

Definition fits_c_int (n : Z) : bool := (-2147483648 <=? n) && (n <=? 2147483647).

Definition us_per_second : Z := 1000000.
Definition us_per_day : Z := 86400 * us_per_second.

(** The instant of a naive [datetime(year, month, day, hour, minute)].
    Arguments that do not fit a C [int] raise [OverflowError], fields out of
    range [ValueError]. *)
Definition datetime (year month day hour minute : Z) : result Z :=
  if negb (forallb fits_c_int [year; month; day; hour; minute]) then
    Err OverflowError
  else if (1 <=? year) && (year <=? 9999) && (1 <=? month) && (month <=? 12)
          && (1 <=? day) && (day <=? days_in_month year month)
          && (0 <=? hour) && (hour <=? 23) && (0 <=? minute) && (minute <=? 59)
  then Ok (((ymd2ord year month day - 719163) * 86400 + hour * 3600 + minute * 60)
           * us_per_second)
  else Err ValueError.

(** [datetime.min] and [datetime.max] as instants. *)
Definition min_instant : Z := -62135596800 * us_per_second.
Definition max_instant : Z := 253402300800 * us_per_second - 1.

(** [t.timestamp()] on a naive [datetime]: the search for the local offset
    looks one day back and raises [ValueError] when that day is before
    [datetime.min], that is for every instant of 0001-01-01. *)
Definition timestamp (t : Z) : result Z :=
  if t - us_per_day <? min_instant then Err ValueError else Ok t.

(** [timedelta(hours=hours, minutes=minutes)] in microseconds; more than
    999999999 days either way raises [OverflowError]. *)
Definition timedelta (hours minutes : Z) : result Z :=
  let us := (hours * 3600 + minutes * 60) * us_per_second in
  let days := us / us_per_day in
  if (-999999999 <=? days) && (days <=? 999999999) then Ok us
  else Err OverflowError.

(** [t + delta] on a [datetime]. *)
Definition add (t delta : Z) : result Z :=
  let r := t + delta in
  if (min_instant <=? r) && (r <=? max_instant) then Ok r else Err OverflowError.

Fixpoint rstrip_zeros (s : string) : string :=
  match s with
  | EmptyString => EmptyString
  | String c s' =>
      match rstrip_zeros s' with
      | EmptyString => if Ascii.eqb c "0" then EmptyString else String c EmptyString
      | r => String c r
      end
  end.

(** [str] of the float [timestamp()]: seconds, a dot, and the microseconds
    without their trailing zeros. *)
Definition timestamp_str (t : Z) : string :=
  let a := Z.abs t in
  let frac := rstrip_zeros
    (String.substring 1 6 (Py.str (us_per_second + a mod us_per_second))) in
  (if t <? 0 then "-" else "") +:+ Py.str (a / us_per_second) +:+ "."
  +:+ (if String.eqb frac "" then "0" else frac).

End Datetime.

(** ** The giveaway engine: [GiveawayCog] of [cogs/giveaway.py] *)

Module Engine.

(** A giveaway record as the cog stores it. The keys read with [.get] and a
    default are fields holding that default when the key is absent: [ended]
    ([False]), [participants] ([[]]), [end_time] ([0]); [None] is an absent
    key for the others. *)
Record Giveaway := {
  title : string;
  description : string;
  creator_id : string;
  channel_id : option string;
  message_id : option string;
  guild_id : string;
  end_time : Z;
  participants : list string;
  ended : bool;
  assigned_prizes : option (gmap string string);
  prize_list_id : option string;
  celebration_gif : option string;
}.

Definition set_ended (b : bool) (g : Giveaway) : Giveaway :=
  {| title := title g; description := description g; creator_id := creator_id g;
     channel_id := channel_id g; message_id := message_id g; guild_id := guild_id g;
     end_time := end_time g; participants := participants g; ended := b;
     assigned_prizes := assigned_prizes g; prize_list_id := prize_list_id g;
     celebration_gif := celebration_gif g |}.

Definition set_end_time (t : Z) (g : Giveaway) : Giveaway :=
  {| title := title g; description := description g; creator_id := creator_id g;
     channel_id := channel_id g; message_id := message_id g; guild_id := guild_id g;
     end_time := t; participants := participants g; ended := ended g;
     assigned_prizes := assigned_prizes g; prize_list_id := prize_list_id g;
     celebration_gif := celebration_gif g |}.

Definition set_participants (l : list string) (g : Giveaway) : Giveaway :=
  {| title := title g; description := description g; creator_id := creator_id g;
     channel_id := channel_id g; message_id := message_id g; guild_id := guild_id g;
     end_time := end_time g; participants := l; ended := ended g;
     assigned_prizes := assigned_prizes g; prize_list_id := prize_list_id g;
     celebration_gif := celebration_gif g |}.

Definition set_celebration_gif (gif : string) (g : Giveaway) : Giveaway :=
  {| title := title g; description := description g; creator_id := creator_id g;
     channel_id := channel_id g; message_id := message_id g; guild_id := guild_id g;
     end_time := end_time g; participants := participants g; ended := ended g;
     assigned_prizes := assigned_prizes g; prize_list_id := prize_list_id g;
     celebration_gif := Some gif |}.

Definition set_assigned_prizes (p : gmap string string) (g : Giveaway) : Giveaway :=
  {| title := title g; description := description g; creator_id := creator_id g;
     channel_id := channel_id g; message_id := message_id g; guild_id := guild_id g;
     end_time := end_time g; participants := participants g; ended := ended g;
     assigned_prizes := Some p; prize_list_id := prize_list_id g;
     celebration_gif := celebration_gif g |}.

(** *** What leaves the cog *)

(** The texts sent with [interaction.response.send_message]. *)
Inductive reply :=
| GuildNotAllowed | NotAdministrator
| GiveawayCreated
| NoLongerActive | AlreadyEnded | AlreadyJoined | Joined
| GiveawayNotFound | EndingEarly | Cancelled
| CannotRescheduleEnded | MustBeInFuture | EndTimeChanged | BadDateFormat
| SetTimeError
| GifNotFound | CannotAttachToEnded | GifAttached
| CannotAssignToEnded | NoPrizeFound | PrizesAssigned (missing : list string).

(** The messages posted with [channel.send]. *)
Inductive post :=
| GiveawayPost (giveaway_id : string) (end_timestamp : Z)
| WinnerPost (giveaway_id winner_id prize : string) (with_gif : bool)
| NoParticipantsPost (giveaway_id : string).

(** The rewritings of the original message with [message.edit]. *)
Inductive edit :=
| WinnerEdit (winner_id prize : string)
| NoParticipantsEdit
| CancelledEdit
| EndTimeEdit (end_timestamp : Z).

Inductive event :=
| Reply (r : reply)
| Send (channel : Z) (p : post)
| EditMessage (channel message : Z) (e : edit).

(** The lines of the log. *)
Inductive log_entry :=
| ErrorSaving
| ErrorNotFoundOnEnd (giveaway_id : string)
| ErrorMissingIds (giveaway_id : string)
| ErrorNoChannel (giveaway_id : string)
| ErrorNoMessage
| ErrorEnding (giveaway_id : string)
| ErrorInTask
| ErrorUpdatingCancelled
| ErrorUpdatingEndTime
| ErrorSettingTime
| InfoRestored (giveaway_id : string) (seconds_left : Z)
| InfoEndingMissed (giveaway_id : string)
| InfoTaskCancelled (giveaway_id : string)
| InfoCreated (giveaway_id : string) (seconds : Z)
| InfoJoined (user_id giveaway_id : string)
| InfoCancelled (giveaway_id : string)
| InfoEndTimeUpdated (giveaway_id : string)
| InfoGifAttached (gif_id giveaway_id : string)
| InfoPrizesAssigned (giveaway_id : string).

(** *** The event loop's tasks *)

Inductive coroutine :=
| ScheduleGiveawayEnd (giveaway_id : string) (seconds : Z)
| EndGiveaway (giveaway_id : string).

Inductive task_status := Pending | CancelRequested | Finished.

Record Task := { coro : coroutine; status : task_status }.

(** *** The cog and the bot *)

Record Cog := {
  giveaways : gmap string Giveaway;
  prizes : gmap string string;
  gifs : gmap string string;          (* gif id to its name *)
  debug_mode : bool;
  active_giveaways : gmap string nat; (* [bot.active_giveaways]: id to task *)
  tasks : list Task;                  (* the tasks created, by handle *)
  giveaways_file : option (gmap string Giveaway);
    (* [data/giveaways.json]: what [json.load] reads from it, [None] when
       the file is absent or cannot be parsed *)
  sent : list event;
  log : list log_entry;
}.

Definition with_giveaways (m : gmap string Giveaway) (c : Cog) : Cog :=
  {| giveaways := m; prizes := prizes c; gifs := gifs c; debug_mode := debug_mode c;
     active_giveaways := active_giveaways c; tasks := tasks c;
     giveaways_file := giveaways_file c; sent := sent c; log := log c |}.

Definition with_active (a : gmap string nat) (c : Cog) : Cog :=
  {| giveaways := giveaways c; prizes := prizes c; gifs := gifs c;
     debug_mode := debug_mode c; active_giveaways := a; tasks := tasks c;
     giveaways_file := giveaways_file c; sent := sent c; log := log c |}.

Definition with_tasks (t : list Task) (c : Cog) : Cog :=
  {| giveaways := giveaways c; prizes := prizes c; gifs := gifs c;
     debug_mode := debug_mode c; active_giveaways := active_giveaways c; tasks := t;
     giveaways_file := giveaways_file c; sent := sent c; log := log c |}.

Definition with_file (f : option (gmap string Giveaway)) (c : Cog) : Cog :=
  {| giveaways := giveaways c; prizes := prizes c; gifs := gifs c;
     debug_mode := debug_mode c; active_giveaways := active_giveaways c;
     tasks := tasks c; giveaways_file := f; sent := sent c; log := log c |}.

Definition emit (e : event) (c : Cog) : Cog :=
  {| giveaways := giveaways c; prizes := prizes c; gifs := gifs c;
     debug_mode := debug_mode c; active_giveaways := active_giveaways c;
     tasks := tasks c; giveaways_file := giveaways_file c;
     sent := sent c ++ [e]; log := log c |}.

Definition logged (l : log_entry) (c : Cog) : Cog :=
  {| giveaways := giveaways c; prizes := prizes c; gifs := gifs c;
     debug_mode := debug_mode c; active_giveaways := active_giveaways c;
     tasks := tasks c; giveaways_file := giveaways_file c;
     sent := sent c; log := log c ++ [l] |}.

(** [giveaway[key] = value] on the record stored under [giveaway_id]. *)
Definition update_giveaway (giveaway_id : string) (g : Giveaway) (c : Cog) : Cog :=
  with_giveaways (<[giveaway_id := g]> (giveaways c)) c.

(** *** The outside: clock, disk, chat platform, random source *)

Inductive fetched :=
| MessageFound (has_embed : bool)
| MessageNotFound              (* [discord.NotFound] *)
| FetchFailed.                 (* any other exception *)

Record World := {
  now : Z;                                (* [datetime.now()] *)
  disk_ok : bool;                         (* does writing the file succeed *)
  write_truncates : bool;
    (* when it does not: was the file already opened, and so emptied, by
       [open(..., 'w')] when the write failed *)
  get_channel : Z → bool;                 (* is [bot.get_channel(id)] not [None] *)
  fetch_message : Z → Z → fetched;        (* [channel.fetch_message(id)] *)
  send_ok : bool;                         (* does [channel.send] succeed *)
  edit_ok : bool;                         (* does [message.edit] succeed *)
  gif_path_exists : string → bool;        (* [get_gif_path(gif_id)] is a file *)
  sent_message_id : Z;                    (* id given to the message posted *)
  draw : nat → nat;                       (* the random source, draw by draw *)
}.

(** The caller of a command. [has_admin] is the outcome of the inspection
    of owner, roles and permissions in [is_admin]. *)
Record Interaction := {
  user_id : Z;
  interaction_guild : Z;
  interaction_channel : Z;
  has_admin : bool;
}.

(** [random.choice(seq)] with the draw [r]: [seq[randbelow(len(seq))]];
    [None] stands for the [IndexError] on an empty sequence. *)
Definition random_choice {A} (r : nat) (seq : list A) : option A :=
  match seq with
  | [] => None
  | _ => seq !! (r mod length seq)%nat
  end.

(** Truth value of an optional string: neither [None] nor empty. *)
Definition truthy (s : option string) : bool :=
  match s with
  | Some (String _ _) => true
  | _ => false
  end.

(** *** [utils/database.py]: [load_giveaways] and [save_giveaways] *)

Definition load_giveaways (file : option (gmap string Giveaway))
  : gmap string Giveaway :=
  default ∅ file.

(** The write is inside [try]; a failure is logged and nothing is raised
    or returned. A write refused by [open] leaves the file as it was; one
    that fails later, in [json.dump] or when the file is closed, leaves a
    file that [open(..., 'w')] has emptied and that holds at most a
    beginning of the text, which [json.load] does not parse.
    [ensure_data_directory], called before the [try], finds the
    directories that [load_giveaways] found or made when the cog was
    built. *)
Definition save_giveaways (w : World) (c : Cog) : Cog :=
  if disk_ok w then with_file (Some (giveaways c)) c
  else if write_truncates w then logged ErrorSaving (with_file None c)
  else logged ErrorSaving c.

(** *** Tasks *)

(** [asyncio.create_task(coro)]: the handle of the new task and the state. *)
Definition create_task (co : coroutine) (c : Cog) : nat * Cog :=
  (length (tasks c),
   with_tasks (tasks c ++ [{| coro := co; status := Pending |}]) c).

(** [task.cancel()]: a request; nothing happens to a finished task. *)
Definition cancel (h : nat) (c : Cog) : Cog :=
  match tasks c !! h with
  | Some {| coro := co; status := Pending |} =>
      with_tasks (<[h := {| coro := co; status := CancelRequested |}]> (tasks c)) c
  | _ => c
  end.

(** [if giveaway_id in self.bot.active_giveaways:
       self.bot.active_giveaways[giveaway_id].cancel()] *)
Definition cancel_scheduled (giveaway_id : string) (c : Cog) : Cog :=
  match active_giveaways c !! giveaway_id with
  | Some h => cancel h c
  | None => c
  end.

(** *** Permissions *)

Definition allowed_guild_ids : list Z :=
  [714813888226525226; 1093641722589876336].

(** [is_allowed_guild]: the verdict and the state after the refusal. *)
Definition is_allowed_guild (i : Interaction) (c : Cog) : bool * Cog :=
  if debug_mode c then (true, c)
  else if bool_decide (interaction_guild i ∈ allowed_guild_ids) then (true, c)
  else (false, emit (Reply GuildNotAllowed) c).

(** [is_admin]; the three refusals it words differently (no right, no
    guild object, an exception while looking) are one reply here. *)
Definition is_admin (i : Interaction) (c : Cog) : bool * Cog :=
  let '(ok, c) := is_allowed_guild i c in
  if negb ok then (false, c)
  else if debug_mode c then (true, c)
  else if has_admin i then (true, c)
  else (false, emit (Reply NotAdministrator) c).

(** *** Resolution: [end_giveaway] *)

Definition values {V} (d : gmap string V) : list V := (map_to_list d).*2.

Definition send (w : World) (channel : Z) (p : post) (c : Cog) : outcome Cog :=
  if send_ok w then Done (emit (Send channel p) c) else Raised DiscordError c.

Definition edit_message (w : World) (channel message : Z) (e : edit) (c : Cog)
  : outcome Cog :=
  if edit_ok w then Done (emit (EditMessage channel message e) c)
  else Raised DiscordError c.

(** The choice of the prize: the giveaway's own prizes when it has some,
    else the global pool when it has some, else the default name. *)
Definition select_prize (w : World) (giveaway : Giveaway)
    (prizes : gmap string string) : result string :=
  let prize := "Mystery Prize" in
  let assigned := default ∅ (assigned_prizes giveaway) in
  if bool_decide (assigned ≠ ∅) then
    match random_choice (draw w 1) (values assigned) with
    | Some p => Ok p
    | None => Err IndexError
    end
  else if bool_decide (prizes ≠ ∅) then
    match random_choice (draw w 1) (values prizes) with
    | Some p => Ok p
    | None => Err IndexError
    end
  else Ok prize.

(** [if participants: ... else: ...]: the announcement and the rewriting of
    the original message; [original] is its id when it was fetched and has
    an embed. *)
Definition announce (w : World) (giveaway_id : string) (giveaway : Giveaway)
    (channel : Z) (original : option Z) (c : Cog) : outcome Cog :=
  match participants giveaway with
  | [] =>
      bind_outcome (send w channel (NoParticipantsPost giveaway_id) c) (λ c,
        match original with
        | Some message => edit_message w channel message NoParticipantsEdit c
        | None => Done c
        end)
  | _ =>
      match random_choice (draw w 0) (participants giveaway) with
      | None => Raised IndexError c
      | Some winner_id =>
          match select_prize w giveaway (prizes c) with
          | Err e => Raised e c
          | Ok prize =>
              let with_gif :=
                match celebration_gif giveaway with
                | Some gif_id =>
                    truthy (Some gif_id) && bool_decide (is_Some (gifs c !! gif_id))
                    && gif_path_exists w gif_id
                | None => false
                end in
              bind_outcome
                (send w channel (WinnerPost giveaway_id winner_id prize with_gif) c)
                (λ c,
                  match original with
                  | Some message =>
                      edit_message w channel message (WinnerEdit winner_id prize) c
                  | None => Done c
                  end)
          end
      end
  end.

(** [# Clean up] *)
Definition clean_up (giveaway_id : string) (c : Cog) : Cog :=
  with_active (delete giveaway_id (active_giveaways c)) c.

(** The body of the [try] of [end_giveaway]. *)
Definition end_giveaway_body (w : World) (giveaway_id : string) (c : Cog)
  : outcome Cog :=
  match giveaways c !! giveaway_id with
  | None => Done (logged (ErrorNotFoundOnEnd giveaway_id) c)
  | Some stored =>
      let giveaway := set_ended true stored in
      let c := save_giveaways w (update_giveaway giveaway_id giveaway c) in
      if negb (truthy (channel_id giveaway)) || negb (truthy (message_id giveaway))
      then Done (logged (ErrorMissingIds giveaway_id) c)
      else
        match Py.int (default "" (channel_id giveaway)) with
        | None => Raised ValueError c
        | Some channel =>
            if negb (get_channel w channel)
            then Done (logged (ErrorNoChannel giveaway_id) c)
            else
              match Py.int (default "" (message_id giveaway)) with
              | None => Raised ValueError c
              | Some message =>
                  match fetch_message w channel message with
                  | FetchFailed => Raised DiscordError c
                  | MessageNotFound =>
                      bind_outcome
                        (announce w giveaway_id giveaway channel None
                                  (logged ErrorNoMessage c))
                        (λ c, Done (clean_up giveaway_id c))
                  | MessageFound has_embed =>
                      bind_outcome
                        (announce w giveaway_id giveaway channel
                                  (if has_embed then Some message else None) c)
                        (λ c, Done (clean_up giveaway_id c))
                  end
              end
        end
  end.

(** [end_giveaway]: every exception of the body is logged and dropped. *)
Definition end_giveaway (w : World) (giveaway_id : string) (c : Cog) : Cog :=
  match end_giveaway_body w giveaway_id c with
  | Done c' => c'
  | Raised _ c' => logged (ErrorEnding giveaway_id) c'
  end.

(** *** The commands *)

(** [/endgiveaway] *)
Definition end_giveaway_command (w : World) (i : Interaction)
    (giveaway_id : string) (c : Cog) : Cog :=
  let '(ok, c) := is_admin i c in
  if negb ok then c
  else
    match giveaways c !! giveaway_id with
    | None => emit (Reply GiveawayNotFound) c
    | Some giveaway =>
        if ended giveaway then emit (Reply AlreadyEnded) c
        else
          let c := cancel_scheduled giveaway_id c in
          let c := emit (Reply EndingEarly) c in
          end_giveaway w giveaway_id c
    end.

(** [/endgiveaway] up to its reply. At
    [await interaction.response.send_message(...)] the command is
    suspended, after its test of [ended] and before [end_giveaway] sets
    the flag, and the event loop may start another command. The boolean
    tells whether the command goes on to [end_giveaway] when it is
    resumed. *)
Definition end_giveaway_command_begin (i : Interaction) (giveaway_id : string)
    (c : Cog) : bool * Cog :=
  let '(ok, c) := is_admin i c in
  if negb ok then (false, c)
  else
    match giveaways c !! giveaway_id with
    | None => (false, emit (Reply GiveawayNotFound) c)
    | Some giveaway =>
        if ended giveaway then (false, emit (Reply AlreadyEnded) c)
        else
          let c := cancel_scheduled giveaway_id c in
          (true, emit (Reply EndingEarly) c)
    end.

(** The [try] of [cancel_giveaway] that rewrites the original message. *)
Definition update_cancelled_message (w : World) (giveaway : Giveaway) (c : Cog)
  : outcome Cog :=
  match channel_id giveaway with
  | None => Raised KeyError c
  | Some channel_str =>
      match Py.int channel_str with
      | None => Raised ValueError c
      | Some channel =>
          if get_channel w channel then
            match message_id giveaway with
            | None => Raised KeyError c
            | Some message_str =>
                match Py.int message_str with
                | None => Raised ValueError c
                | Some message =>
                    match fetch_message w channel message with
                    | MessageFound true =>
                        edit_message w channel message CancelledEdit c
                    | MessageFound false => Done c
                    | _ => Raised DiscordError c
                    end
                end
            end
          else Done c
      end
  end.

(** [/cancelgiveaway] *)
Definition cancel_giveaway (w : World) (i : Interaction) (giveaway_id : string)
    (c : Cog) : Cog :=
  let '(ok, c) := is_admin i c in
  if negb ok then c
  else
    match giveaways c !! giveaway_id with
    | None => emit (Reply GiveawayNotFound) c
    | Some giveaway =>
        if ended giveaway then emit (Reply AlreadyEnded) c
        else
          let c := match active_giveaways c !! giveaway_id with
                   | Some h => with_active (delete giveaway_id (active_giveaways c))
                                           (cancel h c)
                   | None => c
                   end in
          let giveaway := set_ended true giveaway in
          let c := save_giveaways w (update_giveaway giveaway_id giveaway c) in
          let c := match update_cancelled_message w giveaway c with
                   | Done c' => c'
                   | Raised _ c' => logged ErrorUpdatingCancelled c'
                   end in
          logged (InfoCancelled giveaway_id) (emit (Reply Cancelled) c)
    end.

(** [day, month, year = map(int, date.split('.'))],
    [hour, minute = map(int, time.split(':'))],
    [datetime(year, month, day, hour, minute)]. *)
Definition parse_end_time (date time : string) : result Z :=
  match Py.int <$> Py.split "." date with
  | [Some day; Some month; Some year] =>
      match Py.int <$> Py.split ":" time with
      | [Some hour; Some minute] => Datetime.datetime year month day hour minute
      | _ => Err ValueError
      end
  | _ => Err ValueError
  end.

(** [int(giveaway.get(key, 0))] *)
Definition int_or_zero (field : option string) : option Z :=
  match field with
  | None => Some 0
  | Some s => Py.int s
  end.

(** The [try] of [set_exact_time] that rewrites the end time shown in the
    original message; the embed found is the one posted at creation, which
    carries the end-time line. *)
Definition update_end_time_message (w : World) (giveaway : Giveaway)
    (end_timestamp : Z) (c : Cog) : outcome Cog :=
  match int_or_zero (channel_id giveaway) with
  | None => Raised ValueError c
  | Some channel =>
      match int_or_zero (message_id giveaway) with
      | None => Raised ValueError c
      | Some message =>
          if get_channel w channel && negb (message =? 0) then
            match fetch_message w channel message with
            | MessageFound true =>
                edit_message w channel message (EndTimeEdit end_timestamp) c
            | MessageFound false => Done c
            | _ => Raised DiscordError c
            end
          else Done c
      end
  end.

(** [/setexacttime] *)
Definition set_exact_time (w : World) (i : Interaction) (giveaway_id : string)
    (date time : string) (c : Cog) : Cog :=
  let '(ok, c) := is_admin i c in
  if negb ok then c
  else
    match giveaways c !! giveaway_id with
    | None => emit (Reply GiveawayNotFound) c
    | Some giveaway =>
        if ended giveaway then emit (Reply CannotRescheduleEnded) c
        else
          match parse_end_time date time with
          | Err ValueError => emit (Reply BadDateFormat) c
          | Err _ => emit (Reply SetTimeError) (logged ErrorSettingTime c)
          | Ok end_time_ =>
              if end_time_ <=? now w then emit (Reply MustBeInFuture) c
              else
                let end_timestamp := end_time_ in
                let seconds_until_end := end_timestamp - now w in
                let c := cancel_scheduled giveaway_id c in
                let giveaway := set_end_time end_timestamp giveaway in
                let c := save_giveaways w (update_giveaway giveaway_id giveaway c) in
                let '(h, c) :=
                  create_task (ScheduleGiveawayEnd giveaway_id seconds_until_end) c in
                let c := with_active (<[giveaway_id := h]> (active_giveaways c)) c in
                let c := match update_end_time_message w giveaway end_timestamp c with
                         | Done c' => c'
                         | Raised _ c' => logged ErrorUpdatingEndTime c'
                         end in
                logged (InfoEndTimeUpdated giveaway_id) (emit (Reply EndTimeChanged) c)
          end
    end.

(** [/mysterybox]: an exception leaves the command. The id, the duration,
    the end date and its timestamp are computed before anything is sent or
    stored. *)
Definition create_giveaway (w : World) (i : Interaction) (hours minutes : Z)
    (title_ description_ : string) (c : Cog) : outcome Cog :=
  let '(ok, c) := is_admin i c in
  if negb ok then Done c
  else
    let giveaway_id :=
      Py.str (interaction_guild i) +:+ "-" +:+ Datetime.timestamp_str (now w) in
    match Datetime.timedelta hours minutes with
    | Err e => Raised e c
    | Ok duration =>
        match Datetime.add (now w) duration with
        | Err e => Raised e c
        | Ok end_time_ =>
            match Datetime.timestamp end_time_ with
            | Err e => Raised e c
            | Ok end_timestamp =>
                let c := emit (Reply GiveawayCreated) c in
                bind_outcome
                  (send w (interaction_channel i)
                        (GiveawayPost giveaway_id end_timestamp) c)
                  (λ c,
                    let giveaway :=
                      {| title := title_; description := description_;
                         creator_id := Py.str (user_id i);
                         channel_id := Some (Py.str (interaction_channel i));
                         message_id := Some (Py.str (sent_message_id w));
                         guild_id := Py.str (interaction_guild i);
                         end_time := end_timestamp; participants := [];
                         ended := false; assigned_prizes := None;
                         prize_list_id := None; celebration_gif := None |} in
                    let c :=
                      save_giveaways w (update_giveaway giveaway_id giveaway c) in
                    let seconds_until_end := duration in
                    let '(h, c) :=
                      create_task
                        (ScheduleGiveawayEnd giveaway_id seconds_until_end) c in
                    let c :=
                      with_active (<[giveaway_id := h]> (active_giveaways c)) c in
                    Done (logged (InfoCreated giveaway_id seconds_until_end) c))
            end
        end
    end.

(** The participation button. *)
Definition add_participant (w : World) (i : Interaction) (giveaway_id : string)
    (c : Cog) : Cog :=
  let '(ok, c) := if debug_mode c then (true, c) else is_allowed_guild i c in
  if negb ok then c
  else
    match giveaways c !! giveaway_id with
    | None => emit (Reply NoLongerActive) c
    | Some giveaway =>
        if ended giveaway then emit (Reply AlreadyEnded) c
        else
          let user := Py.str (user_id i) in
          if bool_decide (user ∈ participants giveaway)
          then emit (Reply AlreadyJoined) c
          else
            let giveaway :=
              set_participants (participants giveaway ++ [user]) giveaway in
            let c := save_giveaways w (update_giveaway giveaway_id giveaway c) in
            logged (InfoJoined user giveaway_id) (emit (Reply Joined) c)
    end.

(** [/attachgif] *)
Definition attach_gif (w : World) (i : Interaction) (giveaway_id gif_id : string)
    (c : Cog) : Cog :=
  let '(ok, c) := is_admin i c in
  if negb ok then c
  else
    match giveaways c !! giveaway_id with
    | None => emit (Reply GiveawayNotFound) c
    | Some giveaway =>
        if negb (bool_decide (is_Some (gifs c !! gif_id)))
        then emit (Reply GifNotFound) c
        else if ended giveaway then emit (Reply CannotAttachToEnded) c
        else
          let giveaway := set_celebration_gif gif_id giveaway in
          let c := save_giveaways w (update_giveaway giveaway_id giveaway c) in
          logged (InfoGifAttached gif_id giveaway_id) (emit (Reply GifAttached) c)
    end.

(** [/assignprizes] *)
Definition assign_prizes (w : World) (i : Interaction)
    (giveaway_id prize_ids : string) (c : Cog) : outcome Cog :=
  let '(ok, c) := is_admin i c in
  if negb ok then Done c
  else
    match giveaways c !! giveaway_id with
    | None => Done (emit (Reply GiveawayNotFound) c)
    | Some giveaway =>
        if ended giveaway then Done (emit (Reply CannotAssignToEnded) c)
        else
          match Resolver.parse_prize_ids prize_ids (prizes c) with
          | Raised e _ => Raised e c
          | Done (assigned, missing) =>
              if bool_decide (assigned = ∅) then Done (emit (Reply NoPrizeFound) c)
              else
                let giveaway := set_assigned_prizes assigned giveaway in
                let c := save_giveaways w (update_giveaway giveaway_id giveaway c) in
                Done (logged (InfoPrizesAssigned giveaway_id)
                             (emit (Reply (PrizesAssigned missing)) c))
          end
    end.

(** *** Start-up: [reload_active_giveaways] *)

(** One turn of the loop over [self.giveaways.items()]. *)
Definition restore (now_ : Z) (c : Cog) (item : string * Giveaway) : Cog :=
  let '(giveaway_id, giveaway) := item in
  if ended giveaway then c
  else if now_ <? end_time giveaway then
    let seconds_left := end_time giveaway - now_ in
    let '(h, c) := create_task (ScheduleGiveawayEnd giveaway_id seconds_left) c in
    let c := with_active (<[giveaway_id := h]> (active_giveaways c)) c in
    logged (InfoRestored giveaway_id seconds_left) c
  else
    let '(_, c) := create_task (EndGiveaway giveaway_id) c in
    logged (InfoEndingMissed giveaway_id) c.

Definition reload_active_giveaways (w : World) (c : Cog) : Cog :=
  foldl (restore (now w)) c (map_to_list (giveaways c)).

(** [GiveawayCog.__init__] on a bot that has just been built: the file is
    loaded, the table of timers is empty, the timers are restored. The log
    starts with the lines of the sweep; the line [load_giveaways] writes
    for a file it cannot parse is left out. *)
Definition init (w : World) (file : option (gmap string Giveaway))
    (prizes_ gifs_ : gmap string string) (debug : bool) : Cog :=
  reload_active_giveaways w
    {| giveaways := load_giveaways file; prizes := prizes_; gifs := gifs_;
       debug_mode := debug; active_giveaways := ∅; tasks := [];
       giveaways_file := file; sent := []; log := [] |}.

(** *** The event loop runs a task *)

Definition finish (h : nat) (co : coroutine) (c : Cog) : Cog :=
  with_tasks (<[h := {| coro := co; status := Finished |}]> (tasks c)) c.

(** The task [h] gets its turn: a pending [schedule_giveaway_end] has slept
    and ends the giveaway, a pending [end_giveaway] runs, a task whose
    cancellation was requested notes it and stops. *)
Definition run_task (w : World) (h : nat) (c : Cog) : Cog :=
  match tasks c !! h with
  | Some {| coro := co; status := Pending |} =>
      let c := finish h co c in
      match co with
      | ScheduleGiveawayEnd giveaway_id _ => end_giveaway w giveaway_id c
      | EndGiveaway giveaway_id => end_giveaway w giveaway_id c
      end
  | Some {| coro := co; status := CancelRequested |} =>
      let c := finish h co c in
      match co with
      | ScheduleGiveawayEnd giveaway_id _ => logged (InfoTaskCancelled giveaway_id) c
      | EndGiveaway _ => c
      end
  | _ => c
  end.

End Engine.

(** ** The prize resolver as the design document words it *)

Module ResolverSpec.

(** The tokens of a specification: split on commas, blanks around dropped. *)
Definition tokens (spec : string) : list string :=
  Py.strip <$> Py.split "," spec.

(** The bounds of a token that is a well-formed range: exactly two sides
    around one dash, both integers. *)
Definition range_bounds (token : string) : option (Z * Z) :=
  match Py.strip <$> Py.split "-" token with
  | [a; b] =>
      match Py.int a with
      | Some A => match Py.int b with
                  | Some B => Some (A, B)
                  | None => None
                  end
      | None => None
      end
  | _ => None
  end.

(** The ids a token asks for: every integer of the range in ascending
    order by its string form, or the token itself as a bare id. *)
Definition requested (token : string) : list string :=
  match range_bounds token with
  | Some (A, B) => Py.str <$> seqZ A (B - A + 1)
  | None => [token]
  end.

(** Looking one id up: a hit goes to [resolved], a miss to [unresolved]. *)
Definition classify (catalog : gmap string string)
    (a : gmap string string * list string) (id : string)
  : gmap string string * list string :=
  match catalog !! id with
  | Some name => (<[id := name]> a.1, a.2)
  | None => (a.1, a.2 ++ [id])
  end.

End ResolverSpec.

(** ** Notions used to state the properties of the engine *)

Module EngineSpec.
Import Engine.

(** The guild test of the participation button, as one boolean. *)
Definition guild_allowed (i : Interaction) (c : Cog) : bool :=
  debug_mode c || bool_decide (interaction_guild i ∈ allowed_guild_ids).

(** The whole check of [is_admin], as one boolean. *)
Definition admin_ok (i : Interaction) (c : Cog) : bool :=
  guild_allowed i c && (debug_mode c || has_admin i).

(** The state a block ends in, finished or not. *)
Definition final {S} (o : outcome S) : S :=
  match o with
  | Done s => s
  | Raised _ s => s
  end.

(** The announcements of a winner among some events. *)
Definition is_winner_post (e : event) : bool :=
  match e with
  | Send _ (WinnerPost _ _ _ _) => true
  | _ => false
  end.

Definition winner_posts (l : list event) : nat :=
  length (filter (λ e, is_winner_post e = true) l).

(** [end_giveaway] can reach the place of the announcement: the ids of the
    channel and of the message are integers, the channel exists and asking
    for the message does not fail (it may be gone). *)
Definition reachable (w : World) (g : Giveaway) : Prop :=
  ∃ channel_str message_str channel message,
    channel_id g = Some channel_str ∧ message_id g = Some message_str
    ∧ Py.int channel_str = Some channel ∧ Py.int message_str = Some message
    ∧ get_channel w channel = true
    ∧ fetch_message w channel message ≠ FetchFailed.

(** The same world with another disk. *)
Definition with_disk_ok (b : bool) (w : World) : World :=
  {| now := now w; disk_ok := b; write_truncates := write_truncates w;
     get_channel := get_channel w;
     fetch_message := fetch_message w; send_ok := send_ok w; edit_ok := edit_ok w;
     gif_path_exists := gif_path_exists w; sent_message_id := sent_message_id w;
     draw := draw w |}.


(** The giveaway a coroutine works on. *)
Definition target (co : coroutine) : string :=
  match co with
  | ScheduleGiveawayEnd giveaway_id _ => giveaway_id
  | EndGiveaway giveaway_id => giveaway_id
  end.

(** What start-up owes to one stored giveaway, between the cog [c] before
    the sweep and the cog [c'] after it, at the instant [now_]: a timer for
    the remaining time when it is open and ends in the future, a task that
    ends it at once when it is open and its end has passed, nothing when it
    is ended. New tasks are those with a handle from [length (tasks c)]
    on. *)
Definition restored (now_ : Z) (c c' : Cog) (giveaway_id : string) (g : Giveaway)
  : Prop :=
  (ended g = false → now_ < end_time g →
     ∃ h, (length (tasks c) ≤ h)%nat
          ∧ active_giveaways c' !! giveaway_id = Some h
          ∧ tasks c' !! h
            = Some {| coro := ScheduleGiveawayEnd giveaway_id (end_time g - now_);
                      status := Pending |})
  ∧ (ended g = false → end_time g ≤ now_ →
       active_giveaways c' !! giveaway_id = active_giveaways c !! giveaway_id
       ∧ ∃ h, (length (tasks c) ≤ h)%nat
              ∧ tasks c' !! h
                = Some {| coro := EndGiveaway giveaway_id; status := Pending |})
  ∧ (ended g = true →
       active_giveaways c' !! giveaway_id = active_giveaways c !! giveaway_id
       ∧ ∀ h t, (length (tasks c) ≤ h)%nat → tasks c' !! h = Some t →
                target (coro t) ≠ giveaway_id).

(** A command on the giveaway [id'] is guarded when it leaves the
    giveaways as they are or rewrites the record of [id'], which was open. *)
Definition guarded_update (id' : string) (m m' : gmap string Giveaway) : Prop :=
  m' = m ∨ ∃ g' g'', m !! id' = Some g' ∧ ended g' = false ∧ m' = <[id' := g'']> m.



End EngineSpec.

(** ** A small deployment, to run the definitions on *)

Module Scenario.
Import Engine.

Definition gid : string := "714813888226525226-0.5".

(** An open giveaway with one participant, posted in channel 100 as
    message 200. *)
Definition box : Giveaway :=
  {| title := "Box"; description := "Join"; creator_id := "7";
     channel_id := Some "100"; message_id := Some "200";
     guild_id := "714813888226525226"; end_time := 5000000;
     participants := ["42"]; ended := false; assigned_prizes := None;
     prize_list_id := None; celebration_gif := None |}.

(** The cog holding it, its timer pending under handle 0. *)
Definition cog : Cog :=
  {| giveaways := {[gid := box]}; prizes := {["1" := "Sword"]}; gifs := ∅;
     debug_mode := false; active_giveaways := {[gid := 0%nat]};
     tasks := [{| coro := ScheduleGiveawayEnd gid 4000000; status := Pending |}];
     giveaways_file := Some {[gid := box]}; sent := []; log := [] |}.

(** A world where everything works: the channel and the message exist. *)
Definition world : World :=
  {| now := 1000000; disk_ok := true; write_truncates := false;
     get_channel := λ ch, ch =? 100;
     fetch_message := λ _ _, MessageFound true; send_ok := true; edit_ok := true;
     gif_path_exists := λ _, false; sent_message_id := 200; draw := λ _, 0%nat |}.

(** The same with a disk that refuses the write when the file is
    opened. *)
Definition world_disk_full : World := EngineSpec.with_disk_ok false world.

(** The same with the channel gone. *)
Definition world_channel_gone : World :=
  {| now := 1000000; disk_ok := true; write_truncates := false;
     get_channel := λ _, false;
     fetch_message := λ _ _, MessageNotFound; send_ok := true; edit_ok := true;
     gif_path_exists := λ _, false; sent_message_id := 200; draw := λ _, 0%nat |}.

Definition admin : Interaction :=
  {| user_id := 7; interaction_guild := 714813888226525226;
     interaction_channel := 100; has_admin := true |}.

Definition member : Interaction :=
  {| user_id := 43; interaction_guild := 714813888226525226;
     interaction_channel := 100; has_admin := false |}.

End Scenario.

(** ** Notions used to state the properties of the Python primitives *)

Module PySpec.

(** The value of a run of decimal digits read after the value [acc]. *)
Fixpoint uint_value (d : Decimal.uint) (acc : Z) : Z :=
  match d with
  | Decimal.Nil => acc
  | Decimal.D0 d => uint_value d (10 * acc + 0)
  | Decimal.D1 d => uint_value d (10 * acc + 1)
  | Decimal.D2 d => uint_value d (10 * acc + 2)
  | Decimal.D3 d => uint_value d (10 * acc + 3)
  | Decimal.D4 d => uint_value d (10 * acc + 4)
  | Decimal.D5 d => uint_value d (10 * acc + 5)
  | Decimal.D6 d => uint_value d (10 * acc + 6)
  | Decimal.D7 d => uint_value d (10 * acc + 7)
  | Decimal.D8 d => uint_value d (10 * acc + 8)
  | Decimal.D9 d => uint_value d (10 * acc + 9)
  end.

(** No character of the string is white space. *)
Fixpoint no_space (s : string) : bool :=
  match s with
  | EmptyString => true
  | String c s' => negb (Py.isspace c) && no_space s'
  end.

End PySpec.

(** ** Notions used to state further properties of the engine *)

Module EngineInv.
Import Engine EngineSpec.

(** The file of giveaways holds what is in memory. *)
Definition synced (c : Cog) : Prop := giveaways_file c = Some (giveaways c).

(** An event that is an announcement posted in a channel. *)
Definition is_post (e : event) : bool :=
  match e with
  | Send _ _ => true
  | _ => false
  end.

(** The announcements of a winner for one giveaway among some events. *)
Definition is_winner_of (giveaway_id : string) (e : event) : bool :=
  match e with
  | Send _ (WinnerPost id _ _ _) => bool_decide (id = giveaway_id)
  | _ => false
  end.

Definition winners_for (giveaway_id : string) (l : list event) : nat :=
  length (filter (λ e, is_winner_of giveaway_id e = true) l).

(** The state of the timers is sound when every pending task works on a
    known, open giveaway and is the one the table has for it, and when
    every giveaway has had at most one winner announced and is ended if it
    has had one. *)
Record sound (c : Cog) : Prop := {
  pending_registered :
    ∀ h t, tasks c !! h = Some t → status t = Pending →
           active_giveaways c !! target (coro t) = Some h
           ∧ ∃ g, giveaways c !! target (coro t) = Some g ∧ ended g = false;
  winner_once :
    ∀ id, (winners_for id (sent c) ≤ 1)%nat
          ∧ ((1 ≤ winners_for id (sent c))%nat →
             ∃ g, giveaways c !! id = Some g ∧ ended g = true);
}.

(** The id [create_giveaway] gives to the giveaway it creates. *)
Definition new_giveaway_id (w : World) (i : Interaction) : string :=
  Py.str (interaction_guild i) +:+ "-" +:+ Datetime.timestamp_str (now w).

(** One step of a run of the engine in which nothing overlaps: a command,
    a press of the button, or the turn of a task, in any world, carried to
    its end before the next one begins. A giveaway is created under an id
    not yet in use. *)
Inductive step (c : Cog) : Cog → Prop :=
| step_create w i hours minutes title_ description_ :
    giveaways c !! new_giveaway_id w i = None →
    step c (final (create_giveaway w i hours minutes title_ description_ c))
| step_join w i giveaway_id :
    step c (add_participant w i giveaway_id c)
| step_end w i giveaway_id :
    step c (end_giveaway_command w i giveaway_id c)
| step_cancel w i giveaway_id :
    step c (cancel_giveaway w i giveaway_id c)
| step_set_time w i giveaway_id date time :
    step c (set_exact_time w i giveaway_id date time c)
| step_attach w i giveaway_id gif_id :
    step c (attach_gif w i giveaway_id gif_id c)
| step_assign w i giveaway_id prize_ids :
    step c (final (assign_prizes w i giveaway_id prize_ids c))
| step_task w h :
    step c (run_task w h c).

End EngineInv.

(** ** The prize catalogue, the prize lists and the views: the other
       commands of [GiveawayCog] *)

Module Catalog.
Import Engine.

(** *** Python pieces *)

Definition LF : ascii := "010"%char.
Definition CR : ascii := "013"%char.

(** The truth value of a string. *)
Definition nonempty (s : string) : bool :=
  match s with
  | EmptyString => false
  | String _ _ => true
  end.

(** [s.startswith(c)] for a one-character [c]. *)
Definition startswith (c : ascii) (s : string) : bool :=
  match s with
  | EmptyString => false
  | String d _ => Ascii.eqb d c
  end.

(** [s.split(sep, 1)] for a one-character separator: one or two parts. *)
Fixpoint split_once (sep : ascii) (s : string) : list string :=
  match s with
  | EmptyString => [EmptyString]
  | String c s' =>
      if Ascii.eqb c sep then [EmptyString; s']
      else match split_once sep s' with
           | p :: ps => String c p :: ps
           | [] => [String c EmptyString]
           end
  end.

(** A [dict] of strings with its order of insertion. [d[k] = v] keeps the
    place of a key already there. *)
Definition dict := list (string * string).

Fixpoint dict_set (k v : string) (d : dict) : dict :=
  match d with
  | [] => [(k, v)]
  | (k', v') :: d' =>
      if String.eqb k' k then (k', v) :: d' else (k', v') :: dict_set k v d'
  end.

(** [enumerate(l)] *)
Definition enumerate {A} (l : list A) : list (nat * A) :=
  zip (seq 0 (length l)) l.

(** [range(0, stop, step)] *)
Definition range_step (stop step : nat) : list nat :=
  (λ k, k * step)%nat <$> seq 0 ((stop + step - 1) / step)%nat.

(** [l[i:j]] *)
Definition slice {A} (i j : nat) (l : list A) : list A := take (j - i) (drop i l).

(** What [f.read()] returns for a file opened in text mode with the
    default [newline]: [\r\n] and a lone [\r] are read as [\n]. *)
Fixpoint universal_newlines (s : string) : string :=
  match s with
  | EmptyString => EmptyString
  | String c s' =>
      if Ascii.eqb c CR then
        match s' with
        | String d _ =>
            if Ascii.eqb d LF then universal_newlines s'
            else String LF (universal_newlines s')
        | EmptyString => String LF EmptyString
        end
      else String c (universal_newlines s')
  end.

(** *** The lines of a prize list *)

(** The three lists the loop of [create_prize_list] fills. An invalid line
    is kept with its number. *)
Record scanned := {
  scan_prizes : dict;
  valid_lines : list string;
  invalid_lines : list (nat * string);
}.

(** The body of the loop of [create_prize_list]. *)
Definition scan_line (st : scanned) (item : nat * string) : scanned :=
  let '(i, line) := item in
  let line := Py.strip line in
  if negb (nonempty line) || startswith "#" line then st
  else
    let invalid :=
      {| scan_prizes := scan_prizes st; valid_lines := valid_lines st;
         invalid_lines := invalid_lines st ++ [((i + 1)%nat, line)] |} in
    if Py.contains ":" line then
      match split_once ":" line with
      | [part0; part1] =>
          let prize_id := Py.strip part0 in
          let prize_name := Py.strip part1 in
          if nonempty prize_id && nonempty prize_name then
            {| scan_prizes := dict_set prize_id prize_name (scan_prizes st);
               valid_lines := valid_lines st ++ [prize_id +:+ ": " +:+ prize_name];
               invalid_lines := invalid_lines st |}
          else invalid
      | _ => invalid
      end
    else invalid.

Definition scan (content_text : string) : scanned :=
  foldl scan_line
        {| scan_prizes := []; valid_lines := []; invalid_lines := [] |}
        (enumerate (Py.split LF (Py.strip content_text))).

(** The body of the loop of [view_prize_list] and [assign_prize_list]. *)
Definition read_line (prizes : dict) (line : string) : dict :=
  let line := Py.strip line in
  if negb (nonempty line) || startswith "#" line then prizes
  else if Py.contains ":" line then
    match split_once ":" line with
    | [part0; part1] =>
        let prize_id := Py.strip part0 in
        let prize_name := Py.strip part1 in
        if nonempty prize_id && nonempty prize_name
        then dict_set prize_id prize_name prizes
        else prizes
    | _ => prizes
    end
  else prizes.

Definition read_prizes (content : string) : dict :=
  foldl read_line [] (Py.split LF (Py.strip content)).

(** *** The state and the outside *)

(** An entry of [prize_lists.json], as [create_prize_list] writes it. *)
Record list_data := {
  name : string;
  path : string;
  created_by : string;
  created_at : Z;
  prize_count : nat;
}.

(** A line of the view of the participants. *)
Inductive participant_line :=
| KnownUser (user_name : string) (user : Z)
| UnknownUser (user_id : string).

(** A field of an embed that shows the entries from [first] to [last]. *)
Record embed_field (A : Type) := {
  from_index : nat;
  to_index : nat;
  chunk : list A;
}.
Arguments from_index {A} e.
Arguments to_index {A} e.
Arguments chunk {A} e.

(** The answers of these commands. *)
Inductive answer :=
| PrizeIdTaken | PrizeAdded (prize_name : string)
| PrizeNotFound | PrizeRemoved (prize_name : string)
| ListIdTaken | AskForFile | TimedOut | CreateError
| NoValidEntries | FileSaveError
| ListCreated (list_name list_id : string) (count : nat)
              (preview : list string) (more : option nat)
              (invalid_preview : list (nat * string)) (more_invalid : option nat)
| ListNotFound | ListUnreadable
| ListView (list_name list_id : string) (count : nat)
           (fields : list (embed_field (string * string))) (with_file : bool)
| ListRemoved (list_name : string)
| NoSuchGiveaway | CannotAssignListToEnded | ListHasNoPrize
| ListAssigned (title list_name : string) (count : nat)
| NoParticipantsYet
| ParticipantsView (title : string) (total : nat)
                   (fields : list (embed_field participant_line))
                   (giveaway_id : string).

Inductive note :=
| ErrorSavingPrizes | ErrorSavingLists | ErrorSavingListFile
| ErrorListFileMissing | ErrorLoadingListFile | ErrorDeletingListFile
| ErrorCreatingList
| InfoPrizeAdded (prize_id prize_name : string)
| InfoPrizeRemoved (prize_id prize_name : string)
| InfoListCreated (list_id : string) (count : nat)
| InfoListRemoved (list_id : string)
| InfoListAssigned (list_id giveaway_id : string).

(** The cog with what these commands add to it: the table of prize lists,
    the files of the catalogue and of the lists, the answers given and the
    lines logged. *)
Record Shelf := {
  cog : Cog;
  prize_lists : gmap string list_data;
  prizes_file : option (gmap string string);        (* [data/prizes.json] *)
  lists_file : option (gmap string list_data);      (* [data/prize_lists.json] *)
  list_files : gmap string string;   (* [data/prize_lists/<id>.txt], by id *)
  answers : list answer;
  notes : list note;
}.

Definition with_cog (c : Cog) (s : Shelf) : Shelf :=
  {| cog := c; prize_lists := prize_lists s; prizes_file := prizes_file s;
     lists_file := lists_file s; list_files := list_files s;
     answers := answers s; notes := notes s |}.

Definition with_prize_lists (m : gmap string list_data) (s : Shelf) : Shelf :=
  {| cog := cog s; prize_lists := m; prizes_file := prizes_file s;
     lists_file := lists_file s; list_files := list_files s;
     answers := answers s; notes := notes s |}.

Definition with_prizes_file (f : option (gmap string string)) (s : Shelf) : Shelf :=
  {| cog := cog s; prize_lists := prize_lists s; prizes_file := f;
     lists_file := lists_file s; list_files := list_files s;
     answers := answers s; notes := notes s |}.

Definition with_lists_file (f : option (gmap string list_data)) (s : Shelf) : Shelf :=
  {| cog := cog s; prize_lists := prize_lists s; prizes_file := prizes_file s;
     lists_file := f; list_files := list_files s;
     answers := answers s; notes := notes s |}.

Definition with_list_files (m : gmap string string) (s : Shelf) : Shelf :=
  {| cog := cog s; prize_lists := prize_lists s; prizes_file := prizes_file s;
     lists_file := lists_file s; list_files := m;
     answers := answers s; notes := notes s |}.

Definition say (a : answer) (s : Shelf) : Shelf :=
  {| cog := cog s; prize_lists := prize_lists s; prizes_file := prizes_file s;
     lists_file := lists_file s; list_files := list_files s;
     answers := answers s ++ [a]; notes := notes s |}.

Definition noted (n : note) (s : Shelf) : Shelf :=
  {| cog := cog s; prize_lists := prize_lists s; prizes_file := prizes_file s;
     lists_file := lists_file s; list_files := list_files s;
     answers := answers s; notes := notes s ++ [n] |}.

(** [self.prizes = ...] *)
Definition with_prizes (p : gmap string string) (c : Cog) : Cog :=
  {| giveaways := giveaways c; prizes := p; gifs := gifs c;
     debug_mode := debug_mode c; active_giveaways := active_giveaways c;
     tasks := tasks c; giveaways_file := giveaways_file c; sent := sent c;
     log := log c |}.

(** What one call of a command meets outside, beside the [World] of the
    engine. *)
Record Desk := {
  world : World;
  prizes_write_ok : bool;       (* does writing [prizes.json] succeed *)
  lists_write_ok : bool;        (* does writing [prize_lists.json] succeed *)
  list_file_write_ok : bool;    (* does writing the text file succeed *)
  list_file_read_ok : bool;     (* does reading the text file succeed *)
  list_file_remove_ok : bool;   (* does [os.remove] succeed *)
  upload : option (option string);
    (* [wait_for] and the reading of the attachment: [None] is the timeout,
       [Some None] an exception of [read] or [decode] *)
  fetch_user : Z → option string;   (* the name, when the user is found *)
}.

(** *** [utils/database.py]: the files of the catalogue and of the lists *)

Definition save_prizes (d : Desk) (s : Shelf) : Shelf :=
  if prizes_write_ok d then with_prizes_file (Some (prizes (cog s))) s
  else noted ErrorSavingPrizes s.

Definition load_prizes (file : option (gmap string string)) : gmap string string :=
  default ∅ file.

Definition save_prize_lists (d : Desk) (s : Shelf) : Shelf :=
  if lists_write_ok d then with_lists_file (Some (prize_lists s)) s
  else noted ErrorSavingLists s.

Definition load_prize_lists (file : option (gmap string list_data))
  : gmap string list_data :=
  default ∅ file.

Definition list_file_path (list_id : string) : string :=
  "data/prize_lists/" +:+ list_id +:+ ".txt".

(** The path written, or [None]. The text is written as it is (the line
    separator of the system is [\n]). *)
Definition save_prize_list_file (d : Desk) (list_id prize_data : string)
    (s : Shelf) : option string * Shelf :=
  if list_file_write_ok d
  then (Some (list_file_path list_id),
        with_list_files (<[list_id := prize_data]> (list_files s)) s)
  else (None, noted ErrorSavingListFile s).

Definition load_prize_list_file (d : Desk) (list_id : string) (s : Shelf)
  : option string * Shelf :=
  match list_files s !! list_id with
  | Some text =>
      if list_file_read_ok d then (Some (universal_newlines text), s)
      else (None, noted ErrorLoadingListFile s)
  | None => (None, noted ErrorListFileMissing s)
  end.

(** *** The commands *)

(** [is_admin] on the cog of the shelf. *)
Definition check_admin (i : Interaction) (s : Shelf) : bool * Shelf :=
  let '(ok, c) := is_admin i (cog s) in (ok, with_cog c s).

(** [/addprize] *)
Definition add_prize (d : Desk) (i : Interaction) (prize_id prize_name : string)
    (s : Shelf) : Shelf :=
  let '(ok, s) := check_admin i s in
  if negb ok then s
  else if bool_decide (is_Some (prizes (cog s) !! prize_id))
  then say PrizeIdTaken s
  else
    let s := with_cog (with_prizes (<[prize_id := prize_name]> (prizes (cog s)))
                                   (cog s)) s in
    let s := save_prizes d s in
    noted (InfoPrizeAdded prize_id prize_name) (say (PrizeAdded prize_name) s).

(** [/removeprize] *)
Definition remove_prize (d : Desk) (i : Interaction) (prize_id : string)
    (s : Shelf) : Shelf :=
  let '(ok, s) := check_admin i s in
  if negb ok then s
  else
    match prizes (cog s) !! prize_id with
    | None => say PrizeNotFound s
    | Some prize_name =>
        let s := with_cog (with_prizes (delete prize_id (prizes (cog s))) (cog s)) s in
        let s := save_prizes d s in
        noted (InfoPrizeRemoved prize_id prize_name) (say (PrizeRemoved prize_name) s)
    end.

(** The fields of an embed that shows [l] by chunks of [size]. *)
Definition fields_of {A} (size : nat) (l : list A) : list (embed_field A) :=
  (λ i, let chunk_ := slice i (i + size) l in
        {| from_index := (i + 1)%nat; to_index := (i + length chunk_)%nat;
           chunk := chunk_ |})
    <$> range_step (length l) size.

(** [/participants] *)
Definition view_participants (d : Desk) (i : Interaction) (giveaway_id : string)
    (s : Shelf) : Shelf :=
  let '(ok, s) := check_admin i s in
  if negb ok then s
  else
    match giveaways (cog s) !! giveaway_id with
    | None => say NoSuchGiveaway s
    | Some giveaway =>
        match participants giveaway with
        | [] => say NoParticipantsYet s
        | _ =>
            let participant_list :=
              (λ user_id,
                 match Py.int user_id with
                 | Some user =>
                     match fetch_user d user with
                     | Some user_name => KnownUser user_name user
                     | None => UnknownUser user_id
                     end
                 | None => UnknownUser user_id
                 end) <$> participants giveaway in
            say (ParticipantsView (title giveaway) (length (participants giveaway))
                                  (fields_of 25 participant_list) giveaway_id) s
        end
    end.

(** [/createprizelist] *)
Definition create_prize_list (d : Desk) (i : Interaction)
    (list_id list_name : string) (s : Shelf) : Shelf :=
  let '(ok, s) := check_admin i s in
  if negb ok then s
  else if bool_decide (is_Some (prize_lists s !! list_id))
  then say ListIdTaken s
  else
    let s := say AskForFile s in
    match upload d with
    | None => say TimedOut s
    | Some None => say CreateError (noted ErrorCreatingList s)
    | Some (Some content_text) =>
        let st := scan content_text in
        if bool_decide (scan_prizes st = []) then say NoValidEntries s
        else
          match save_prize_list_file d list_id content_text s with
          | (None, s) => say FileSaveError s
          | (Some file_path, s) =>
              let entry :=
                {| name := list_name; path := file_path;
                   created_by := Py.str (user_id i);
                   created_at := now (world d);
                   prize_count := length (scan_prizes st) |} in
              let s := with_prize_lists (<[list_id := entry]> (prize_lists s)) s in
              let s := save_prize_lists d s in
              let s :=
                say (ListCreated list_name list_id (length (scan_prizes st))
                       (take 10 (valid_lines st))
                       (if (10 <? length (valid_lines st))%nat
                        then Some (length (valid_lines st) - 10)%nat else None)
                       (take 5 (invalid_lines st))
                       (if (5 <? length (invalid_lines st))%nat
                        then Some (length (invalid_lines st) - 5)%nat else None))
                    s in
              noted (InfoListCreated list_id (length (scan_prizes st))) s
          end
    end.

(** [/viewprizelist] *)
Definition view_prize_list (d : Desk) (i : Interaction) (list_id : string)
    (s : Shelf) : Shelf :=
  let '(ok, s) := check_admin i s in
  if negb ok then s
  else
    match prize_lists s !! list_id with
    | None => say ListNotFound s
    | Some list_data =>
        match load_prize_list_file d list_id s with
        | (None, s) => say ListUnreadable s
        | (Some content, s) =>
            let prizes := read_prizes content in
            say (ListView (name list_data) list_id (length prizes)
                          (fields_of 15 prizes) (50 <? length prizes)%nat) s
        end
    end.

(** [/removeprizelist] *)
Definition remove_prize_list (d : Desk) (i : Interaction) (list_id : string)
    (s : Shelf) : Shelf :=
  let '(ok, s) := check_admin i s in
  if negb ok then s
  else
    match prize_lists s !! list_id with
    | None => say ListNotFound s
    | Some list_data =>
        let list_name := name list_data in
        let s := with_prize_lists (delete list_id (prize_lists s)) s in
        let s := save_prize_lists d s in
        let s :=
          match list_files s !! list_id with
          | Some _ =>
              if list_file_remove_ok d
              then with_list_files (delete list_id (list_files s)) s
              else noted ErrorDeletingListFile s
          | None => s
          end in
        noted (InfoListRemoved list_id) (say (ListRemoved list_name) s)
    end.

Definition set_prize_list (p : gmap string string) (list_id : string)
    (g : Giveaway) : Giveaway :=
  {| title := title g; description := description g; creator_id := creator_id g;
     channel_id := channel_id g; message_id := message_id g; guild_id := guild_id g;
     end_time := end_time g; participants := participants g; ended := ended g;
     assigned_prizes := Some p; prize_list_id := Some list_id;
     celebration_gif := celebration_gif g |}.

(** [/assignprizelist] *)
Definition assign_prize_list (d : Desk) (i : Interaction)
    (giveaway_id list_id : string) (s : Shelf) : Shelf :=
  let '(ok, s) := check_admin i s in
  if negb ok then s
  else
    match giveaways (cog s) !! giveaway_id with
    | None => say NoSuchGiveaway s
    | Some giveaway =>
        match prize_lists s !! list_id with
        | None => say ListNotFound s
        | Some list_data =>
            if ended giveaway then say CannotAssignListToEnded s
            else
              match load_prize_list_file d list_id s with
              | (None, s) => say ListUnreadable s
              | (Some content, s) =>
                  let prizes := read_prizes content in
                  if bool_decide (prizes = []) then say ListHasNoPrize s
                  else
                    let giveaway :=
                      set_prize_list (list_to_map prizes) list_id giveaway in
                    let s :=
                      with_cog (save_giveaways (world d)
                                  (update_giveaway giveaway_id giveaway (cog s))) s in
                    noted (InfoListAssigned list_id giveaway_id)
                          (say (ListAssigned (title giveaway) (name list_data)
                                             (length prizes)) s)
              end
        end
    end.

End Catalog.

(** ** Notions used to state the properties of the catalogue and the lists *)

Module CatalogSpec.
Import Engine Catalog.

(** An entry of a prize list as the parser accepts it: an id and a name
    that are not empty and carry no white space around them, an id
    without colon that does not look like a comment. *)
Definition well_formed (entry : string * string) : Prop :=
  entry.1 ≠ "" ∧ entry.2 ≠ ""
  ∧ Py.strip entry.1 = entry.1 ∧ Py.strip entry.2 = entry.2
  ∧ Py.contains ":" entry.1 = false ∧ startswith "#" entry.1 = false.

(** A line that is neither blank nor a comment. *)
Definition is_content (line : string) : bool :=
  nonempty (Py.strip line) && negb (startswith "#" (Py.strip line)).

(** Every carriage return of the text is followed by a line feed. *)
Fixpoint crlf_only (text : string) : bool :=
  match text with
  | EmptyString => true
  | String c text' =>
      (if Ascii.eqb c CR then startswith LF text' else true) && crlf_only text'
  end.

(** The same line, with or without a carriage return at its end. *)
Definition same_line (line line' : string) : Prop :=
  line = line' ∨ line = line' +:+ String CR EmptyString.

(** A command leaves the engine alone: between the cog before and the cog
    after, the giveaways, their file, the timers and the tasks are the
    same, and nothing was posted in a channel. *)
Definition engine_kept (c c' : Cog) : Prop :=
  giveaways c' = giveaways c ∧ giveaways_file c' = giveaways_file c
  ∧ active_giveaways c' = active_giveaways c ∧ tasks c' = tasks c
  ∧ gifs c' = gifs c ∧ debug_mode c' = debug_mode c
  ∧ ∃ new, sent c' = sent c ++ new
           ∧ Forall (λ e, EngineInv.is_post e = false) new.

End CatalogSpec.

(** ** Runs of the cog *)

Module Runs.
Import Engine EngineSpec EngineInv Catalog.

(** One step of a run of the whole cog in which nothing overlaps: a step
    of the engine or a command of the catalogue, of the lists or of the
    views, carried to its end before the next one begins. *)
Inductive step (s : Shelf) : Shelf → Prop :=
| step_engine c' :
    EngineInv.step (cog s) c' → step s (with_cog c' s)
| step_add_prize d i prize_id prize_name :
    step s (add_prize d i prize_id prize_name s)
| step_remove_prize d i prize_id :
    step s (remove_prize d i prize_id s)
| step_view_participants d i giveaway_id :
    step s (view_participants d i giveaway_id s)
| step_create_prize_list d i list_id list_name :
    step s (create_prize_list d i list_id list_name s)
| step_view_prize_list d i list_id :
    step s (view_prize_list d i list_id s)
| step_remove_prize_list d i list_id :
    step s (remove_prize_list d i list_id s)
| step_assign_prize_list d i giveaway_id list_id :
    step s (assign_prize_list d i giveaway_id list_id s).

(** The state start-up leaves behind: every pending task works on a known,
    open giveaway, a pending timer is the one the table has for its
    giveaway, no two pending tasks work on the same giveaway, and every
    giveaway has had at most one winner announced and is ended if it has
    had one. The [end_giveaway] task created for an overdue giveaway is in
    no table. *)
Record starting (c : Cog) : Prop := {
  pending_open :
    ∀ h t, tasks c !! h = Some t → status t = Pending →
           ∃ g, giveaways c !! target (coro t) = Some g ∧ ended g = false;
  pending_timer :
    ∀ h giveaway_id seconds,
      tasks c !! h = Some {| coro := ScheduleGiveawayEnd giveaway_id seconds;
                             status := Pending |} →
      active_giveaways c !! giveaway_id = Some h;
  pending_alone :
    ∀ h h' t t', tasks c !! h = Some t → tasks c !! h' = Some t' →
                 status t = Pending → status t' = Pending →
                 target (coro t) = target (coro t') → h = h';
  starting_winner_once :
    ∀ id, (winners_for id (sent c) ≤ 1)%nat
          ∧ ((1 ≤ winners_for id (sent c))%nat →
             ∃ g, giveaways c !! id = Some g ∧ ended g = true);
}.

(** A task that start-up created for an overdue giveaway and that has not
    had its turn. *)
Definition missed_end (t : Task) : bool :=
  match coro t, status t with
  | EndGiveaway _, Pending => true
  | _, _ => false
  end.

(** The resolutions missed during downtime get their turn: the
    [end_giveaway] tasks of start-up run, in the order of their creation,
    the task of handle [h] in the world [ws h]. They are on the queue of
    the event loop before it handles any command. *)
Definition settle_one (ws : nat → World) (c : Cog) (h : nat) : Cog :=
  match tasks c !! h with
  | Some t => if missed_end t then run_task (ws h) h c else c
  | None => c
  end.

Definition settle (ws : nat → World) (c : Cog) : Cog :=
  foldl (settle_one ws) c (seq 0 (length (tasks c))).

End Runs.

(** ** A small shelf, to run the commands on *)

Module CatalogScenario.
Import Engine Catalog.

(** The cog of the scenario with an empty table of lists. *)
Definition shelf : Shelf :=
  {| cog := Scenario.cog; prize_lists := ∅;
     prizes_file := Some {["1" := "Sword"]}; lists_file := None;
     list_files := ∅; answers := []; notes := [] |}.

(** The text of an upload: a comment, two entries, a line without colon,
    and the first id again; the first line ends the way Windows ends
    lines. *)
Definition upload_text : string :=
  "# spring" +:+ String CR (String LF ("1: Sword" +:+ String LF ("2 :Shield"
  +:+ String LF ("oops" +:+ String LF "1:Bow")))).

(** A desk where everything works and that text is uploaded. *)
Definition desk : Desk :=
  {| world := Scenario.world; prizes_write_ok := true; lists_write_ok := true;
     list_file_write_ok := true; list_file_read_ok := true;
     list_file_remove_ok := true; upload := Some (Some upload_text);
     fetch_user := λ u, if u =? 42 then Some "ann" else None |}.

End CatalogScenario.

(** ** The start of the process: [run_bot_with_retry] of [main.py] *)

Module Main.
Import QArith Qminmax.
Local Open Scope Q_scope.

Definition MAX_RETRIES : nat := 10.
Definition INITIAL_RETRY_INTERVAL : Q := 5.
Definition MAX_RETRY_INTERVAL : Q := 900.
Definition BACKOFF_MULTIPLIER : Q := 3 # 2.

(** How one call of [bot.start(token)] ends. The HTTP errors are told
    apart as the handler does: status 429 with the [retry_after] of the
    exception when it has one, at the time [current_time]; status 400
    about invalid JSON; status 500, 502, 503 or 504; any other status. *)
Inductive attempt :=
| ExitedNormally
| RateLimited (retry_after : option Q) (current_time : Q)
| InvalidJson
| ServerError
| OtherHttpError
| LoginFailure
| GatewayNotFound
| ConnectionClosed
| ConnectionReset
| TimedOut
| Unexpected.

(** What the loop does that can be seen from outside. *)
Inductive trace_event :=
| Start (attempt_number total_attempts : nat)
| RateLimitWait (seconds : Q)   (* the warning, then [asyncio.sleep] *)
| RetryIn (seconds : Q)         (* "Retrying in ...", then [asyncio.sleep] *)
| Failed.                       (* "Failed to start bot after ... attempts" *)

(** How the function is left: it returns, or the attempts known so far are
    used up and the loop is still running. *)
Inductive ending := Returned | StillRunning.

Record loop_state := {
  retry_count : nat;
  retry_interval : Q;
  total_retry_attempt : nat;
  rate_limit_reset : Q;
}.

Definition initial : loop_state :=
  {| retry_count := 0; retry_interval := INITIAL_RETRY_INTERVAL;
     total_retry_attempt := 0; rate_limit_reset := 0 |}.

(** The handlers of the failures that are counted: the new
    [retry_interval]. *)
Definition handle (a : attempt) (retry_interval : Q) : Q :=
  match a with
  | InvalidJson => Qmin (retry_interval * 3) MAX_RETRY_INTERVAL
  | GatewayNotFound => Qmin (retry_interval * 2) MAX_RETRY_INTERVAL
  | ConnectionClosed => Qmin (retry_interval * (3 # 2)) MAX_RETRY_INTERVAL
  | _ => retry_interval
  end.

(** The loop, one attempt per turn, on the attempts the outside gives. *)
Fixpoint loop (attempts : list attempt) (st : loop_state)
  : list trace_event * ending :=
  if negb (retry_count st <? MAX_RETRIES)%nat then ([], Returned)
  else
    match attempts with
    | [] => ([], StillRunning)
    | a :: attempts' =>
        let started := Start (retry_count st + 1) (total_retry_attempt st + 1) in
        let total := (total_retry_attempt st + 1)%nat in
        match a with
        | ExitedNormally => ([started], Returned)
        | LoginFailure => ([started], Returned)
        | RateLimited retry_after current_time =>
            let retry_after := default (retry_interval st) retry_after in
            let retry_after :=
              if Qlt_le_dec current_time (rate_limit_reset st)
              then Qmax retry_after (rate_limit_reset st - current_time)
              else retry_after in
            let st' :=
              {| retry_count := retry_count st;
                 retry_interval :=
                   Qmin (retry_interval st * BACKOFF_MULTIPLIER) MAX_RETRY_INTERVAL;
                 total_retry_attempt := total;
                 rate_limit_reset := current_time + retry_after |} in
            let '(events, e) := loop attempts' st' in
            (started :: RateLimitWait retry_after :: events, e)
        | _ =>
            let interval := handle a (retry_interval st) in
            let count := (retry_count st + 1)%nat in
            if (count <? MAX_RETRIES)%nat then
              let st' :=
                {| retry_count := count;
                   retry_interval := Qmin (interval * 2) MAX_RETRY_INTERVAL;
                   total_retry_attempt := total;
                   rate_limit_reset := rate_limit_reset st |} in
              let '(events, e) := loop attempts' st' in
              (started :: RetryIn interval :: events, e)
            else
              let st' :=
                {| retry_count := count; retry_interval := interval;
                   total_retry_attempt := total;
                   rate_limit_reset := rate_limit_reset st |} in
              let '(events, e) := loop attempts' st' in
              (started :: Failed :: events, e)
        end
    end.

Definition run_bot_with_retry (attempts : list attempt)
  : list trace_event * ending :=
  loop attempts initial.

End Main.

(** ** The guilds of the bot: [on_ready] and [on_guild_join] of [bot.py] *)

Module Bot.

Definition ALLOWED_GUILD_IDS : list Z := [714813888226525226; 1093641722589876336].

(** A guild as these handlers see it: its id, and whether it has a system
    channel where the bot may write. *)
Record Guild := {
  id_ : Z;
  can_write_system_channel : bool;
}.

(** What the handlers ask of the chat platform. *)
Inductive request :=
| ChangePresence
| Leave (guild : Z)
| SendWelcome (guild : Z)
| SendUnavailable (guild : Z).

Inductive bot_log :=
| InfoAuthorized (guild : Z)
| WarnUnauthorizedLeaving (guild : Z)
| InfoLeft (guild : Z)
| ErrorLeaving (guild : Z)
| WarnUnauthorizedDebug (guild : Z)
| InfoAdded (guild : Z)
| ErrorWelcome
| ErrorUnavailable
| Summary (debug_mode : bool) (allowed_count unauthorized_count : nat).

(** The outside: does a request succeed. *)
Record Platform := {
  leave_ok : Z → bool;
  send_ok : Z → bool;
}.

Record Session := {
  requests : list request;
  lines : list bot_log;
  allowed_count : nat;
  unauthorized_count : nat;
}.

Definition ask (r : request) (s : Session) : Session :=
  {| requests := requests s ++ [r]; lines := lines s;
     allowed_count := allowed_count s; unauthorized_count := unauthorized_count s |}.

Definition write (l : bot_log) (s : Session) : Session :=
  {| requests := requests s; lines := lines s ++ [l];
     allowed_count := allowed_count s; unauthorized_count := unauthorized_count s |}.

(** [guild.leave()] inside its [try]. *)
Definition leave (p : Platform) (guild : Z) (s : Session) : Session :=
  let s := ask (Leave guild) s in
  if leave_ok p guild then write (InfoLeft guild) s
  else write (ErrorLeaving guild) s.

(** One turn of the loop of [on_ready]. *)
Definition check_guild (debug_mode : bool) (p : Platform) (s : Session)
    (guild : Guild) : Session :=
  if bool_decide (id_ guild ∈ ALLOWED_GUILD_IDS) then
    write (InfoAuthorized (id_ guild))
      {| requests := requests s; lines := lines s;
         allowed_count := allowed_count s + 1;
         unauthorized_count := unauthorized_count s |}
  else
    let s := {| requests := requests s; lines := lines s;
                allowed_count := allowed_count s;
                unauthorized_count := unauthorized_count s + 1 |} in
    if negb debug_mode then
      leave p (id_ guild) (write (WarnUnauthorizedLeaving (id_ guild)) s)
    else write (WarnUnauthorizedDebug (id_ guild)) s.

Definition on_ready (debug_mode : bool) (p : Platform) (guilds : list Guild)
  : Session :=
  let s := {| requests := [ChangePresence]; lines := [];
              allowed_count := 0; unauthorized_count := 0 |} in
  let s := foldl (check_guild debug_mode p) s guilds in
  write (Summary debug_mode (allowed_count s) (unauthorized_count s)) s.

Definition on_guild_join (debug_mode : bool) (p : Platform) (guild : Guild)
  : Session :=
  let s := {| requests := []; lines := []; allowed_count := 0;
              unauthorized_count := 0 |} in
  if bool_decide (id_ guild ∈ ALLOWED_GUILD_IDS) then
    let s := write (InfoAdded (id_ guild)) s in
    if can_write_system_channel guild then
      let s := ask (SendWelcome (id_ guild)) s in
      if send_ok p (id_ guild) then s else write ErrorWelcome s
    else s
  else if negb debug_mode then
    let s := write (WarnUnauthorizedLeaving (id_ guild)) s in
    let s :=
      if can_write_system_channel guild then
        let s := ask (SendUnavailable (id_ guild)) s in
        if send_ok p (id_ guild) then s else write ErrorUnavailable s
      else s in
    leave p (id_ guild) s
  else write (WarnUnauthorizedDebug (id_ guild)) s.

End Bot.

(** ** Notions used to state the properties of the start and of the guilds *)

Module MainSpec.
Import QArith Main.

(** A failure that uses up one of the retries. *)
Definition counted (a : attempt) : bool :=
  match a with
  | ExitedNormally | LoginFailure | RateLimited _ _ => false
  | _ => true
  end.

Definition is_rate_limited (a : attempt) : bool :=
  match a with
  | RateLimited _ _ => true
  | _ => false
  end.

Definition is_start (e : trace_event) : bool :=
  match e with
  | Start _ _ => true
  | _ => false
  end.

(** The pauses announced with "Retrying in". *)
Definition retry_pauses (l : list trace_event) : list Q :=
  omap (λ e, match e with RetryIn s => Some s | _ => None end) l.

End MainSpec.

Module BotSpec.
Import Bot.

Definition asked_to_leave (s : Session) (guild : Z) : bool :=
  existsb (λ r, match r with Leave g => g =? guild | _ => false end) (requests s).

Definition was_sent (r : request) (s : Session) : bool :=
  existsb (λ r', match r, r' with
                 | SendWelcome g, SendWelcome g' => g =? g'
                 | SendUnavailable g, SendUnavailable g' => g =? g'
                 | _, _ => false
                 end) (requests s).

End BotSpec.

(** * Properties *)

(** ** Examples run on the definitions *)

Example split_ex : Py.split "," "1,5-6" = ["1"; "5-6"].
Proof. reflexivity. Qed.

Example strip_ex : Py.strip "  5 - 6 " = "5 - 6" ∧ Py.strip "   " = ""
                   ∧ Py.split "-" "5 - 6" = ["5 "; " 6"]
                   ∧ Py.split "-" "-5" = [""; "5"].
Proof. repeat split; reflexivity. Qed.

Example int_ex : Py.int " +1_0 " = Some 10 ∧ Py.int "1__0" = None
                 ∧ Py.int "" = None ∧ Py.int "-5" = Some (-5).
Proof. repeat split; reflexivity. Qed.

Example str_ex : Py.str 15 = "15" ∧ Py.str 0 = "0" ∧ Py.str (-3) = "-3".
Proof. repeat split; reflexivity. Qed.

Example datetime_ex :
  Datetime.datetime 1970 1 1 0 0 = Ok 0
  ∧ Datetime.datetime 2025 12 25 18 30 = Ok (1766687400 * 1000000)
  ∧ Datetime.datetime 2025 2 29 0 0 = Err ValueError
  ∧ Datetime.datetime 1 1 1 0 0 = Ok Datetime.min_instant
  ∧ Datetime.datetime 9999 12 31 23 59 = Ok (Datetime.max_instant - 59999999)
  ∧ Datetime.timestamp_str 1700000000500000 = "1700000000.5"
  ∧ Datetime.timestamp_str 1700000000000000 = "1700000000.0"
  ∧ Datetime.timestamp_str 1700000000123456 = "1700000000.123456".
Proof. repeat split; vm_compute; reflexivity. Qed.

Example parse_spaces_ex :
  Resolver.parse_prize_ids " 1 , 5 - 6 ,x-y,7-" (<["1" := "A"]> (<["5" := "E"]> ∅))
  = Done (<["1" := "A"]> (<["5" := "E"]> ∅), ["6"; "x-y"; "7-"]).
Proof. vm_compute. reflexivity. Qed.

(** ** The prize resolver *)

Module ResolverFacts.
Import Resolver ResolverSpec.

Lemma split_without_separator (sep : ascii) (s : string) :
  Py.contains sep s = false → Py.split sep s = [s].
Proof.
  induction s as [|c s IH]; simpl; [done|].
  destruct (Ascii.eqb c sep); simpl; [done|].
  intros H. by rewrite IH.
Qed.

Lemma for_each_app {A S} (body : S → A → outcome S) (l1 l2 : list A) (s : S) :
  for_each body (l1 ++ l2) s = bind_outcome (for_each body l1 s) (for_each body l2).
Proof.
  revert s. induction l1 as [|x l1 IH]; intros s; simpl; [done|].
  destruct (body s x); simpl; [apply IH | done].
Qed.

Lemma for_each_fmap {A B S} (body : S → B → outcome S) (f : A → B)
    (l : list A) (s : S) :
  for_each (λ s x, body s (f x)) l s = for_each body (f <$> l) s.
Proof.
  revert s. induction l as [|x l IH]; intros s; simpl; [done|].
  destruct (body s (f x)); simpl; [apply IH | done].
Qed.

(** The subscript is guarded by the membership test: no [KeyError]. *)
Lemma lookup_id_done (prizes : gmap string string) (a : acc) (id : string) :
  lookup_id prizes a id = Done (classify prizes a id).
Proof.
  unfold lookup_id, classify.
  destruct (prizes !! id) as [name|] eqn:E; case_decide as H; try done.
  by destruct H.
Qed.

Lemma for_each_lookup_id (prizes : gmap string string) (ids : list string) (a : acc) :
  for_each (lookup_id prizes) ids a = Done (foldl (classify prizes) a ids).
Proof.
  revert a. induction ids as [|id ids IH]; intros a; simpl; [done|].
  rewrite lookup_id_done. simpl. apply IH.
Qed.

(** One token: the code looks up exactly the ids the token asks for. *)
Lemma process_part_requested (prizes : gmap string string) (a : acc) (part : string) :
  process_part prizes a part = Done (foldl (classify prizes) a (requested part)).
Proof.
  unfold process_part, requested, range_bounds.
  destruct (Py.contains "-" part) eqn:Hdash.
  - unfold try_range.
    destruct (Py.strip <$> Py.split "-" part) as [|s [|e [|? ?]]];
      simpl; try (by rewrite lookup_id_done).
    destruct (Py.int s) as [A|]; simpl; [|by rewrite lookup_id_done].
    destruct (Py.int e) as [B|]; simpl; [|by rewrite lookup_id_done].
    rewrite (for_each_fmap (lookup_id prizes) Py.str), for_each_lookup_id.
    unfold Py.range. by replace (B + 1 - A) with (B - A + 1) by lia.
  - rewrite (split_without_separator _ _ Hdash). simpl.
    by rewrite lookup_id_done.
Qed.

Lemma for_each_process_part (prizes : gmap string string) (parts : list string)
    (a : acc) :
  for_each (process_part prizes) parts a
  = Done (foldl (classify prizes) a (parts ≫= requested)).
Proof.
  revert a. induction parts as [|part parts IH]; intros a; simpl; [done|].
  rewrite process_part_requested. simpl. rewrite IH.
  by rewrite foldl_app.
Qed.

(** What a run of look-ups leaves in the two collections. *)
Lemma foldl_classify (catalog : gmap string string) (ids : list string)
    (a : gmap string string * list string) :
  (∀ id, (foldl (classify catalog) a ids).1 !! id
         = if bool_decide (id ∈ ids)
           then match catalog !! id with Some name => Some name | None => a.1 !! id end
           else a.1 !! id)
  ∧ (foldl (classify catalog) a ids).2
    = a.2 ++ filter (λ id, catalog !! id = None) ids.
Proof.
  revert a. induction ids as [|k ids IH]; intros a; simpl.
  - split; [done|by rewrite app_nil_r].
  - destruct (IH (classify catalog a k)) as [IH1 IH2]. split.
    + intros id. rewrite IH1. unfold classify.
      destruct (decide (id = k)) as [->|Hne].
      * rewrite (bool_decide_eq_true_2 (k ∈ k :: ids)) by apply list_elem_of_here.
        destruct (catalog !! k) as [name|] eqn:E; simpl.
        -- rewrite lookup_insert_eq. by case_bool_decide.
        -- by case_bool_decide.
      * assert (bool_decide (id ∈ k :: ids) = bool_decide (id ∈ ids)) as ->.
        { apply bool_decide_ext. rewrite elem_of_cons. tauto. }
        destruct (catalog !! k) as [name|] eqn:E; simpl; [|done].
        by rewrite lookup_insert_ne.
    + rewrite IH2. unfold classify.
      destruct (catalog !! k) as [name|] eqn:E; simpl.
      * by rewrite filter_cons_False by congruence.
      * rewrite filter_cons_True by done. by rewrite <- app_assoc.
Qed.

Lemma seqZ_ascending (m n : Z) : StronglySorted Z.lt (seqZ m n).
Proof.
  remember (Z.to_nat n) as k eqn:Hk. revert m n Hk.
  induction k as [|k IH]; intros m n Hk.
  - rewrite seqZ_nil by lia. constructor.
  - rewrite seqZ_cons by lia. constructor.
    + apply IH. lia.
    + apply Forall_seqZ. lia.
Qed.

(** C4, as amended. For every specification string and catalog,
    [parse_prize_ids] never raises; its tokens are the comma-separated
    pieces; a token that is a well-formed integer range [A-B] looks up
    every integer of [A..B] by its string form in ascending order, any
    other token (a malformed range included) is looked up as a bare id;
    every id looked up lands in [resolved] when the catalog has it and in
    [unresolved], in the order of the look-ups, when it has not. Every
    token is classified in this way except the ranges whose first bound
    exceeds the second: these, and only these, look nothing up. On
    ["1,5-6"] with the catalog [{1:A, 5:E}] the result is [{1:A, 5:E}] and
    [["6"]]. *)
Theorem parse_prize_ids_classifies (spec : string) (catalog : gmap string string) :
  let ids := tokens spec ≫= requested in
  (∃ resolved unresolved,
      parse_prize_ids spec catalog = Done (resolved, unresolved)
      ∧ (∀ id, resolved !! id
               = if bool_decide (id ∈ ids) then catalog !! id else None)
      ∧ unresolved = filter (λ id, catalog !! id = None) ids)
  ∧ (∀ a token, process_part catalog a token
                = Done (foldl (classify catalog) a (requested token)))
  ∧ (∀ token A B, range_bounds token = Some (A, B) →
        requested token = Py.str <$> seqZ A (B - A + 1)
        ∧ StronglySorted Z.lt (seqZ A (B - A + 1))
        ∧ ∀ i, i ∈ seqZ A (B - A + 1) ↔ A ≤ i ≤ B)
  ∧ (∀ token, range_bounds token = None → requested token = [token])
  ∧ (∀ token, requested token = []
              ↔ ∃ A B, range_bounds token = Some (A, B) ∧ B < A)
  ∧ parse_prize_ids "1,5-6" (<["1" := "A"]> (<["5" := "E"]> ∅))
    = Done (<["1" := "A"]> (<["5" := "E"]> ∅), ["6"]).
Proof.
  intros ids. split; [|split; [|split; [|split; [|split]]]].
  - exists (foldl (classify catalog) (∅, []) ids).1,
           (foldl (classify catalog) (∅, []) ids).2.
    destruct (foldl_classify catalog ids (∅, [])) as [H1 H2].
    split; [|split].
    + unfold parse_prize_ids, parse_parts. rewrite for_each_process_part.
      fold (tokens spec). fold ids. by destruct (foldl _ _ ids).
    + intros id. rewrite H1. simpl. rewrite lookup_empty.
      case_bool_decide; [|done]. by destruct (catalog !! id).
    + by rewrite H2.
  - intros a token. apply process_part_requested.
  - intros token A B H. split; [|split].
    + unfold requested. by rewrite H.
    + apply seqZ_ascending.
    + intros i. rewrite elem_of_seqZ. lia.
  - intros token H. unfold requested. by rewrite H.
  - intros token. unfold requested.
    destruct (range_bounds token) as [[A B]|]; split.
    + intros H. exists A, B. split; [done|].
      apply (f_equal length) in H. rewrite length_fmap, length_seqZ in H.
      simpl in H. lia.
    + intros (A' & B' & [= <- <-] & Hlt). by rewrite seqZ_nil by lia.
    + done.
    + by intros (A & B & ? & _).
  - vm_compute. reflexivity.
Qed.

(** C4, as stated, fails: not every token is classified. In ["1,9-5,zz"]
    the token ["9-5"] is a range with integer bounds; the result has
    nothing of it, neither the token nor a bound nor an integer between
    the bounds, in [resolved] or in [unresolved]. *)
Lemma descending_range_unclassified :
  let catalog : gmap string string := {["1" := "A"]} in
  "9-5" ∈ tokens "1,9-5,zz"
  ∧ range_bounds "9-5" = Some (9, 5)
  ∧ ∃ resolved unresolved,
      parse_prize_ids "1,9-5,zz" catalog = Done (resolved, unresolved)
      ∧ resolved = {["1" := "A"]} ∧ unresolved = ["zz"]
      ∧ ∀ id, id ∈ ["9-5"; "9"; "8"; "7"; "6"; "5"] →
              resolved !! id = None ∧ id ∉ unresolved.
Proof.
  intros catalog. split; [|split].
  - vm_compute. apply list_elem_of_further, list_elem_of_here.
  - vm_compute. reflexivity.
  - eexists _, _. split; [vm_compute; reflexivity|].
    split; [reflexivity|]. split; [reflexivity|].
    intros id Hid. split.
    + repeat (apply elem_of_cons in Hid as [->|Hid]; [reflexivity|]).
      by apply not_elem_of_nil in Hid.
    + intros Hin. apply list_elem_of_singleton in Hin. subst id.
      repeat (apply elem_of_cons in Hid as [Hid|Hid]; [discriminate Hid|]).
      by apply not_elem_of_nil in Hid.
Qed.

(** C10. A range token [A-B] whose two bounds are integers with [A]
    strictly greater than [B] adds nothing to [resolved] and nothing to
    [unresolved]: the token leaves the two collections as they were, and
    the result of the whole list of tokens is the one without it. *)
Theorem descending_range_dropped (catalog : gmap string string) (a : acc)
    (token start end_ : string) (A B : Z) :
  Py.split "-" token = [start; end_] →
  Py.int (Py.strip start) = Some A →
  Py.int (Py.strip end_) = Some B →
  B < A →
  process_part catalog a token = Done a
  ∧ ∀ before after,
      parse_parts catalog (before ++ token :: after)
      = parse_parts catalog (before ++ after).
Proof.
  intros Hsplit HA HB Hlt.
  assert (process_part catalog a token = Done a
          ∧ ∀ a', process_part catalog a' token = Done a') as [H1 H2].
  { assert (∀ a', process_part catalog a' token = Done a') as H; [|by split].
    intros a'. unfold process_part.
    destruct (Py.contains "-" token) eqn:Hdash.
    - unfold try_range. rewrite Hsplit. simpl. rewrite HA, HB.
      unfold Py.range. by rewrite seqZ_nil by lia.
    - rewrite (split_without_separator _ _ Hdash) in Hsplit. discriminate. }
  split; [done|]. intros before after. unfold parse_parts.
  rewrite !for_each_app. destruct (for_each _ before _) as [a'|]; simpl; [|done].
  by rewrite H2.
Qed.

Lemma descending_range_dropped_witness :
  Resolver.process_part (<["1" := "A"]> ∅) (∅, ["9"]) "3 - 1" = Done (∅, ["9"])
  ∧ ∀ before after,
      Resolver.parse_parts (<["1" := "A"]> ∅) (before ++ "3 - 1" :: after)
      = Resolver.parse_parts (<["1" := "A"]> ∅) (before ++ after).
Proof.
  apply (descending_range_dropped (<["1" := "A"]> ∅) (∅, ["9"]) "3 - 1" "3 " " 1" 3 1);
    [reflexivity | reflexivity | reflexivity | lia].
Defined.

End ResolverFacts.

(** ** The giveaway engine *)

Module EngineFacts.
Import Engine EngineSpec.

(** *** What the small steps leave alone *)

Lemma save_giveaways_keeps (w : World) (c : Cog) :
  giveaways (save_giveaways w c) = giveaways c
  ∧ prizes (save_giveaways w c) = prizes c
  ∧ gifs (save_giveaways w c) = gifs c
  ∧ debug_mode (save_giveaways w c) = debug_mode c
  ∧ active_giveaways (save_giveaways w c) = active_giveaways c
  ∧ tasks (save_giveaways w c) = tasks c
  ∧ sent (save_giveaways w c) = sent c.
Proof. unfold save_giveaways. by destruct (disk_ok w), (write_truncates w). Qed.

Lemma giveaways_save (w : World) (c : Cog) :
  giveaways (save_giveaways w c) = giveaways c.
Proof. apply save_giveaways_keeps. Qed.

Lemma debug_mode_save (w : World) (c : Cog) :
  debug_mode (save_giveaways w c) = debug_mode c.
Proof. apply save_giveaways_keeps. Qed.

Lemma active_save (w : World) (c : Cog) :
  active_giveaways (save_giveaways w c) = active_giveaways c.
Proof. apply save_giveaways_keeps. Qed.

Lemma tasks_save (w : World) (c : Cog) :
  tasks (save_giveaways w c) = tasks c.
Proof. apply save_giveaways_keeps. Qed.

Lemma sent_save (w : World) (c : Cog) :
  sent (save_giveaways w c) = sent c.
Proof. apply save_giveaways_keeps. Qed.

Lemma prizes_save (w : World) (c : Cog) :
  prizes (save_giveaways w c) = prizes c.
Proof. apply save_giveaways_keeps. Qed.

Lemma gifs_save (w : World) (c : Cog) :
  gifs (save_giveaways w c) = gifs c.
Proof. apply save_giveaways_keeps. Qed.

Lemma button_guild_check (i : Interaction) (c : Cog) :
  (if debug_mode c then (true, c) else is_allowed_guild i c)
  = if guild_allowed i c then (true, c)
    else (false, emit (Reply GuildNotAllowed) c).
Proof.
  unfold guild_allowed, is_allowed_guild.
  destruct (debug_mode c); simpl; [done|]. by case_bool_decide.
Qed.

(** *** Participation *)

(** The giveaways after a press of the button. *)
Lemma add_participant_giveaways (w : World) (i : Interaction)
    (giveaway_id : string) (c : Cog) :
  giveaways (add_participant w i giveaway_id c)
  = match giveaways c !! giveaway_id with
    | Some g =>
        if guild_allowed i c && negb (ended g)
           && negb (bool_decide (Py.str (user_id i) ∈ participants g))
        then <[giveaway_id :=
                 set_participants (participants g ++ [Py.str (user_id i)]) g]>
               (giveaways c)
        else giveaways c
    | None => giveaways c
    end.
Proof.
  unfold add_participant. rewrite button_guild_check.
  destruct (guild_allowed i c); simpl.
  - destruct (giveaways c !! giveaway_id) as [g|]; [|done].
    destruct (ended g); simpl; [done|].
    case_bool_decide; simpl; [done|]. by rewrite giveaways_save.
  - by destruct (giveaways c !! giveaway_id).
Qed.

Lemma add_participant_debug_mode (w : World) (i : Interaction)
    (giveaway_id : string) (c : Cog) :
  debug_mode (add_participant w i giveaway_id c) = debug_mode c.
Proof.
  unfold add_participant. rewrite button_guild_check.
  destruct (guild_allowed i c); simpl; [|done].
  destruct (giveaways c !! giveaway_id) as [g|]; [|done].
  destruct (ended g); simpl; [done|].
  case_bool_decide; simpl; [done|]. by rewrite debug_mode_save.
Qed.

(** C9. [add_participant] is idempotent. A join by a user id already in
    the participants of the giveaway leaves the giveaways as they are and,
    on an open giveaway of an allowed guild, is answered "already joined";
    a second join of the same user leaves the giveaways as the first one
    left them; and a list of participants without duplicates stays without
    duplicates. *)
Theorem add_participant_idempotent (w w' : World) (i : Interaction)
    (giveaway_id : string) (c : Cog) :
  let user := Py.str (user_id i) in
  (∀ g, giveaways c !! giveaway_id = Some g → user ∈ participants g →
        giveaways (add_participant w i giveaway_id c) = giveaways c
        ∧ (ended g = false → guild_allowed i c = true →
           add_participant w i giveaway_id c = emit (Reply AlreadyJoined) c))
  ∧ giveaways (add_participant w' i giveaway_id (add_participant w i giveaway_id c))
    = giveaways (add_participant w i giveaway_id c)
  ∧ ((∀ id g, giveaways c !! id = Some g → NoDup (participants g)) →
     ∀ id g, giveaways (add_participant w i giveaway_id c) !! id = Some g →
             NoDup (participants g)).
Proof.
  intros user. split; [|split].
  - intros g Hg Hin. split.
    + rewrite add_participant_giveaways, Hg.
      rewrite (bool_decide_eq_true_2 _ Hin). simpl.
      by rewrite andb_false_r.
    + intros Hopen Hguild. unfold add_participant.
      rewrite button_guild_check, Hguild. simpl. rewrite Hg, Hopen.
      fold user. by rewrite (bool_decide_eq_true_2 _ Hin).
  - rewrite (add_participant_giveaways w' i giveaway_id (add_participant _ _ _ _)).
    assert (guild_allowed i (add_participant w i giveaway_id c) = guild_allowed i c)
      as Hsame.
    { unfold guild_allowed. by rewrite add_participant_debug_mode. }
    rewrite Hsame. rewrite (add_participant_giveaways w i giveaway_id c).
    destruct (giveaways c !! giveaway_id) as [g|] eqn:Hg; [|by rewrite Hg].
    destruct (guild_allowed i c); simpl; [|by rewrite Hg].
    destruct (ended g) eqn:Hopen; simpl; [by rewrite Hg, Hopen|].
    case_bool_decide as Hin; simpl.
    + rewrite Hg, Hopen. simpl. by rewrite (bool_decide_eq_true_2 _ Hin).
    + rewrite lookup_insert_eq. simpl. rewrite Hopen. simpl.
      rewrite bool_decide_eq_true_2; [done|].
      apply elem_of_app. right. apply list_elem_of_here.
  - intros Hnodup id g. rewrite add_participant_giveaways.
    destruct (giveaways c !! giveaway_id) as [g0|] eqn:Hg; [|apply Hnodup].
    destruct (guild_allowed i c && negb (ended g0)
              && negb (bool_decide (Py.str (user_id i) ∈ participants g0))) eqn:Hc;
      [|apply Hnodup].
    destruct (decide (giveaway_id = id)) as [<-|Hid];
      [rewrite lookup_insert_eq|rewrite lookup_insert_ne by done; apply Hnodup].
    intros [= <-]. simpl.
    apply andb_true_iff in Hc as [_ Hc]. apply negb_true_iff in Hc.
    apply bool_decide_eq_false in Hc.
    apply NoDup_app. split; [by eapply Hnodup|]. split.
    + intros x Hx Hx'. apply list_elem_of_singleton in Hx'. by subst.
    + apply NoDup_singleton.
Qed.

(** *** Random choices and the choice of the prize *)

Lemma random_choice_elem {A} (r : nat) (seq : list A) (x : A) :
  random_choice r seq = Some x → x ∈ seq.
Proof.
  unfold random_choice. destruct seq as [|y seq]; [done|].
  intros H. by eapply list_elem_of_lookup_2.
Qed.

Lemma random_choice_some {A} (r : nat) (seq : list A) :
  seq ≠ [] → ∃ x, random_choice r seq = Some x.
Proof.
  unfold random_choice. destruct seq as [|y seq]; [done|]. intros _.
  apply lookup_lt_is_Some_2. apply Nat.mod_upper_bound. simpl. lia.
Qed.

Lemma values_nil {V} (d : gmap string V) : values d = [] ↔ d = ∅.
Proof.
  unfold values. split.
  - intros H. apply fmap_nil_inv in H. by apply map_to_list_empty_iff.
  - intros ->. by rewrite map_to_list_empty.
Qed.

Lemma select_prize_ok (w : World) (g : Giveaway) (catalog : gmap string string) :
  ∃ prize, select_prize w g catalog = Ok prize.
Proof.
  unfold select_prize. case_bool_decide as Ha.
  - destruct (random_choice_some (draw w 1) (values (default ∅ (assigned_prizes g))))
      as [p Hp]; [by rewrite values_nil|]. rewrite Hp. eauto.
  - case_bool_decide as Hc; [|eauto].
    destruct (random_choice_some (draw w 1) (values catalog)) as [p Hp];
      [by rewrite values_nil|]. rewrite Hp. eauto.
Qed.

(** The order of precedence: own prizes, global pool, default name. *)
Lemma select_prize_precedence (w : World) (g : Giveaway)
    (catalog : gmap string string) (prize : string) :
  select_prize w g catalog = Ok prize →
  let assigned := default ∅ (assigned_prizes g) in
  (assigned ≠ ∅ →
     prize ∈ values assigned ∧ ∀ other, select_prize w g other = Ok prize)
  ∧ (assigned = ∅ → catalog ≠ ∅ → prize ∈ values catalog)
  ∧ (assigned = ∅ → catalog = ∅ → prize = "Mystery Prize").
Proof.
  intros H assigned. unfold select_prize in H. fold assigned in H.
  case_bool_decide as Ha.
  - destruct (random_choice _ (values assigned)) as [p|] eqn:Hp; [|done].
    injection H as ->. split; [|done].
    intros _. split; [by eapply random_choice_elem|].
    intros other. unfold select_prize. fold assigned.
    rewrite bool_decide_eq_true_2 by done. by rewrite Hp.
  - assert (assigned = ∅) as Hempty by (by destruct (decide (assigned = ∅))).
    split; [done|]. case_bool_decide as Hc.
    + destruct (random_choice _ (values catalog)) as [p|] eqn:Hp; [|done].
      injection H as ->. split; [|done].
      intros _ _. by eapply random_choice_elem.
    + injection H as <-. split; [done|]. done.
Qed.

(** *** Resolution *)

Ltac appended :=
  first [ reflexivity
        | symmetry; apply app_nil_r
        | rewrite <- !app_assoc; reflexivity ].

(** What [announce] sends, whether it finishes or not: at most one
    announcement of a winner, for this giveaway, of one of its
    participants, with the prize that [select_prize] chose. Nothing but
    the events sent changes. *)
Lemma announce_sends (w : World) (giveaway_id : string) (g : Giveaway)
    (channel : Z) (original : option Z) (c : Cog) :
  let c' := final (announce w giveaway_id g channel original c) in
  ∃ new,
    sent c' = sent c ++ new
    ∧ c' = fold_left (λ c e, emit e c) new c
    ∧ (winner_posts new ≤ 1)%nat
    ∧ (participants g = [] → winner_posts new = 0%nat)
    ∧ (∀ ch id winner prize gif,
         Send ch (WinnerPost id winner prize gif) ∈ new →
         ch = channel ∧ id = giveaway_id ∧ winner ∈ participants g
         ∧ select_prize w g (prizes c) = Ok prize)
    ∧ (participants g ≠ [] → send_ok w = true → winner_posts new = 1%nat).
Proof.
  unfold announce, send, edit_message.
  destruct (participants g) as [|p ps] eqn:Hp.
  - repeat case_match; simpl; eexists; (split; [appended|]);
      (split; [done|]); unfold winner_posts; simpl;
      repeat split; try lia; try done; intros; set_solver.
  - destruct (random_choice (draw w 0) (p :: ps)) as [winner|] eqn:Hw; simpl.
    + apply random_choice_elem in Hw.
      destruct (select_prize w g (prizes c)) as [prize|e] eqn:Hs; simpl.
      * repeat case_match; simpl; eexists; (split; [appended|]);
          (split; [done|]); unfold winner_posts; simpl;
          repeat split; try lia; try done; intros; set_solver.
      * exists []. unfold winner_posts. simpl. rewrite app_nil_r.
        repeat split; try lia; try done; intros; try set_solver.
        destruct (select_prize_ok w g (prizes c)) as [? ?]. congruence.
    + destruct (random_choice_some (draw w 0) (p :: ps)) as [? ?]; [done|].
      congruence.
Qed.

Lemma emitted_keeps (new : list event) (c : Cog) :
  let c' := fold_left (λ c e, emit e c) new c in
  giveaways c' = giveaways c ∧ prizes c' = prizes c ∧ gifs c' = gifs c
  ∧ debug_mode c' = debug_mode c ∧ active_giveaways c' = active_giveaways c
  ∧ tasks c' = tasks c ∧ giveaways_file c' = giveaways_file c ∧ log c' = log c.
Proof.
  revert c. induction new as [|e new IH]; intros c; simpl; [done|].
  destruct (IH (emit e c)) as (?&?&?&?&?&?&?&?). by repeat split.
Qed.

Lemma select_prize_set_ended (w : World) (b : bool) (g : Giveaway)
    (catalog : gmap string string) :
  select_prize w (set_ended b g) catalog = select_prize w g catalog.
Proof. reflexivity. Qed.

(** What one run of [end_giveaway] on a known giveaway does: the giveaway
    is marked ended and nothing else of the giveaways changes; at most one
    winner is announced, one of its participants; the handle of its timer
    is either dropped from the table or left in it. *)
Lemma end_giveaway_effect (w : World) (giveaway_id : string) (c : Cog)
    (g : Giveaway) :
  giveaways c !! giveaway_id = Some g →
  let c' := end_giveaway w giveaway_id c in
  giveaways c' = <[giveaway_id := set_ended true g]> (giveaways c)
  ∧ prizes c' = prizes c ∧ gifs c' = gifs c ∧ debug_mode c' = debug_mode c
  ∧ tasks c' = tasks c
  ∧ (active_giveaways c' = active_giveaways c
     ∨ active_giveaways c' = delete giveaway_id (active_giveaways c))
  ∧ ∃ new,
      sent c' = sent c ++ new
      ∧ (winner_posts new ≤ 1)%nat
      ∧ (participants g = [] → winner_posts new = 0%nat)
      ∧ (∀ ch id winner prize gif,
           Send ch (WinnerPost id winner prize gif) ∈ new →
           id = giveaway_id ∧ winner ∈ participants g
           ∧ select_prize w g (prizes c) = Ok prize).
Proof.
  intros Hg. unfold end_giveaway, end_giveaway_body. rewrite Hg.
  set (c0 := save_giveaways w (update_giveaway giveaway_id (set_ended true g) c)).
  destruct (save_giveaways_keeps w
              (update_giveaway giveaway_id (set_ended true g) c))
    as (Hgv & Hpr & Hgf & Hdb & Hac & Hts & Hst).
  fold c0 in Hgv, Hpr, Hgf, Hdb, Hac, Hts, Hst. simpl in *.
  assert (∀ c1 : Cog,
    giveaways c1 = giveaways c0 → prizes c1 = prizes c0 → gifs c1 = gifs c0 →
    debug_mode c1 = debug_mode c0 → tasks c1 = tasks c0 →
    active_giveaways c1 = active_giveaways c0
    ∨ active_giveaways c1 = delete giveaway_id (active_giveaways c0) →
    sent c1 = sent c0 →
    giveaways c1 = <[giveaway_id := set_ended true g]> (giveaways c)
    ∧ prizes c1 = prizes c ∧ gifs c1 = gifs c ∧ debug_mode c1 = debug_mode c
    ∧ tasks c1 = tasks c
    ∧ (active_giveaways c1 = active_giveaways c
       ∨ active_giveaways c1 = delete giveaway_id (active_giveaways c))
    ∧ ∃ new,
        sent c1 = sent c ++ new
        ∧ (winner_posts new ≤ 1)%nat
        ∧ (participants g = [] → winner_posts new = 0%nat)
        ∧ (∀ ch id winner prize gif,
             Send ch (WinnerPost id winner prize gif) ∈ new →
             id = giveaway_id ∧ winner ∈ participants g
             ∧ select_prize w g (prizes c) = Ok prize)) as Hquiet.
  { intros c1 H1 H2 H3 H4 H5 H6 H7.
    rewrite H1, H2, H3, H4, H5, H7, Hgv, Hpr, Hgf, Hdb, Hts, Hst.
    rewrite Hac in H6. repeat split; try done.
    exists []. rewrite app_nil_r. unfold winner_posts. simpl.
    repeat split; try done; try lia. all: intros; set_solver. }
  assert (∀ original (c1 : Cog),
    giveaways c1 = giveaways c0 → prizes c1 = prizes c0 → gifs c1 = gifs c0 →
    debug_mode c1 = debug_mode c0 → tasks c1 = tasks c0 →
    active_giveaways c1 = active_giveaways c0 → sent c1 = sent c0 →
    ∀ channel,
    let c' :=
      match
        bind_outcome (announce w giveaway_id (set_ended true g) channel original c1)
                     (λ c, Done (clean_up giveaway_id c))
      with
      | Done c' => c'
      | Raised _ c' => logged (ErrorEnding giveaway_id) c'
      end in
    giveaways c' = <[giveaway_id := set_ended true g]> (giveaways c)
    ∧ prizes c' = prizes c ∧ gifs c' = gifs c ∧ debug_mode c' = debug_mode c
    ∧ tasks c' = tasks c
    ∧ (active_giveaways c' = active_giveaways c
       ∨ active_giveaways c' = delete giveaway_id (active_giveaways c))
    ∧ ∃ new,
        sent c' = sent c ++ new
        ∧ (winner_posts new ≤ 1)%nat
        ∧ (participants g = [] → winner_posts new = 0%nat)
        ∧ (∀ ch id winner prize gif,
             Send ch (WinnerPost id winner prize gif) ∈ new →
             id = giveaway_id ∧ winner ∈ participants g
             ∧ select_prize w g (prizes c) = Ok prize)) as Hloud.
  { intros original c1 H1 H2 H3 H4 H5 H6 H7 channel.
    destruct (announce_sends w giveaway_id (set_ended true g) channel original c1)
      as (new & Hsent & Hfold & Hle & Hnone & Hpost & _).
    assert (∀ c2, c2 = fold_left (λ c e, emit e c) new c1 →
              giveaways c2 = <[giveaway_id := set_ended true g]> (giveaways c)
              ∧ prizes c2 = prizes c ∧ gifs c2 = gifs c
              ∧ debug_mode c2 = debug_mode c ∧ tasks c2 = tasks c
              ∧ active_giveaways c2 = active_giveaways c
              ∧ sent c2 = sent c ++ new) as Hc2.
    { intros c2 ->.
      destruct (emitted_keeps new c1) as (E1 & E2 & E3 & E4 & E5 & E6 & _).
      simpl in *.
      rewrite E1, E2, E3, E4, E5, E6, H1, H2, H3, H4, H5, H6, Hgv, Hpr, Hgf,
        Hdb, Hts, Hac.
      split_and!; try done.
      rewrite <- Hst, <- H7.
      clear. revert c1. induction new as [|e new IH]; intros c1; simpl.
      - by rewrite app_nil_r.
      - rewrite IH. simpl. by rewrite <- app_assoc. }
    assert (∀ ch id winner prize gif,
              Send ch (WinnerPost id winner prize gif) ∈ new →
              id = giveaway_id ∧ winner ∈ participants g
              ∧ select_prize w g (prizes c) = Ok prize) as Hpost'.
    { intros ch id winner prize gif Hin.
      destruct (Hpost ch id winner prize gif Hin) as (_ & ? & ? & Hsel).
      rewrite H2, Hpr in Hsel. done. }
    destruct (announce w giveaway_id (set_ended true g) channel original c1)
      as [c2|e c2]; simpl in *;
      destruct (Hc2 c2 Hfold) as (F1 & F2 & F3 & F4 & F5 & F6 & F7);
      do 5 (split; [done|]); (split; [rewrite ?F6; auto|]);
      exists new; split_and!; done. }
  destruct (negb (truthy (channel_id g)) || negb (truthy (message_id g)));
    [by apply Hquiet; auto|].
  destruct (Py.int (default "" (channel_id g))) as [channel|];
    [|by apply Hquiet; auto].
  destruct (negb (get_channel w channel)); [by apply Hquiet; auto|].
  destruct (Py.int (default "" (message_id g))) as [message|];
    [|by apply Hquiet; auto].
  destruct (fetch_message w channel message) as [has_embed| |].
  - by apply Hloud.
  - by apply Hloud.
  - by apply Hquiet; auto.
Qed.

Lemma end_giveaway_unknown (w : World) (giveaway_id : string) (c : Cog) :
  giveaways c !! giveaway_id = None →
  end_giveaway w giveaway_id c = logged (ErrorNotFoundOnEnd giveaway_id) c.
Proof. intros H. unfold end_giveaway, end_giveaway_body. by rewrite H. Qed.

(** *** Permissions *)

Lemma is_admin_cases (i : Interaction) (c : Cog) :
  (admin_ok i c = true ∧ is_admin i c = (true, c))
  ∨ (admin_ok i c = false ∧ ∃ r, is_admin i c = (false, emit (Reply r) c)).
Proof.
  unfold admin_ok, guild_allowed, is_admin, is_allowed_guild.
  destruct (debug_mode c) eqn:Hd; simpl; [rewrite Hd; auto|].
  case_bool_decide; simpl; [|eauto].
  rewrite Hd. destruct (has_admin i); eauto.
Qed.

Lemma cancel_keeps (h : nat) (c : Cog) :
  giveaways (cancel h c) = giveaways c ∧ prizes (cancel h c) = prizes c
  ∧ gifs (cancel h c) = gifs c ∧ debug_mode (cancel h c) = debug_mode c
  ∧ active_giveaways (cancel h c) = active_giveaways c
  ∧ sent (cancel h c) = sent c ∧ giveaways_file (cancel h c) = giveaways_file c
  ∧ log (cancel h c) = log c
  ∧ length (tasks (cancel h c)) = length (tasks c).
Proof.
  unfold cancel. destruct (tasks c !! h) as [[co []]|]; simpl; split_and!;
    try done. by rewrite length_insert.
Qed.

Lemma cancel_scheduled_keeps (giveaway_id : string) (c : Cog) :
  giveaways (cancel_scheduled giveaway_id c) = giveaways c
  ∧ prizes (cancel_scheduled giveaway_id c) = prizes c
  ∧ gifs (cancel_scheduled giveaway_id c) = gifs c
  ∧ debug_mode (cancel_scheduled giveaway_id c) = debug_mode c
  ∧ active_giveaways (cancel_scheduled giveaway_id c) = active_giveaways c
  ∧ sent (cancel_scheduled giveaway_id c) = sent c
  ∧ giveaways_file (cancel_scheduled giveaway_id c) = giveaways_file c
  ∧ log (cancel_scheduled giveaway_id c) = log c
  ∧ length (tasks (cancel_scheduled giveaway_id c)) = length (tasks c).
Proof.
  unfold cancel_scheduled.
  destruct (active_giveaways c !! giveaway_id); [apply cancel_keeps|done].
Qed.

Lemma winner_posts_app (l1 l2 : list event) :
  winner_posts (l1 ++ l2) = (winner_posts l1 + winner_posts l2)%nat.
Proof. unfold winner_posts. by rewrite filter_app, length_app. Qed.

(** *** Manual resolution: [/endgiveaway] *)

(** One call of the command: at most one winner is announced, and when
    one is, the giveaway is ended afterwards; on a giveaway already ended
    nothing is announced and the giveaways, the timers and the tasks stay
    as they are. *)
Lemma end_giveaway_command_effect (w : World) (i : Interaction)
    (giveaway_id : string) (c : Cog) :
  let c' := end_giveaway_command w i giveaway_id c in
  ∃ new,
    sent c' = sent c ++ new
    ∧ (winner_posts new ≤ 1)%nat
    ∧ (winner_posts new = 1%nat →
       ∃ g', giveaways c' !! giveaway_id = Some g' ∧ ended g' = true)
    ∧ (∀ g, giveaways c !! giveaway_id = Some g → ended g = true →
         winner_posts new = 0%nat ∧ giveaways c' = giveaways c
         ∧ active_giveaways c' = active_giveaways c ∧ tasks c' = tasks c
         ∧ giveaways_file c' = giveaways_file c
         ∧ (admin_ok i c = true → c' = emit (Reply AlreadyEnded) c)).
Proof.
  unfold end_giveaway_command.
  destruct (is_admin_cases i c) as [[Hok ->]|[Hok [r ->]]]; simpl.
  - destruct (giveaways c !! giveaway_id) as [g|] eqn:Hg.
    + destruct (ended g) eqn:He.
      * exists [Reply AlreadyEnded].
        split_and!; try done; try (unfold winner_posts; simpl; lia).
        all: try (intros g0 [= <-] _; by split_and!).
      * destruct (cancel_scheduled_keeps giveaway_id c)
          as (K1 & K2 & K3 & K4 & K5 & K6 & _).
        destruct (end_giveaway_effect w giveaway_id
                    (emit (Reply EndingEarly) (cancel_scheduled giveaway_id c)) g)
          as (E1 & _ & _ & _ & _ & _ & new & E7 & E8 & _ & _);
          [simpl; by rewrite K1|].
        exists (Reply EndingEarly :: new). split; [|split; [|split]].
        -- rewrite E7. simpl. rewrite K6. by rewrite <- app_assoc.
        -- change (Reply EndingEarly :: new) with ([Reply EndingEarly] ++ new).
           rewrite winner_posts_app. unfold winner_posts at 1. simpl. lia.
        -- intros _. eexists. split; [rewrite E1; apply lookup_insert_eq|done].
        -- intros g0 [= <-] He'. congruence.
    + exists [Reply GiveawayNotFound].
      split_and!; try done; try (unfold winner_posts; simpl; lia).
  - exists [Reply r].
    split_and!; try done; try (unfold winner_posts; simpl; lia).
    all: try (intros g Hg He; split_and!; try done; congruence).
Qed.

(** The guard of [/endgiveaway], for commands that run one after the
    other: on a giveaway already ended the command is a no-op (giveaways,
    timers, tasks and file untouched, no winner announced, the caller told
    "already ended"), and two commands in a row on the same giveaway
    announce at most one winner in total. *)
Lemma end_giveaway_command_idempotent (w1 w2 : World) (i1 i2 : Interaction)
    (giveaway_id : string) (c : Cog) :
  let c1 := end_giveaway_command w1 i1 giveaway_id c in
  let c2 := end_giveaway_command w2 i2 giveaway_id c1 in
  (∀ g, giveaways c !! giveaway_id = Some g → ended g = true →
     giveaways c1 = giveaways c ∧ active_giveaways c1 = active_giveaways c
     ∧ tasks c1 = tasks c ∧ giveaways_file c1 = giveaways_file c
     ∧ (∃ new, sent c1 = sent c ++ new ∧ winner_posts new = 0%nat)
     ∧ (admin_ok i1 c = true → c1 = emit (Reply AlreadyEnded) c))
  ∧ ∃ new1 new2,
      sent c1 = sent c ++ new1 ∧ sent c2 = sent c1 ++ new2
      ∧ (winner_posts (new1 ++ new2) ≤ 1)%nat.
Proof.
  intros c1 c2.
  destruct (end_giveaway_command_effect w1 i1 giveaway_id c)
    as (new1 & S1 & L1 & W1 & N1).
  destruct (end_giveaway_command_effect w2 i2 giveaway_id c1)
    as (new2 & S2 & L2 & _ & N2).
  fold c1 in S1, W1, N1. fold c2 in S2, N2. split.
  - intros g Hg He. destruct (N1 g Hg He) as (? & ? & ? & ? & ? & ?).
    split_and!; try done. by exists new1.
  - exists new1, new2. split_and!; try done. rewrite winner_posts_app.
    destruct (decide (winner_posts new1 = 1%nat)) as [Hone|Hnot]; [|lia].
    destruct (W1 Hone) as (g' & Hg' & He'). destruct (N2 g' Hg' He') as [-> _].
    lia.
Qed.

(** [end_giveaway] has no guard of its own. Run on the giveaway it has
    just ended, it announces a winner a second time. *)
Lemma end_giveaway_repeats_selection :
  let c1 := end_giveaway Scenario.world Scenario.gid Scenario.cog in
  let c2 := end_giveaway Scenario.world Scenario.gid c1 in
  ended <$> giveaways c1 !! Scenario.gid = Some true
  ∧ sent c1 = [Send 100 (WinnerPost Scenario.gid "42" "Sword" false);
               EditMessage 100 200 (WinnerEdit "42" "Sword")]
  ∧ sent c2 = sent c1 ++ [Send 100 (WinnerPost Scenario.gid "42" "Sword" false);
                          EditMessage 100 200 (WinnerEdit "42" "Sword")]
  ∧ winner_posts (sent c2) = 2%nat.
Proof. vm_compute. repeat split. Qed.

(** A command that runs without interruption is its beginning followed,
    when the checks pass, by [end_giveaway]. *)
Lemma end_giveaway_command_split (w : World) (i : Interaction)
    (giveaway_id : string) (c : Cog) :
  end_giveaway_command w i giveaway_id c
  = let '(go, c1) := end_giveaway_command_begin i giveaway_id c in
    if go then end_giveaway w giveaway_id c1 else c1.
Proof.
  unfold end_giveaway_command, end_giveaway_command_begin.
  destruct (is_admin i c) as [[] c0]; simpl; [|done].
  destruct (giveaways c0 !! giveaway_id) as [g|]; [|done].
  by destruct (ended g).
Qed.

(** C1, where the code departs from it. Two [/endgiveaway] commands of an
    administrator for the same open giveaway, the second received while
    the first awaits the reply to its "ending early" message: both pass
    the test of [ended] before either sets the flag, both go on to
    [end_giveaway], and the winner is selected and announced twice. The
    claim asks for one selection; the guard the code has for it, the test
    of [ended] in the command, does not hold across the [await]. *)
Theorem overlapping_end_commands_select_twice :
  let '(go1, c1) :=
    end_giveaway_command_begin Scenario.admin Scenario.gid Scenario.cog in
  let '(go2, c2) := end_giveaway_command_begin Scenario.admin Scenario.gid c1 in
  let c3 := end_giveaway Scenario.world Scenario.gid c2 in
  let c4 := end_giveaway Scenario.world Scenario.gid c3 in
  go1 = true ∧ go2 = true
  ∧ ended <$> giveaways c3 !! Scenario.gid = Some true
  ∧ sent c4 = [Reply EndingEarly; Reply EndingEarly;
               Send 100 (WinnerPost Scenario.gid "42" "Sword" false);
               EditMessage 100 200 (WinnerEdit "42" "Sword");
               Send 100 (WinnerPost Scenario.gid "42" "Sword" false);
               EditMessage 100 200 (WinnerEdit "42" "Sword")]
  ∧ winner_posts (sent c4) = 2%nat.
Proof. vm_compute. repeat split. Qed.

(** *** The prize announced *)

Lemma int_truthy (s : string) (z : Z) : Py.int s = Some z → truthy (Some s) = true.
Proof. by destruct s. Qed.

(** With participants, a reachable place and a working [send], the winner
    is announced. *)
Lemma end_giveaway_announces (w : World) (giveaway_id : string) (c : Cog)
    (g : Giveaway) :
  giveaways c !! giveaway_id = Some g →
  participants g ≠ [] → reachable w g → send_ok w = true →
  ∃ new, sent (end_giveaway w giveaway_id c) = sent c ++ new
         ∧ winner_posts new = 1%nat.
Proof.
  intros Hg Hp (cs & ms & ch & m & Hc & Hm & Hci & Hmi & Hch & Hf) Hsend.
  unfold end_giveaway, end_giveaway_body. rewrite Hg. simpl.
  rewrite Hc, Hm, (int_truthy _ _ Hci), (int_truthy _ _ Hmi). simpl.
  rewrite Hci, Hch, Hmi. simpl.
  set (c0 := save_giveaways w (update_giveaway giveaway_id (set_ended true g) c)).
  assert (sent c0 = sent c) as Hs0 by (unfold c0; by rewrite sent_save).
  assert (∀ original c1, sent c1 = sent c →
    ∃ new,
      sent match bind_outcome
                   (announce w giveaway_id (set_ended true g) ch original c1)
                   (λ c, Done (clean_up giveaway_id c)) with
           | Done c' => c'
           | Raised _ c' => logged (ErrorEnding giveaway_id) c'
           end = sent c ++ new
      ∧ winner_posts new = 1%nat) as Hloud.
  { intros original c1 H1.
    destruct (announce_sends w giveaway_id (set_ended true g) ch original c1)
      as (new & Hsent & _ & _ & _ & _ & Hone).
    exists new. split; [|by apply Hone].
    destruct (announce w giveaway_id (set_ended true g) ch original c1);
      simpl in *; by rewrite Hsent, H1. }
  destruct (fetch_message w ch m) as [has_embed| |]; [| |done].
  - by apply Hloud.
  - by apply Hloud.
Qed.

(** C6. The prize follows a strict order of precedence. Whatever winner
    [end_giveaway] announces for a giveaway, the prize announced is: one
    of the values of the giveaway's assigned prizes when there are some,
    chosen without regard to the global catalog; else one of the values
    of the global catalog when it has some; else the fixed name
    ["Mystery Prize"]. With participants, a reachable place of
    announcement and a working [send], a winner is announced. *)
Theorem prize_precedence (w : World) (giveaway_id : string) (c : Cog)
    (g : Giveaway) :
  giveaways c !! giveaway_id = Some g →
  let assigned := default ∅ (assigned_prizes g) in
  ∃ new,
    sent (end_giveaway w giveaway_id c) = sent c ++ new
    ∧ (∀ ch id winner prize gif,
         Send ch (WinnerPost id winner prize gif) ∈ new →
         (assigned ≠ ∅ →
            prize ∈ values assigned
            ∧ ∀ catalog, select_prize w g catalog = Ok prize)
         ∧ (assigned = ∅ → prizes c ≠ ∅ → prize ∈ values (prizes c))
         ∧ (assigned = ∅ → prizes c = ∅ → prize = "Mystery Prize"))
    ∧ (participants g ≠ [] → reachable w g → send_ok w = true →
       winner_posts new = 1%nat).
Proof.
  intros Hg assigned.
  destruct (end_giveaway_effect w giveaway_id c g Hg)
    as (_ & _ & _ & _ & _ & _ & new & Hsent & _ & _ & Hpost).
  exists new. split_and!; [done| |].
  - intros ch id winner prize gif Hin.
    destruct (Hpost ch id winner prize gif Hin) as (_ & _ & Hsel).
    by apply select_prize_precedence.
  - intros Hp Hr Hs.
    destruct (end_giveaway_announces w giveaway_id c g Hg Hp Hr Hs)
      as (new' & Hsent' & Hone).
    rewrite Hsent in Hsent'. apply app_inv_head in Hsent'. by subst.
Qed.

Lemma scenario_reachable : reachable Scenario.world Scenario.box.
Proof. exists "100", "200", 100, 200. by split_and!. Qed.

Lemma scenario_catalog_not_empty : prizes Scenario.cog ≠ ∅.
Proof. intros E. apply (f_equal (lookup "1")) in E. discriminate E. Qed.

Lemma prize_precedence_witness :
  giveaways Scenario.cog !! Scenario.gid = Some Scenario.box
  ∧ ∃ new,
      sent (end_giveaway Scenario.world Scenario.gid Scenario.cog)
      = sent Scenario.cog ++ new
      ∧ winner_posts new = 1%nat
      ∧ ∀ ch id winner prize gif,
          Send ch (WinnerPost id winner prize gif) ∈ new →
          prize ∈ values (prizes Scenario.cog).
Proof.
  split; [reflexivity|].
  destruct (prize_precedence Scenario.world Scenario.gid Scenario.cog
              Scenario.box eq_refl) as (new & H1 & H2 & H3).
  exists new. split; [exact H1|]. split.
  - apply H3; [discriminate | apply scenario_reachable | reflexivity].
  - intros ch id winner prize gif Hin.
    destruct (H2 ch id winner prize gif Hin) as (_ & Hc & _).
    apply Hc; [reflexivity | apply scenario_catalog_not_empty].
Defined.

(** *** Persistence failures *)


Lemma is_admin_disk (i : Interaction) (c : Cog) :
  giveaways_file (is_admin i c).2 = giveaways_file c.
Proof. by destruct (is_admin_cases i c) as [[_ ->]|[_ [r ->]]]. Qed.








(** *** Creation *)




(** *** Rescheduling *)

Lemma update_end_time_message_keeps (w : World) (g : Giveaway) (t : Z) (c : Cog) :
  let c' := match update_end_time_message w g t c with
            | Done c' => c'
            | Raised _ c' => logged ErrorUpdatingEndTime c'
            end in
  giveaways c' = giveaways c ∧ active_giveaways c' = active_giveaways c
  ∧ tasks c' = tasks c ∧ giveaways_file c' = giveaways_file c
  ∧ ∃ new, sent c' = sent c ++ new.
Proof.
  unfold update_end_time_message, edit_message.
  repeat case_match; simplify_eq; simpl; split_and!; try done;
    eexists; appended.
Qed.

(** C7. [set_exact_time], called by an administrator on a known giveaway
    with a date and a time that parse to the instant [t]: on a giveaway
    already ended it is refused whatever the date ("cannot change the time
    of an ended giveaway") and nothing changes, the end time included; on
    an open one it is refused when [t <= now] ("must be in the future")
    and nothing changes; otherwise the pending timer of the giveaway is
    asked to cancel, the [end_time] of the stored giveaway becomes [t] and
    its other fields stay, the giveaways are saved, and a new timer for
    [t - now] is created and put in the table. *)
Theorem set_exact_time_reschedules (w : World) (i : Interaction)
    (giveaway_id date time : string) (c : Cog) (g : Giveaway) :
  giveaways c !! giveaway_id = Some g →
  admin_ok i c = true →
  let c' := set_exact_time w i giveaway_id date time c in
  (ended g = true →
     c' = emit (Reply CannotRescheduleEnded) c
     ∧ end_time <$> giveaways c' !! giveaway_id = Some (end_time g))
  ∧ (ended g = false → ∀ t, parse_end_time date time = Ok t →
       (t ≤ now w →
          c' = emit (Reply MustBeInFuture) c
          ∧ end_time <$> giveaways c' !! giveaway_id = Some (end_time g))
       ∧ (now w < t →
          end_time <$> giveaways c' !! giveaway_id = Some t
          ∧ (∃ g', giveaways c' = <[giveaway_id := g']> (giveaways c)
                   ∧ title g' = title g ∧ description g' = description g
                   ∧ creator_id g' = creator_id g
                   ∧ channel_id g' = channel_id g ∧ message_id g' = message_id g
                   ∧ guild_id g' = guild_id g
                   ∧ participants g' = participants g ∧ ended g' = false
                   ∧ assigned_prizes g' = assigned_prizes g
                   ∧ prize_list_id g' = prize_list_id g
                   ∧ celebration_gif g' = celebration_gif g)
          ∧ (disk_ok w = true → giveaways_file c' = Some (giveaways c'))
          ∧ tasks c'
            = tasks (cancel_scheduled giveaway_id c)
              ++ [{| coro := ScheduleGiveawayEnd giveaway_id (t - now w);
                     status := Pending |}]
          ∧ (∀ h co, active_giveaways c !! giveaway_id = Some h →
                     tasks c !! h = Some {| coro := co; status := Pending |} →
                     tasks c' !! h = Some {| coro := co; status := CancelRequested |})
          ∧ active_giveaways c'
            = <[giveaway_id := length (tasks c)]> (active_giveaways c)
          ∧ ∃ new, sent c' = sent c ++ new ++ [Reply EndTimeChanged])).
Proof.
  intros Hg Hadmin c'. unfold c', set_exact_time.
  destruct (is_admin_cases i c) as [[_ ->]|[Hno _]]; [|congruence]. simpl.
  rewrite Hg. split.
  - intros ->. simpl. by rewrite Hg.
  - intros Hopen t ->. rewrite Hopen. split.
    + intros Hle. rewrite (proj2 (Z.leb_le _ _) Hle). simpl. by rewrite Hg.
    + intros Hlt. rewrite (proj2 (Z.leb_gt _ _) Hlt).
      destruct (cancel_scheduled_keeps giveaway_id c)
        as (K1 & K2 & K3 & K4 & K5 & K6 & K7 & K8 & K9).
      set (c1 := save_giveaways w
                   (update_giveaway giveaway_id (set_end_time t g)
                                    (cancel_scheduled giveaway_id c))).
      destruct (save_giveaways_keeps w
                  (update_giveaway giveaway_id (set_end_time t g)
                                   (cancel_scheduled giveaway_id c)))
        as (S1 & _ & _ & _ & S5 & S6 & S7). fold c1 in S1, S5, S6, S7.
      simpl in S1, S5, S6, S7. simpl.
      set (c2 := with_active _ _).
      destruct (update_end_time_message_keeps w (set_end_time t g) t c2)
        as (U1 & U2 & U3 & U4 & new & U5).
      simpl. rewrite U1, U2, U3, U4, U5. unfold c2. simpl.
      rewrite S1, S5, S6, S7, K1, K5, K6, K9.
      split_and!; try done.
      * by rewrite lookup_insert_eq.
      * exists (set_end_time t g). by split_and!.
      * intros Hdisk. unfold c1, save_giveaways. rewrite Hdisk. simpl.
        by rewrite K1.
      * intros h co Hh Hco. rewrite lookup_app_l.
        -- unfold cancel_scheduled, cancel. rewrite Hh, Hco. simpl.
           apply list_lookup_insert_eq. by eapply lookup_lt_Some.
        -- rewrite K9. by eapply lookup_lt_Some.
      * exists new. by rewrite <- !app_assoc.
Qed.

Lemma set_exact_time_reschedules_witness :
  let c' := set_exact_time Scenario.world Scenario.admin Scenario.gid
                           "25.12.2025" "18:30" Scenario.cog in
  end_time <$> giveaways c' !! Scenario.gid = Some (1766687400 * 1000000)
  ∧ tasks c'
    = [{| coro := ScheduleGiveawayEnd Scenario.gid 4000000;
          status := CancelRequested |};
       {| coro := ScheduleGiveawayEnd Scenario.gid
                    (1766687400 * 1000000 - now Scenario.world);
          status := Pending |}].
Proof.
  intros c'.
  destruct (set_exact_time_reschedules Scenario.world Scenario.admin Scenario.gid
              "25.12.2025" "18:30" Scenario.cog Scenario.box eq_refl eq_refl)
    as [_ H].
  destruct (H eq_refl (1766687400 * 1000000) eq_refl) as [_ H'].
  destruct H' as (H1 & _ & _ & H2 & _); [reflexivity|].
  split; [exact H1|]. fold c' in H2. rewrite H2. reflexivity.
Defined.

(** *** Start-up *)

(** The sweep over a list of stored giveaways with distinct ids: old tasks
    stay, every new task is pending and works on an open giveaway of the
    list, the table changes at ids of the list only, and every giveaway of
    the list gets its due. *)
Lemma restore_sweep (now_ : Z) (c : Cog) (items : list (string * Giveaway)) :
  NoDup items.*1 →
  let c' := foldl (restore now_) c items in
  giveaways c' = giveaways c
  ∧ (∃ extra, tasks c' = tasks c ++ extra
              ∧ Forall (λ t, ∃ g, (target (coro t), g) ∈ items ∧ ended g = false)
                       extra)
  ∧ (∀ id, id ∉ items.*1 → active_giveaways c' !! id = active_giveaways c !! id)
  ∧ (∀ id g, (id, g) ∈ items → restored now_ c c' id g).
Proof.
  induction items as [|[k x] items IH] using rev_ind; intros Hnodup c'.
  - simpl in *. split_and!; try done.
    + exists []. by rewrite app_nil_r.
    + intros id g Hin. by apply not_elem_of_nil in Hin.
  - rewrite fmap_app in Hnodup. simpl in Hnodup.
    apply NoDup_app in Hnodup as (Hnodup & Hk & _).
    assert (k ∉ items.*1) as Hfresh.
    { intros Hin. apply (Hk k Hin). apply list_elem_of_here. }
    destruct (IH Hnodup) as (IH1 & (extra & IH2 & IH3) & IH4 & IH5).
    unfold c'. rewrite foldl_app. simpl.
    set (c1 := foldl (restore now_) c items) in *.
    assert (∀ id g, (id, g) ∈ items → id ≠ k) as Hother.
    { intros id g Hin ->. apply Hfresh. apply list_elem_of_fmap.
      by exists (k, g). }
    assert (∀ g, (k, g) ∈ items ++ [(k, x)] → g = x) as Hsame.
    { intros g Hin. apply elem_of_app in Hin as [Hin|Hin].
      - by destruct (Hother k g Hin).
      - apply list_elem_of_singleton in Hin. congruence. }
    destruct (ended x) eqn:Hended; [|destruct (now_ <? end_time x) eqn:Hfuture].
    + (* ended: the turn is skipped *)
      split_and!; try done.
      * exists extra. split; [done|].
        eapply Forall_impl; [exact IH3|]. intros t (g & Hin & He).
        exists g. split; [|done]. apply elem_of_app. by left.
      * intros id Hid. apply IH4. intros Hin. apply Hid.
        rewrite fmap_app. apply elem_of_app. by left.
      * intros id g Hin. apply elem_of_app in Hin as [Hin|Hin].
        -- by apply IH5.
        -- apply list_elem_of_singleton in Hin. injection Hin as -> ->.
           unfold restored. rewrite Hended. split_and!; try done.
           intros _. split; [by apply IH4|].
           intros h t Hh Ht. rewrite IH2 in Ht.
           rewrite lookup_app_r in Ht by done.
           apply list_elem_of_lookup_2 in Ht.
           rewrite Forall_forall in IH3.
           destruct (IH3 t Ht) as (g & Hin' & _). by eapply Hother.
    + (* open, end in the future: a timer for the remaining time *)
      apply Z.ltb_lt in Hfuture. simpl. split_and!; try done.
      * exists (extra ++ [{| coro := ScheduleGiveawayEnd k (end_time x - now_);
                              status := Pending |}]).
        split; [by rewrite IH2, <- app_assoc|].
        apply Forall_app. split.
        -- eapply Forall_impl; [exact IH3|]. intros t (g & Hin & He).
           exists g. split; [|done]. apply elem_of_app. by left.
        -- apply Forall_singleton. exists x. split; [|done].
           apply elem_of_app. right. apply list_elem_of_here.
      * intros id Hid. rewrite fmap_app in Hid. simpl in Hid.
        rewrite lookup_insert_ne.
        -- apply IH4. intros Hin. apply Hid. apply elem_of_app. by left.
        -- intros <-. apply Hid. apply elem_of_app. right. apply list_elem_of_here.
      * intros id g Hin. apply elem_of_app in Hin as [Hin|Hin].
        -- pose proof (Hother id g Hin) as Hne.
           destruct (IH5 id g Hin) as (R1 & R2 & R3). unfold restored. simpl.
           rewrite lookup_insert_ne by congruence. split_and!.
           ++ intros He Hf. destruct (R1 He Hf) as (h & Hh & Ha & Ht).
              exists h. split_and!; try done.
              rewrite lookup_app_l; [done|]. by eapply lookup_lt_Some.
           ++ intros He Hp. destruct (R2 He Hp) as (Ha & h & Hh & Ht).
              split; [done|]. exists h. split; [done|].
              rewrite lookup_app_l; [done|]. by eapply lookup_lt_Some.
           ++ intros He. destruct (R3 He) as (Ha & Hnone). split; [done|].
              intros h t Hh Ht. apply lookup_app_Some in Ht as [Ht|[Hlen Ht]].
              ** by eapply Hnone.
              ** apply list_lookup_singleton_Some in Ht as [_ <-]. simpl.
                 by intros ->.
        -- apply list_elem_of_singleton in Hin. injection Hin as -> ->.
           unfold restored. rewrite Hended. simpl. split_and!; try done; [|lia].
           intros _ _. exists (length (tasks c1)). split_and!.
           ++ rewrite IH2, length_app. lia.
           ++ apply lookup_insert_eq.
           ++ rewrite lookup_app_r by done. by rewrite Nat.sub_diag.
    + (* open, end passed: a task that ends it at once *)
      apply Z.ltb_ge in Hfuture. simpl. split_and!; try done.
      * exists (extra ++ [{| coro := EndGiveaway k; status := Pending |}]).
        split; [by rewrite IH2, <- app_assoc|].
        apply Forall_app. split.
        -- eapply Forall_impl; [exact IH3|]. intros t (g & Hin & He).
           exists g. split; [|done]. apply elem_of_app. by left.
        -- apply Forall_singleton. exists x. split; [|done].
           apply elem_of_app. right. apply list_elem_of_here.
      * intros id Hid. rewrite fmap_app in Hid. simpl in Hid.
        apply IH4. intros Hin. apply Hid. apply elem_of_app. by left.
      * intros id g Hin. apply elem_of_app in Hin as [Hin|Hin].
        -- pose proof (Hother id g Hin) as Hne.
           destruct (IH5 id g Hin) as (R1 & R2 & R3). unfold restored. simpl.
           split_and!.
           ++ intros He Hf. destruct (R1 He Hf) as (h & Hh & Ha & Ht).
              exists h. split_and!; try done.
              rewrite lookup_app_l; [done|]. by eapply lookup_lt_Some.
           ++ intros He Hp. destruct (R2 He Hp) as (Ha & h & Hh & Ht).
              split; [done|]. exists h. split; [done|].
              rewrite lookup_app_l; [done|]. by eapply lookup_lt_Some.
           ++ intros He. destruct (R3 He) as (Ha & Hnone). split; [done|].
              intros h t Hh Ht. apply lookup_app_Some in Ht as [Ht|[Hlen Ht]].
              ** by eapply Hnone.
              ** apply list_lookup_singleton_Some in Ht as [_ <-]. simpl.
                 by intros ->.
        -- apply list_elem_of_singleton in Hin. injection Hin as -> ->.
           unfold restored. rewrite Hended. simpl. split_and!; try done; [lia|].
           intros _ _. split; [by apply IH4|].
           exists (length (tasks c1)). split.
           ++ rewrite IH2, length_app. lia.
           ++ rewrite lookup_app_r by done. by rewrite Nat.sub_diag.
Qed.

(** C5. Start-up recovery. When the cog is built, the giveaways are those
    of the file, and for every one of them: if it is open and its end is in
    the future, the table of timers has a pending timer for it, for
    exactly [end_time - now]; if it is open and its end has passed, a
    pending task that runs [end_giveaway] on it has been created (the event
    loop runs it, nobody has to ask) and the table has no timer for it; if
    it is ended, the table has no timer for it and no task works on it. *)
Theorem startup_recovery (w : World) (file : option (gmap string Giveaway))
    (prizes_ gifs_ : gmap string string) (debug : bool)
    (giveaway_id : string) (g : Giveaway) :
  load_giveaways file !! giveaway_id = Some g →
  let c' := init w file prizes_ gifs_ debug in
  giveaways c' = load_giveaways file
  ∧ (ended g = false → now w < end_time g →
       ∃ h, active_giveaways c' !! giveaway_id = Some h
            ∧ tasks c' !! h
              = Some {| coro := ScheduleGiveawayEnd giveaway_id (end_time g - now w);
                        status := Pending |})
  ∧ (ended g = false → end_time g ≤ now w →
       active_giveaways c' !! giveaway_id = None
       ∧ ∃ h, tasks c' !! h
              = Some {| coro := EndGiveaway giveaway_id; status := Pending |}
              ∧ ∀ w', run_task w' h c'
                      = end_giveaway w' giveaway_id
                                     (finish h (EndGiveaway giveaway_id) c'))
  ∧ (ended g = true →
       active_giveaways c' !! giveaway_id = None
       ∧ ∀ h t, tasks c' !! h = Some t → target (coro t) ≠ giveaway_id).
Proof.
  intros Hg c'. unfold c', init, reload_active_giveaways.
  set (c := {| giveaways := load_giveaways file; prizes := prizes_; gifs := gifs_;
               debug_mode := debug; active_giveaways := ∅; tasks := [];
               giveaways_file := file; sent := []; log := [] |}).
  change (giveaways c) with (load_giveaways file).
  destruct (restore_sweep (now w) c (map_to_list (load_giveaways file)))
    as (H1 & _ & _ & H4); [apply NoDup_fst_map_to_list|].
  destruct (H4 giveaway_id g) as (R1 & R2 & R3); [by apply elem_of_map_to_list|].
  simpl in *. split_and!; try done.
  - intros He Hf. destruct (R1 He Hf) as (h & _ & Ha & Ht). by exists h.
  - intros He Hp. destruct (R2 He Hp) as (Ha & h & _ & Ht).
    split; [by rewrite Ha|]. exists h. split; [done|].
    intros w'. unfold run_task. by rewrite Ht.
  - intros He. destruct (R3 He) as (Ha & Hnone). split; [by rewrite Ha|].
    intros h t Ht. eapply Hnone; [|done]. lia.
Qed.

Lemma startup_recovery_witness :
  ∃ h, active_giveaways (init Scenario.world (Some {[Scenario.gid := Scenario.box]})
                              ∅ ∅ false) !! Scenario.gid = Some h
       ∧ tasks (init Scenario.world (Some {[Scenario.gid := Scenario.box]})
                     ∅ ∅ false) !! h
         = Some {| coro := ScheduleGiveawayEnd Scenario.gid 4000000;
                   status := Pending |}.
Proof.
  destruct (startup_recovery Scenario.world (Some {[Scenario.gid := Scenario.box]})
              ∅ ∅ false Scenario.gid Scenario.box) as (_ & H & _);
    [reflexivity|].
  apply H; [reflexivity|]. simpl. lia.
Defined.

Example startup_missed_ex :
  let c' := init Scenario.world
                 (Some {[Scenario.gid := set_end_time 900000 Scenario.box]})
                 ∅ ∅ false in
  tasks c' = [{| coro := EndGiveaway Scenario.gid; status := Pending |}]
  ∧ active_giveaways c' = ∅
  ∧ sent (run_task Scenario.world 0 c')
    = [Send 100 (WinnerPost Scenario.gid "42" "Mystery Prize" false);
       EditMessage 100 200 (WinnerEdit "42" "Mystery Prize")].
Proof. vm_compute. repeat split. Qed.

(** *** The table of timers after the end *)

(** C8, where the code departs from it. The timer of the giveaway fires
    while its channel is gone: [end_giveaway] marks the giveaway ended,
    finds no channel and returns before its clean-up; the giveaway is
    ended, its task is finished, and its handle is still in the table. *)
Lemma timer_handle_left_behind :
  let c1 := run_task Scenario.world_channel_gone 0 Scenario.cog in
  ended <$> giveaways c1 !! Scenario.gid = Some true
  ∧ status <$> tasks c1 !! 0%nat = Some Finished
  ∧ active_giveaways c1 !! Scenario.gid = Some 0%nat
  ∧ log c1 = [ErrorNoChannel Scenario.gid].
Proof. vm_compute. repeat split. Qed.

(** With the channel in place the same run removes the handle. *)
Example timer_handle_removed_ex :
  let c1 := run_task Scenario.world 0 Scenario.cog in
  ended <$> giveaways c1 !! Scenario.gid = Some true
  ∧ active_giveaways c1 !! Scenario.gid = None.
Proof. vm_compute. repeat split. Qed.

(** *** An ended giveaway is left alone *)

Lemma guarded_update_frozen (id' id : string) (m m' : gmap string Giveaway)
    (g : Giveaway) :
  guarded_update id' m m' → m !! id = Some g → ended g = true → m' !! id = Some g.
Proof.
  intros [->|(g' & g'' & Hg' & Hopen & ->)] Hg Hended; [done|].
  destruct (decide (id' = id)) as [->|Hne].
  - congruence.
  - by rewrite lookup_insert_ne.
Qed.

Lemma set_ended_ended (g : Giveaway) : ended g = true → set_ended true g = g.
Proof. destruct g. simpl. by intros ->. Qed.

Lemma update_cancelled_message_keeps (w : World) (g : Giveaway) (c : Cog) :
  let c' := match update_cancelled_message w g c with
            | Done c' => c'
            | Raised _ c' => logged ErrorUpdatingCancelled c'
            end in
  giveaways c' = giveaways c ∧ active_giveaways c' = active_giveaways c
  ∧ tasks c' = tasks c.
Proof.
  unfold update_cancelled_message, edit_message.
  repeat case_match; simplify_eq; simpl; by split_and!.
Qed.

Lemma add_participant_guarded (w : World) (i : Interaction) (id' : string) (c : Cog) :
  guarded_update id' (giveaways c) (giveaways (add_participant w i id' c)).
Proof.
  rewrite add_participant_giveaways.
  destruct (giveaways c !! id') as [g'|] eqn:Hg'; [|by left].
  destruct (ended g') eqn:He; [rewrite andb_false_r; by left|].
  case_match; [|by left]. right. eauto.
Qed.

Lemma set_exact_time_guarded (w : World) (i : Interaction) (id' date time : string)
    (c : Cog) :
  guarded_update id' (giveaways c) (giveaways (set_exact_time w i id' date time c)).
Proof.
  unfold set_exact_time.
  destruct (is_admin_cases i c) as [[_ ->]|[_ [r ->]]]; simpl; [|by left].
  destruct (giveaways c !! id') as [g'|] eqn:Hg'; [|by left].
  destruct (ended g') eqn:He; [by left|].
  destruct (parse_end_time date time) as [t|[]]; try by left.
  destruct (t <=? now w); [by left|].
  right. exists g', (set_end_time t g'). split_and!; try done. simpl.
  match goal with
  | |- context [update_end_time_message ?w ?g ?t ?c] =>
      destruct (update_end_time_message_keeps w g t c) as (U1 & _)
  end.
  simpl in *. rewrite U1. simpl. rewrite giveaways_save. simpl.
  by destruct (cancel_scheduled_keeps id' c) as (-> & _).
Qed.

Lemma cancel_giveaway_effect (w : World) (i : Interaction) (id' : string) (c : Cog) :
  guarded_update id' (giveaways c) (giveaways (cancel_giveaway w i id' c))
  ∧ (∀ g, giveaways c !! id' = Some g → ended g = false → admin_ok i c = true →
          giveaways (cancel_giveaway w i id' c) !! id' = Some (set_ended true g)
          ∧ active_giveaways (cancel_giveaway w i id' c) !! id' = None).
Proof.
  unfold cancel_giveaway.
  destruct (is_admin_cases i c) as [[Hok ->]|[Hno [r ->]]]; simpl;
    [|split; [by left|congruence]].
  destruct (giveaways c !! id') as [g'|] eqn:Hg'; [|split; [by left|done]].
  destruct (ended g') eqn:He; [split; [by left|congruence]|].
  match goal with
  | |- context [update_cancelled_message ?w ?g ?c] =>
      destruct (update_cancelled_message_keeps w g c) as (U1 & U2 & _)
  end.
  simpl in *. rewrite U1, U2, giveaways_save, active_save. simpl.
  assert (giveaways
            match active_giveaways c !! id' with
            | Some h => with_active (delete id' (active_giveaways c)) (cancel h c)
            | None => c
            end = giveaways c) as ->.
  { destruct (active_giveaways c !! id'); [|done]. simpl. apply cancel_keeps. }
  split.
  - right. eauto.
  - intros g [= <-] _ _. split; [apply lookup_insert_eq|].
    destruct (active_giveaways c !! id') eqn:Ha; simpl; [|done].
    apply lookup_delete_eq.
Qed.

Lemma attach_gif_guarded (w : World) (i : Interaction) (id' gif_id : string)
    (c : Cog) :
  guarded_update id' (giveaways c) (giveaways (attach_gif w i id' gif_id c)).
Proof.
  unfold attach_gif.
  destruct (is_admin_cases i c) as [[_ ->]|[_ [r ->]]]; simpl; [|by left].
  destruct (giveaways c !! id') as [g'|] eqn:Hg'; [|by left].
  case_match; [by left|].
  destruct (ended g') eqn:He; [by left|].
  right. exists g', (set_celebration_gif gif_id g'). split_and!; try done.
  simpl. by rewrite giveaways_save.
Qed.

Lemma assign_prizes_guarded (w : World) (i : Interaction) (id' prize_ids : string)
    (c : Cog) :
  guarded_update id' (giveaways c)
                 (giveaways (final (assign_prizes w i id' prize_ids c))).
Proof.
  unfold assign_prizes.
  destruct (is_admin_cases i c) as [[_ ->]|[_ [r ->]]]; simpl; [|by left].
  destruct (giveaways c !! id') as [g'|] eqn:Hg'; [|by left].
  destruct (ended g') eqn:He; [by left|].
  destruct (Resolver.parse_prize_ids prize_ids (prizes c)) as [[a m]|]; [|by left].
  case_bool_decide; [by left|]. right.
  exists g', (set_assigned_prizes a g'). split_and!; try done.
  simpl. by rewrite giveaways_save.
Qed.

Lemma end_giveaway_frozen (w : World) (id' id : string) (c : Cog) (g : Giveaway) :
  giveaways c !! id = Some g → ended g = true →
  giveaways (end_giveaway w id' c) !! id = Some g.
Proof.
  intros Hg He. destruct (giveaways c !! id') as [g'|] eqn:Hg'.
  - destruct (end_giveaway_effect w id' c g' Hg') as (-> & _).
    destruct (decide (id' = id)) as [->|Hne].
    + rewrite lookup_insert_eq. f_equal. rewrite Hg in Hg'. injection Hg' as <-.
      by apply set_ended_ended.
    + by rewrite lookup_insert_ne.
  - by rewrite end_giveaway_unknown.
Qed.

(** X2. The invariant of the terminal state, for the giveaways: once a
    giveaway is ended, no command, no timer and no start-up sweep changes
    any field of its record. *)
Lemma ended_giveaway_untouched (w : World) (i : Interaction)
    (id' date time gif_id prize_ids : string) (h : nat) (c : Cog)
    (id : string) (g : Giveaway) :
  giveaways c !! id = Some g → ended g = true →
  giveaways (add_participant w i id' c) !! id = Some g
  ∧ giveaways (set_exact_time w i id' date time c) !! id = Some g
  ∧ giveaways (cancel_giveaway w i id' c) !! id = Some g
  ∧ giveaways (attach_gif w i id' gif_id c) !! id = Some g
  ∧ giveaways (final (assign_prizes w i id' prize_ids c)) !! id = Some g
  ∧ giveaways (end_giveaway w id' c) !! id = Some g
  ∧ giveaways (end_giveaway_command w i id' c) !! id = Some g
  ∧ giveaways (run_task w h c) !! id = Some g
  ∧ giveaways (reload_active_giveaways w c) !! id = Some g.
Proof.
  intros Hg He. split_and!.
  - eapply guarded_update_frozen; [apply add_participant_guarded|done..].
  - eapply guarded_update_frozen; [apply set_exact_time_guarded|done..].
  - eapply guarded_update_frozen; [apply cancel_giveaway_effect|done..].
  - eapply guarded_update_frozen; [apply attach_gif_guarded|done..].
  - eapply guarded_update_frozen; [apply assign_prizes_guarded|done..].
  - by apply end_giveaway_frozen.
  - unfold end_giveaway_command.
    destruct (is_admin_cases i c) as [[_ ->]|[_ [r ->]]]; simpl; [|done].
    destruct (giveaways c !! id') as [g'|] eqn:Hg'; [|done].
    destruct (ended g'); [done|].
    apply end_giveaway_frozen; [|done]. simpl.
    by destruct (cancel_scheduled_keeps id' c) as (-> & _).
  - unfold run_task.
    destruct (tasks c !! h) as [[co []]|]; try done;
      destruct co; simpl; try done; by apply end_giveaway_frozen.
  - unfold reload_active_giveaways.
    destruct (restore_sweep (now w) c (map_to_list (giveaways c)))
      as (-> & _); [apply NoDup_fst_map_to_list|done].
Qed.

Lemma ended_giveaway_untouched_witness :
  giveaways (end_giveaway Scenario.world Scenario.gid
               (end_giveaway Scenario.world Scenario.gid Scenario.cog))
    !! Scenario.gid
  = Some (set_ended true Scenario.box).
Proof.
  apply (ended_giveaway_untouched Scenario.world Scenario.admin Scenario.gid
           "" "" "" "" 0
           (end_giveaway Scenario.world Scenario.gid Scenario.cog)
           Scenario.gid (set_ended true Scenario.box));
    reflexivity.
Defined.

(** Cancelling an open giveaway takes its handle out of the table. *)
Lemma cancel_giveaway_removes_handle (w : World) (i : Interaction) (id' : string)
    (c : Cog) (g : Giveaway) :
  giveaways c !! id' = Some g → ended g = false → admin_ok i c = true →
  giveaways (cancel_giveaway w i id' c) !! id' = Some (set_ended true g)
  ∧ active_giveaways (cancel_giveaway w i id' c) !! id' = None.
Proof. intros. by apply cancel_giveaway_effect. Qed.

End EngineFacts.

(** ** The Python primitives *)

Module PyFacts.
Import PySpec.

Lemma int_digits_uint (d : Decimal.uint) (acc : Z) :
  Py.int_digits acc false (NilEmpty.string_of_uint d) = Some (uint_value d acc).
Proof. revert acc. induction d; intros acc; simpl; auto. Qed.

Lemma uint_value_pos (d : Decimal.uint) (acc : positive) :
  uint_value d (Z.pos acc) = Z.pos (Pos.of_uint_acc d acc).
Proof.
  revert acc. induction d; intros acc; simpl; [done|..];
    (etransitivity; [|apply IHd]); f_equal; lia.
Qed.

Lemma uint_value_0 (d : Decimal.uint) : uint_value d 0 = Z.of_N (Pos.of_uint d).
Proof.
  induction d; simpl; try done.
  all: match goal with
       | |- uint_value _ (10 * 0 + Z.pos ?k) = _ =>
           change (10 * 0 + Z.pos k) with (Z.pos k); by rewrite uint_value_pos
       end.
Qed.

Lemma uint_value_to_uint (p : positive) : uint_value (Pos.to_uint p) 0 = Z.pos p.
Proof. by rewrite uint_value_0, DecimalPos.Unsigned.of_to. Qed.

Lemma int_space_isspace (c : ascii) : Py.int_space c = true → Py.isspace c = true.
Proof.
  unfold Py.int_space, Py.isspace. intros H.
  repeat (apply orb_true_iff in H as [H|H]).
  - by rewrite H.
  - apply Nat.eqb_eq in H. by rewrite H.
  - apply Nat.eqb_eq in H. by rewrite H.
  - apply Nat.eqb_eq in H. by rewrite H.
Qed.

Lemma not_space_int (c : ascii) : Py.isspace c = false → Py.int_space c = false.
Proof.
  intros H. destruct (Py.int_space c) eqn:E; [|done].
  apply int_space_isspace in E. congruence.
Qed.

Lemma rstrip_no_space (s : string) : no_space s = true → Py.rstrip s = s.
Proof.
  induction s as [|c s IH]; simpl; [done|].
  intros [Hc Hs]%andb_true_iff. rewrite (IH Hs).
  apply negb_true_iff in Hc. rewrite Hc. by destruct s.
Qed.

Lemma strip_no_space (s : string) : no_space s = true → Py.strip s = s.
Proof.
  intros H. unfold Py.strip.
  assert (Py.lstrip s = s) as ->; [|by apply rstrip_no_space].
  destruct s as [|c s]; simpl in *; [done|].
  apply andb_true_iff in H as [Hc _]. apply negb_true_iff in Hc. by rewrite Hc.
Qed.

Lemma int_rstrip_no_space (s : string) : no_space s = true → Py.int_rstrip s = s.
Proof.
  induction s as [|c s IH]; simpl; [done|].
  intros [Hc Hs]%andb_true_iff. rewrite (IH Hs).
  apply negb_true_iff, not_space_int in Hc. rewrite Hc. by destruct s.
Qed.

Lemma int_strip_no_space (s : string) :
  no_space s = true → Py.int_rstrip (Py.int_lstrip s) = s.
Proof.
  intros H.
  assert (Py.int_lstrip s = s) as ->; [|by apply int_rstrip_no_space].
  destruct s as [|c s]; simpl in *; [done|].
  apply andb_true_iff in H as [Hc _].
  apply negb_true_iff, not_space_int in Hc. by rewrite Hc.
Qed.

Lemma no_space_digits (d : Decimal.uint) :
  no_space (NilEmpty.string_of_uint d) = true.
Proof. induction d; simpl; auto. Qed.

Lemma int_literal_digits (d : Decimal.uint) :
  d ≠ Decimal.Nil →
  Py.int_literal (NilEmpty.string_of_uint d) = Some (uint_value d 0).
Proof.
  intros Hd. destruct d; [done|..]; unfold Py.int_literal;
    cbn [NilEmpty.string_of_uint]; rewrite <- int_digits_uint; reflexivity.
Qed.

Lemma int_literal_neg (d : Decimal.uint) :
  d ≠ Decimal.Nil →
  Py.int_literal (String "-" (NilEmpty.string_of_uint d)) = Some (- uint_value d 0).
Proof.
  intros Hd. destruct d; [done|..]; unfold Py.int_literal;
    cbn [NilEmpty.string_of_uint]; simpl; rewrite int_digits_uint; reflexivity.
Qed.

Lemma string_of_uint_nonnil (d : Decimal.uint) :
  d ≠ Decimal.Nil → NilZero.string_of_uint d = NilEmpty.string_of_uint d.
Proof. by destruct d. Qed.

Lemma int_no_space (s : string) :
  no_space s = true → Py.int s = Py.int_literal s.
Proof. intros H. unfold Py.int. by rewrite int_strip_no_space. Qed.

(** [int(str(i)) == i] *)
Lemma int_str (i : Z) : Py.int (Py.str i) = Some i.
Proof.
  destruct i as [|p|p].
  - reflexivity.
  - pose proof (DecimalPos.Unsigned.to_uint_nonnil p) as Hnil.
    change (Py.str (Z.pos p)) with (NilZero.string_of_uint (Pos.to_uint p)).
    rewrite string_of_uint_nonnil by done.
    rewrite int_no_space by apply no_space_digits.
    rewrite int_literal_digits by done. by rewrite uint_value_to_uint.
  - pose proof (DecimalPos.Unsigned.to_uint_nonnil p) as Hnil.
    change (Py.str (Z.neg p))
      with (String "-" (NilZero.string_of_uint (Pos.to_uint p))).
    rewrite string_of_uint_nonnil by done.
    rewrite int_no_space by (simpl; apply no_space_digits).
    rewrite int_literal_neg by done. by rewrite uint_value_to_uint.
Qed.

Lemma str_inj (i j : Z) : Py.str i = Py.str j → i = j.
Proof.
  intros H. apply (f_equal Py.int) in H. rewrite !int_str in H. congruence.
Qed.

End PyFacts.

(** ** Further properties of the prize resolver *)

Module ResolverMore.
Import Resolver ResolverSpec ResolverFacts PyFacts.

Lemma split_nonempty (sep : ascii) (s : string) : Py.split sep s ≠ [].
Proof.
  destruct s as [|c s]; simpl; [done|].
  destruct (Ascii.eqb c sep); [done|]. by destruct (Py.split sep s).
Qed.

Lemma split_app (sep : ascii) (s1 s2 : string) :
  Py.split sep (s1 +:+ String sep s2) = Py.split sep s1 ++ Py.split sep s2.
Proof.
  induction s1 as [|c s1 IH]; simpl.
  - by rewrite Ascii.eqb_refl.
  - destruct (Ascii.eqb c sep); simpl.
    + by rewrite IH.
    + rewrite IH. pose proof (split_nonempty sep s1).
      by destruct (Py.split sep s1).
Qed.

Lemma parse_prize_ids_done (spec : string) (catalog : gmap string string) :
  parse_prize_ids spec catalog
  = Done (foldl (classify catalog) (∅, []) (tokens spec ≫= requested)).
Proof. unfold parse_prize_ids, parse_parts. apply for_each_process_part. Qed.

(** X7. Two specifications joined by a comma resolve to the union of
    what each resolves and to the misses of the first followed by the
    misses of the second. *)
Theorem parse_prize_ids_comma (spec1 spec2 : string) (catalog : gmap string string) :
  ∃ r1 u1 r2 u2,
    parse_prize_ids spec1 catalog = Done (r1, u1)
    ∧ parse_prize_ids spec2 catalog = Done (r2, u2)
    ∧ parse_prize_ids (spec1 +:+ String "," spec2) catalog
      = Done (r1 ∪ r2, u1 ++ u2).
Proof.
  rewrite !parse_prize_ids_done.
  assert (tokens (spec1 +:+ String "," spec2) = tokens spec1 ++ tokens spec2)
    as ->.
  { unfold tokens. by rewrite split_app, fmap_app. }
  rewrite bind_app.
  destruct (foldl_classify catalog (tokens spec1 ≫= requested) (∅, []))
    as [A1 A2].
  destruct (foldl_classify catalog (tokens spec2 ≫= requested) (∅, []))
    as [B1 B2].
  destruct (foldl_classify catalog
              ((tokens spec1 ≫= requested) ++ (tokens spec2 ≫= requested))
              (∅, []))
    as [C1 C2].
  destruct (foldl _ _ (tokens spec1 ≫= requested)) as [r1 u1].
  destruct (foldl _ _ (tokens spec2 ≫= requested)) as [r2 u2].
  destruct (foldl _ _ (_ ++ _)) as [r u]. simpl in *.
  exists r1, u1, r2, u2. split_and!; try done. f_equal. f_equal.
  - apply map_eq. intros id. rewrite lookup_union, C1, A1, B1.
    rewrite !lookup_empty.
    destruct (catalog !! id) as [name|] eqn:Hc.
    + repeat case_bool_decide; try done; exfalso;
        rewrite elem_of_app in *; tauto.
    + by repeat case_bool_decide.
  - by rewrite C2, A2, B2, filter_app.
Qed.

(** X8. A range token reaches ids in canonical decimal form only: the
    look-ups it makes are, in this order, those of the decimal strings of
    [A], [A+1], ..., [B], so each integer of [A..B] is looked up once, in
    ascending order, and each id reads back as its integer. An id written
    otherwise in the catalog (["007"]) is not reached by a range. *)
Theorem range_ids_canonical (catalog : gmap string string) (a : acc)
    (token : string) (A B : Z) :
  range_bounds token = Some (A, B) →
  ∃ ids,
    process_part catalog a token = Done (foldl (classify catalog) a ids)
    ∧ length ids = Z.to_nat (B - A + 1)
    ∧ (∀ k, (k < length ids)%nat → ids !! k = Some (Py.str (A + Z.of_nat k)))
    ∧ NoDup ids
    ∧ (∀ j k idj idk m n,
         ids !! j = Some idj → ids !! k = Some idk →
         Py.int idj = Some m → Py.int idk = Some n → (j < k)%nat → m < n)
    ∧ ∀ id, id ∈ ids ↔ ∃ n, A ≤ n ≤ B ∧ id = Py.str n ∧ Py.int id = Some n.
Proof.
  intros Hb. exists (Py.str <$> seqZ A (B - A + 1)).
  assert (∀ k, (k < length (Py.str <$> seqZ A (B - A + 1)))%nat →
               (Py.str <$> seqZ A (B - A + 1)) !! k
               = Some (Py.str (A + Z.of_nat k))) as Hat.
  { intros k Hk. rewrite length_fmap, length_seqZ in Hk.
    rewrite list_lookup_fmap, lookup_seqZ_lt by lia. done. }
  split_and!.
  - rewrite process_part_requested. unfold requested. by rewrite Hb.
  - by rewrite length_fmap, length_seqZ.
  - exact Hat.
  - apply NoDup_fmap_2; [|apply NoDup_seqZ]. intros i j. apply str_inj.
  - intros j k idj idk m n Hj Hk Hm Hn Hjk.
    rewrite (Hat j) in Hj by (by eapply lookup_lt_Some).
    rewrite (Hat k) in Hk by (by eapply lookup_lt_Some).
    injection Hj as <-. injection Hk as <-.
    rewrite int_str in Hm, Hn. injection Hm as <-. injection Hn as <-. lia.
  - intros id. rewrite list_elem_of_fmap. setoid_rewrite elem_of_seqZ. split.
    + intros (n & -> & Hn). exists n. split_and!; [lia|lia|done|apply int_str].
    + intros (n & Hn & -> & _). exists n. split; [done|lia].
Qed.

Lemma range_ids_canonical_witness :
  ∃ ids,
    process_part (<["6" := "F"]> ∅) (∅, []) "5-6"
    = Done (foldl (classify (<["6" := "F"]> ∅)) (∅, []) ids)
    ∧ ids = ["5"; "6"].
Proof.
  destruct (range_ids_canonical (<["6" := "F"]> ∅) (∅, []) "5-6" 5 6)
    as (ids & H1 & H2 & H3 & _); [reflexivity|].
  exists ids. split; [exact H1|].
  destruct ids as [|i0 [|i1 [|i2 ids]]]; try discriminate H2.
  pose proof (H3 0%nat (Nat.lt_0_succ _)) as E0.
  pose proof (H3 1%nat (proj1 (Nat.succ_lt_mono _ _) (Nat.lt_0_succ _))) as E1.
  injection E0 as ->. injection E1 as ->. reflexivity.
Defined.

(** The catalog id ["007"] is passed over by the range that contains 7. *)
Example range_misses_padded_id :
  process_part (<["007" := "Bond"]> ∅) (∅, []) "6-8" = Done (∅, ["6"; "7"; "8"]).
Proof. vm_compute. reflexivity. Qed.

End ResolverMore.

(** ** Further properties of the giveaway engine *)

Module EngineMore.
Import Engine EngineSpec EngineInv EngineFacts PyFacts.

(** *** The winner *)

Lemma end_giveaway_nobody (w : World) (giveaway_id : string) (c : Cog)
    (g : Giveaway) :
  giveaways c !! giveaway_id = Some g →
  participants g = [] → reachable w g → send_ok w = true →
  ∃ ch rest, sent (end_giveaway w giveaway_id c)
             = sent c ++ Send ch (NoParticipantsPost giveaway_id) :: rest.
Proof.
  intros Hg Hp (cs & ms & ch & m & Hc & Hm & Hci & Hmi & Hch & Hf) Hsend.
  unfold end_giveaway, end_giveaway_body. rewrite Hg. simpl.
  rewrite Hc, Hm, (int_truthy _ _ Hci), (int_truthy _ _ Hmi). simpl.
  rewrite Hci, Hch, Hmi. simpl.
  unfold announce, send, edit_message. simpl. rewrite Hp, Hsend. simpl.
  exists ch.
  destruct (fetch_message w ch m) as [[]| |]; [| | |done];
    destruct (edit_ok w); simpl; rewrite ?sent_save; simpl;
    eexists; rewrite <- ?app_assoc; simpl; reflexivity.
Qed.

(** X1. Whatever [end_giveaway] announces for a known giveaway, it
    announces at most one winner, for this giveaway, and the winner is one
    of its participants. Without participants no winner is announced,
    and where the place of announcement can be reached the "nobody took
    part" message is posted instead; with participants, there, a winner
    is announced. *)
Theorem winner_is_participant (w : World) (giveaway_id : string) (c : Cog)
    (g : Giveaway) :
  giveaways c !! giveaway_id = Some g →
  ∃ new,
    sent (end_giveaway w giveaway_id c) = sent c ++ new
    ∧ (winner_posts new ≤ 1)%nat
    ∧ (∀ ch id winner prize gif,
         Send ch (WinnerPost id winner prize gif) ∈ new →
         id = giveaway_id ∧ winner ∈ participants g)
    ∧ (participants g = [] →
         winner_posts new = 0%nat
         ∧ (reachable w g → send_ok w = true →
            ∃ ch rest, new = Send ch (NoParticipantsPost giveaway_id) :: rest))
    ∧ (participants g ≠ [] → reachable w g → send_ok w = true →
         winner_posts new = 1%nat).
Proof.
  intros Hg.
  destruct (end_giveaway_effect w giveaway_id c g Hg)
    as (_ & _ & _ & _ & _ & _ & new & Hsent & Hle & Hnone & Hpost).
  exists new. split_and!; try done.
  - intros ch id winner prize gif Hin.
    destruct (Hpost ch id winner prize gif Hin) as (? & ? & _). done.
  - intros Hp. split; [by apply Hnone|]. intros Hr Hs.
    destruct (end_giveaway_nobody w giveaway_id c g Hg Hp Hr Hs)
      as (ch & rest & Hsent').
    rewrite Hsent in Hsent'. apply app_inv_head in Hsent'. eauto.
  - intros Hp Hr Hs.
    destruct (end_giveaway_announces w giveaway_id c g Hg Hp Hr Hs)
      as (new' & Hsent' & Hone).
    rewrite Hsent in Hsent'. apply app_inv_head in Hsent'. by subst.
Qed.

Lemma winner_is_participant_witness :
  ∃ new,
    sent (end_giveaway Scenario.world Scenario.gid Scenario.cog)
    = sent Scenario.cog ++ new
    ∧ winner_posts new = 1%nat
    ∧ ∀ ch id winner prize gif,
        Send ch (WinnerPost id winner prize gif) ∈ new → winner = "42".
Proof.
  destruct (winner_is_participant Scenario.world Scenario.gid Scenario.cog
              Scenario.box eq_refl) as (new & H1 & _ & H3 & _ & H5).
  exists new. split; [exact H1|]. split.
  - apply H5; [discriminate | apply scenario_reachable | reflexivity].
  - intros ch id winner prize gif Hin.
    destruct (H3 ch id winner prize gif Hin) as [_ Hw].
    apply list_elem_of_singleton in Hw. exact Hw.
Defined.

(** *** Cancellation *)

Lemma update_cancelled_message_sends (w : World) (g : Giveaway) (c : Cog) :
  let c' := match update_cancelled_message w g c with
            | Done c' => c'
            | Raised _ c' => logged ErrorUpdatingCancelled c'
            end in
  giveaways_file c' = giveaways_file c
  ∧ ∃ new, sent c' = sent c ++ new ∧ Forall (λ e, is_post e = false) new.
Proof.
  unfold update_cancelled_message, edit_message.
  repeat case_match; simplify_eq; simpl; (split; [done|]).
  all: first [ exists []; split; [by rewrite app_nil_r | by constructor]
             | eexists [_]; split; [reflexivity | by repeat constructor] ].
Qed.

(** X3. [/cancelgiveaway] by an administrator on an open giveaway marks
    it ended, takes its handle out of the table, asks its pending timer to
    cancel, tells the caller "cancelled" last, and posts nothing in the
    channel on the way: no winner and no "nobody took part", only the
    rewriting of the original message. With a working disk the file then
    holds what is in memory. *)
Theorem cancel_giveaway_outcome (w : World) (i : Interaction)
    (giveaway_id : string) (c : Cog) (g : Giveaway) :
  giveaways c !! giveaway_id = Some g → ended g = false → admin_ok i c = true →
  let c' := cancel_giveaway w i giveaway_id c in
  giveaways c' = <[giveaway_id := set_ended true g]> (giveaways c)
  ∧ active_giveaways c' = delete giveaway_id (active_giveaways c)
  ∧ (∀ h co, active_giveaways c !! giveaway_id = Some h →
             tasks c !! h = Some {| coro := co; status := Pending |} →
             tasks c' !! h = Some {| coro := co; status := CancelRequested |})
  ∧ (∃ new, sent c' = sent c ++ new ++ [Reply Cancelled]
            ∧ Forall (λ e, is_post e = false) new)
  ∧ (disk_ok w = true → synced c').
Proof.
  intros Hg Hopen Hadmin c'. unfold c', cancel_giveaway.
  destruct (is_admin_cases i c) as [[_ ->]|[Hno _]]; [|congruence]. simpl.
  rewrite Hg, Hopen.
  set (c1 := match active_giveaways c !! giveaway_id with
             | Some h => with_active (delete giveaway_id (active_giveaways c))
                                     (cancel h c)
             | None => c
             end).
  assert (giveaways c1 = giveaways c ∧ sent c1 = sent c
          ∧ active_giveaways c1 = delete giveaway_id (active_giveaways c)
          ∧ (∀ h co, active_giveaways c !! giveaway_id = Some h →
               tasks c !! h = Some {| coro := co; status := Pending |} →
               tasks c1 !! h = Some {| coro := co; status := CancelRequested |}))
    as (G1 & S1 & A1 & T1).
  { unfold c1. destruct (active_giveaways c !! giveaway_id) as [h|] eqn:Ha; simpl.
    - destruct (cancel_keeps h c) as (K1 & _ & _ & _ & _ & K6 & _).
      split_and!; try done. intros h' co [= <-] Hco. unfold cancel. rewrite Hco.
      simpl. apply list_lookup_insert_eq. by eapply lookup_lt_Some.
    - split_and!; try done. by rewrite delete_id. }
  set (c2 := save_giveaways w (update_giveaway giveaway_id (set_ended true g) c1)).
  destruct (update_cancelled_message_keeps w (set_ended true g) c2) as (U1 & U2 & U3).
  destruct (update_cancelled_message_sends w (set_ended true g) c2)
    as (U4 & new & U5 & U6).
  set (c3 := match update_cancelled_message w (set_ended true g) c2 with
             | Done c' => c'
             | Raised _ c' => logged ErrorUpdatingCancelled c'
             end) in *.
  cbn [giveaways active_giveaways tasks sent giveaways_file logged emit] in *.
  assert (giveaways c2 = <[giveaway_id := set_ended true g]> (giveaways c)) as G2.
  { unfold c2. rewrite giveaways_save. simpl. by rewrite G1. }
  rewrite U1, U2, U3, U5, G2.
  unfold c2 at 1 2 3. rewrite active_save, tasks_save, sent_save. simpl.
  rewrite A1, S1. split_and!; try done.
  - exists new. split; [by rewrite <- app_assoc|done].
  - intros Hdisk. unfold synced.
    cbn [giveaways giveaways_file logged emit]. rewrite U4, U1, G2.
    unfold c2, save_giveaways. rewrite Hdisk. simpl. by rewrite G1.
Qed.

(** *** Timers run once *)

Lemma end_giveaway_tasks (w : World) (giveaway_id : string) (c : Cog) :
  tasks (end_giveaway w giveaway_id c) = tasks c.
Proof.
  destruct (giveaways c !! giveaway_id) as [g|] eqn:Hg.
  - by destruct (end_giveaway_effect w giveaway_id c g Hg) as (_ & _ & _ & _ & -> & _).
  - by rewrite end_giveaway_unknown.
Qed.

(** Once the event loop has run the task [h], coming to it again, in any
    world, changes nothing. *)
Lemma run_task_once (w w' : World) (h : nat) (c : Cog) :
  run_task w' h (run_task w h c) = run_task w h c.
Proof.
  destruct (tasks c !! h) as [[co st]|] eqn:Ht.
  - assert (h < length (tasks c))%nat as Hlt by (by eapply lookup_lt_Some).
    destruct st.
    + assert (tasks (match co with
                     | ScheduleGiveawayEnd giveaway_id _ =>
                         end_giveaway w giveaway_id (finish h co c)
                     | EndGiveaway giveaway_id =>
                         end_giveaway w giveaway_id (finish h co c)
                     end) !! h = Some {| coro := co; status := Finished |}) as Hfin.
      { destruct co; rewrite end_giveaway_tasks; simpl;
          apply list_lookup_insert_eq; exact Hlt. }
      unfold run_task. rewrite Ht. simpl. by rewrite Hfin.
    + assert (tasks (match co with
                     | ScheduleGiveawayEnd giveaway_id _ =>
                         logged (InfoTaskCancelled giveaway_id) (finish h co c)
                     | EndGiveaway _ => finish h co c
                     end) !! h = Some {| coro := co; status := Finished |}) as Hfin.
      { destruct co; simpl; apply list_lookup_insert_eq; exact Hlt. }
      unfold run_task. rewrite Ht. simpl. by rewrite Hfin.
    + unfold run_task. rewrite Ht. simpl. by rewrite Ht.
  - unfold run_task. rewrite Ht. simpl. by rewrite Ht.
Qed.

Lemma cancel_pending (h : nat) (co : coroutine) (c : Cog) :
  tasks c !! h = Some {| coro := co; status := Pending |} →
  tasks (cancel h c) !! h = Some {| coro := co; status := CancelRequested |}.
Proof.
  intros Hh. unfold cancel. rewrite Hh. simpl.
  apply list_lookup_insert_eq. by eapply lookup_lt_Some.
Qed.

Lemma run_cancelled_timer (w : World) (h : nat) (giveaway_id : string)
    (seconds : Z) (c : Cog) :
  let co := ScheduleGiveawayEnd giveaway_id seconds in
  tasks c !! h = Some {| coro := co; status := CancelRequested |} →
  let c1 := run_task w h c in
  c1 = logged (InfoTaskCancelled giveaway_id) (finish h co c)
  ∧ giveaways c1 = giveaways c ∧ active_giveaways c1 = active_giveaways c
  ∧ giveaways_file c1 = giveaways_file c ∧ sent c1 = sent c
  ∧ log c1 = log c ++ [InfoTaskCancelled giveaway_id]
  ∧ tasks c1 = <[h := {| coro := co; status := Finished |}]> (tasks c).
Proof.
  intros co Hh c1. unfold c1, run_task. rewrite Hh. simpl. by split_and!.
Qed.

(** X4. The turn of a timer, [schedule_giveaway_end]. A pending timer
    whose sleep is over runs [end_giveaway] on its giveaway and is
    finished, and the giveaway is ended. A timer that [/cancelgiveaway],
    [/endgiveaway] or an accepted [/setexacttime] asked to cancel during
    its sleep writes "was cancelled" in the log and does nothing else: no
    giveaway, table, file or message changes. In both cases the task is
    finished and the loop coming to it again changes nothing. *)
Theorem timer_turn (w w' : World) (i : Interaction)
    (giveaway_id date time : string) (h : nat) (seconds t : Z) (c : Cog)
    (g : Giveaway) :
  let co := ScheduleGiveawayEnd giveaway_id seconds in
  tasks c !! h = Some {| coro := co; status := Pending |} →
  active_giveaways c !! giveaway_id = Some h →
  giveaways c !! giveaway_id = Some g → ended g = false →
  admin_ok i c = true →
  parse_end_time date time = Ok t → now w < t →
  (let fired := run_task w' h c in
   fired = end_giveaway w' giveaway_id (finish h co c)
   ∧ tasks fired !! h = Some {| coro := co; status := Finished |}
   ∧ ended <$> giveaways fired !! giveaway_id = Some true
   ∧ ∀ w'', run_task w'' h fired = fired)
  ∧ ∀ c0,
      c0 = cancel_giveaway w i giveaway_id c
      ∨ c0 = end_giveaway_command w i giveaway_id c
      ∨ c0 = set_exact_time w i giveaway_id date time c →
      let c1 := run_task w' h c0 in
      tasks c0 !! h = Some {| coro := co; status := CancelRequested |}
      ∧ c1 = logged (InfoTaskCancelled giveaway_id) (finish h co c0)
      ∧ giveaways c1 = giveaways c0 ∧ active_giveaways c1 = active_giveaways c0
      ∧ giveaways_file c1 = giveaways_file c0 ∧ sent c1 = sent c0
      ∧ log c1 = log c0 ++ [InfoTaskCancelled giveaway_id]
      ∧ tasks c1 !! h = Some {| coro := co; status := Finished |}
      ∧ ∀ w'', run_task w'' h c1 = c1.
Proof.
  intros co Hh Ha Hg Hopen Hadmin Hparse Hfuture.
  assert (h < length (tasks c))%nat as Hlt by (by eapply lookup_lt_Some).
  pose proof (cancel_pending h co c Hh) as Hcancel. split.
  - intros fired.
    assert (fired = end_giveaway w' giveaway_id (finish h co c)) as Hf.
    { unfold fired, run_task. by rewrite Hh. }
    split_and!; [done| | |].
    + rewrite Hf, end_giveaway_tasks. simpl. by apply list_lookup_insert_eq.
    + rewrite Hf.
      destruct (end_giveaway_effect w' giveaway_id (finish h co c) g)
        as (Eg & _); [done|].
      by rewrite Eg, lookup_insert_eq.
    + intros w''. apply run_task_once.
  - intros c0 Hc0 c1.
    assert (tasks c0 !! h = Some {| coro := co; status := CancelRequested |}) as Hreq.
    { destruct Hc0 as [->|[->| ->]].
      - unfold cancel_giveaway.
        destruct (is_admin_cases i c) as [[_ ->]|[Hno _]]; [|congruence]. simpl.
        rewrite Hg, Hopen, Ha. simpl.
        match goal with
        | |- context [update_cancelled_message ?w ?g ?c] =>
            destruct (update_cancelled_message_keeps w g c) as (_ & _ & U3)
        end.
        simpl in U3. rewrite U3, tasks_save. simpl. exact Hcancel.
      - unfold end_giveaway_command.
        destruct (is_admin_cases i c) as [[_ ->]|[Hno _]]; [|congruence]. simpl.
        rewrite Hg, Hopen, end_giveaway_tasks. simpl.
        unfold cancel_scheduled. by rewrite Ha.
      - unfold set_exact_time.
        destruct (is_admin_cases i c) as [[_ ->]|[Hno _]]; [|congruence]. simpl.
        rewrite Hg, Hopen, Hparse, (proj2 (Z.leb_gt _ _) Hfuture).
        match goal with
        | |- context [update_end_time_message ?w ?g ?t ?c] =>
            destruct (update_end_time_message_keeps w g t c) as (_ & _ & U3 & _)
        end.
        simpl in *. rewrite U3. simpl. rewrite tasks_save. simpl.
        rewrite lookup_app_l.
        + unfold cancel_scheduled. by rewrite Ha.
        + unfold cancel_scheduled. rewrite Ha.
          by destruct (cancel_keeps h c) as (_ & _ & _ & _ & _ & _ & _ & _ & ->). }
    destruct (run_cancelled_timer w' h giveaway_id seconds c0 Hreq)
      as (R1 & R2 & R3 & R4 & R5 & R6 & R7).
    fold c1 in R1, R2, R3, R4, R5, R6, R7.
    split_and!; try done.
    + rewrite R7. apply list_lookup_insert_eq. by eapply lookup_lt_Some.
    + intros w''. apply run_task_once.
Qed.

Lemma timer_turn_witness :
  let c0 := cancel_giveaway Scenario.world Scenario.admin Scenario.gid Scenario.cog in
  let c1 := run_task Scenario.world 0 c0 in
  ended <$> giveaways (run_task Scenario.world 0 Scenario.cog) !! Scenario.gid
  = Some true
  ∧ sent c1 = sent c0
  ∧ log c1 = log c0 ++ [InfoTaskCancelled Scenario.gid].
Proof.
  intros c0 c1.
  destruct (timer_turn Scenario.world Scenario.world Scenario.admin Scenario.gid
              "25.12.2025" "18:30" 0%nat 4000000 (1766687400 * 1000000)
              Scenario.cog Scenario.box)
    as [(_ & _ & H1 & _) H2]; try reflexivity.
  split; [exact H1|].
  destruct (H2 c0 (or_introl eq_refl)) as (_ & _ & _ & _ & _ & H3 & H4 & _).
  split; [exact H3|exact H4].
Defined.

(** *** The state of the timers *)

Lemma winners_for_app (id : string) (l1 l2 : list event) :
  winners_for id (l1 ++ l2) = (winners_for id l1 + winners_for id l2)%nat.
Proof. unfold winners_for. by rewrite filter_app, length_app. Qed.

Lemma winners_for_quiet (id : string) (l : list event) :
  Forall (λ e, is_winner_post e = false) l → winners_for id l = 0%nat.
Proof.
  unfold winners_for. induction 1 as [|e l He _ IH]; [done|].
  rewrite filter_cons_False; [done|].
  destruct e as [| ? [] |]; simpl in *; congruence.
Qed.

Lemma winners_for_le (id : string) (l : list event) :
  (winners_for id l ≤ winner_posts l)%nat.
Proof.
  unfold winners_for, winner_posts. induction l as [|e l IH]; [done|].
  destruct (is_winner_of id e) eqn:He.
  - rewrite filter_cons_True by done.
    rewrite (filter_cons_True (λ e, is_winner_post e = true)).
    + simpl. lia.
    + destruct e as [| ? [] |]; simpl in *; congruence.
  - rewrite filter_cons_False by congruence.
    destruct (is_winner_post e) eqn:He'.
    + rewrite filter_cons_True by done. simpl. lia.
    + rewrite filter_cons_False by congruence. done.
Qed.

Lemma winners_for_other (id id' : string) (l : list event) :
  (∀ ch i winner prize gif, Send ch (WinnerPost i winner prize gif) ∈ l → i = id') →
  id ≠ id' → winners_for id l = 0%nat.
Proof.
  intros Hall Hne. unfold winners_for.
  induction l as [|e l IH]; [done|].
  rewrite filter_cons_False.
  - apply IH. intros. eapply Hall. by apply list_elem_of_further.
  - destruct e as [| ch [| i winner prize gif |] |]; simpl; try congruence.
    rewrite bool_decide_eq_false_2; [congruence|].
    intros ->. apply Hne. eapply Hall. apply list_elem_of_here.
Qed.

(** Soundness looks at the giveaways, the table, the tasks and the events
    sent only. *)
Lemma sound_ext (c c' : Cog) :
  giveaways c' = giveaways c → active_giveaways c' = active_giveaways c →
  tasks c' = tasks c → sent c' = sent c → sound c → sound c'.
Proof.
  intros Hg Ha Ht Hs [H1 H2]. split.
  - intros h t. rewrite Ht, Ha, Hg. apply H1.
  - intros id. rewrite Hs, Hg. apply H2.
Qed.

(** A step that leaves table and tasks alone, keeps every giveaway as open
    or as ended as it was, and announces no winner. *)
Lemma sound_quiet (c c' : Cog) :
  sound c →
  tasks c' = tasks c → active_giveaways c' = active_giveaways c →
  (∀ id g, giveaways c !! id = Some g →
           ∃ g', giveaways c' !! id = Some g' ∧ ended g' = ended g) →
  (∃ new, sent c' = sent c ++ new ∧ Forall (λ e, is_winner_post e = false) new) →
  sound c'.
Proof.
  intros [H1 H2] Ht Ha Hg (new & Hs & Hq). split.
  - intros h t. rewrite Ht, Ha. intros Hh Hp.
    destruct (H1 h t Hh Hp) as (Hr & g & Hk & Ho). split; [done|].
    destruct (Hg _ g Hk) as (g' & Hk' & He). exists g'. split; [done|]. congruence.
  - intros id. rewrite Hs, winners_for_app, (winners_for_quiet id new Hq).
    rewrite Nat.add_0_r. destruct (H2 id) as [Hle Hen]. split; [done|].
    intros Hone. destruct (Hen Hone) as (g & Hk & He).
    destruct (Hg id g Hk) as (g' & Hk' & He'). exists g'. split; [done|]. congruence.
Qed.

(** Taking a pending task out of the pending ones: the rest is sound, and
    no pending task is left for its giveaway. *)
Lemma sound_unpend (c : Cog) (h : nat) (co : coroutine) (st : task_status) :
  sound c → tasks c !! h = Some {| coro := co; status := Pending |} →
  st ≠ Pending →
  let c0 := with_tasks (<[h := {| coro := co; status := st |}]> (tasks c)) c in
  sound c0
  ∧ ∀ h' t', tasks c0 !! h' = Some t' → status t' = Pending →
             target (coro t') ≠ target co.
Proof.
  intros [H1 H2] Hh Hst c0.
  assert (∀ h' t', tasks c0 !! h' = Some t' → status t' = Pending →
                   h' ≠ h ∧ tasks c !! h' = Some t') as Hold.
  { intros h' t'. unfold c0. simpl. intros Hh' Hp.
    destruct (decide (h' = h)) as [->|Hne].
    - rewrite list_lookup_insert_eq in Hh' by (by eapply lookup_lt_Some).
      injection Hh' as <-. simpl in Hp. congruence.
    - rewrite list_lookup_insert_ne in Hh' by done. done. }
  split; [split|].
  - intros h' t' Hh' Hp. destruct (Hold h' t' Hh' Hp) as [_ Hc].
    apply (H1 h' t' Hc Hp).
  - apply H2.
  - intros h' t' Hh' Hp Heq. destruct (Hold h' t' Hh' Hp) as [Hne Hc].
    destruct (H1 h' t' Hc Hp) as [Hr _]. destruct (H1 h _ Hh eq_refl) as [Hr' _].
    simpl in Hr'. rewrite Heq in Hr. congruence.
Qed.

(** Ending an open giveaway that no pending task works on. *)
Lemma end_giveaway_sound (w : World) (giveaway_id : string) (c : Cog) (g : Giveaway) :
  sound c →
  (∀ h t, tasks c !! h = Some t → status t = Pending →
          target (coro t) ≠ giveaway_id) →
  giveaways c !! giveaway_id = Some g → ended g = false →
  sound (end_giveaway w giveaway_id c).
Proof.
  intros [H1 H2] Hfree Hg Hopen.
  destruct (end_giveaway_effect w giveaway_id c g Hg)
    as (Eg & _ & _ & _ & Et & Ea & new & Es & Ele & _ & Epost).
  split.
  - intros h t. rewrite Et. intros Hh Hp.
    pose proof (Hfree h t Hh Hp) as Hne.
    destruct (H1 h t Hh Hp) as (Hr & g' & Hk & Ho). split.
    + destruct Ea as [-> | ->]; [done|]. by rewrite lookup_delete_ne.
    + exists g'. rewrite Eg. by rewrite lookup_insert_ne.
  - intros id. rewrite Es, winners_for_app, Eg.
    destruct (H2 id) as [Hle Hen].
    destruct (decide (id = giveaway_id)) as [->|Hne].
    + assert (winners_for giveaway_id (sent c) = 0%nat) as Hzero.
      { destruct (winners_for giveaway_id (sent c)) as [|n] eqn:Hn; [done|].
        destruct Hen as (g' & Hk & He); [lia|]. congruence. }
      rewrite Hzero. pose proof (winners_for_le giveaway_id new). split; [lia|].
      intros _. exists (set_ended true g). split; [apply lookup_insert_eq|done].
    + rewrite (winners_for_other id giveaway_id new); [|by intros; eapply Epost|done].
      rewrite Nat.add_0_r. split; [done|]. intros Hone.
      destruct (Hen Hone) as (g' & Hk & He). exists g'.
      by rewrite lookup_insert_ne.
Qed.

Lemma sound_emit (c : Cog) (e : event) :
  is_winner_post e = false → sound c → sound (emit e c).
Proof.
  intros He Hs. apply (sound_quiet c); try done.
  - intros id g Hg. by exists g.
  - exists [e]. split; [done|]. by repeat constructor.
Qed.

Lemma sound_logged (c : Cog) (l : log_entry) : sound c → sound (logged l c).
Proof. by apply sound_ext. Qed.

Lemma sound_save (w : World) (c : Cog) : sound c → sound (save_giveaways w c).
Proof.
  apply sound_ext; [apply giveaways_save|apply active_save|apply tasks_save|
                    apply sent_save].
Qed.

(** Rewriting the record of an open giveaway into an open one. *)
Lemma sound_update_open (c : Cog) (id : string) (g g' : Giveaway) :
  sound c → giveaways c !! id = Some g → ended g = false → ended g' = false →
  sound (update_giveaway id g' c).
Proof.
  intros Hs Hg Ho Ho'. apply (sound_quiet c); try done.
  - intros id0 g0 Hg0. simpl. destruct (decide (id = id0)) as [->|Hne].
    + rewrite lookup_insert_eq. exists g'. split; [done|]. congruence.
    + rewrite lookup_insert_ne by done. by exists g0.
  - exists []. split; [by rewrite app_nil_r|constructor].
Qed.

Lemma sound_is_admin (i : Interaction) (c : Cog) : sound c → sound (is_admin i c).2.
Proof.
  intros Hs. destruct (is_admin_cases i c) as [[_ ->]|[_ [r ->]]]; [done|].
  by apply sound_emit.
Qed.

Lemma add_participant_sound (w : World) (i : Interaction) (giveaway_id : string)
    (c : Cog) :
  sound c → sound (add_participant w i giveaway_id c).
Proof.
  intros Hs. unfold add_participant. rewrite button_guild_check.
  destruct (guild_allowed i c); simpl; [|by apply sound_emit].
  destruct (giveaways c !! giveaway_id) as [g|] eqn:Hg; [|by apply sound_emit].
  destruct (ended g) eqn:He; [by apply sound_emit|].
  case_bool_decide; [by apply sound_emit|].
  apply sound_logged, sound_emit; [done|]. apply sound_save.
  by eapply sound_update_open.
Qed.

Lemma attach_gif_sound (w : World) (i : Interaction) (giveaway_id gif_id : string)
    (c : Cog) :
  sound c → sound (attach_gif w i giveaway_id gif_id c).
Proof.
  intros Hs. unfold attach_gif.
  destruct (is_admin_cases i c) as [[_ ->]|[_ [r ->]]]; simpl;
    [|by apply sound_emit].
  destruct (giveaways c !! giveaway_id) as [g|] eqn:Hg; [|by apply sound_emit].
  case_match; [by apply sound_emit|].
  destruct (ended g) eqn:He; [by apply sound_emit|].
  apply sound_logged, sound_emit; [done|]. apply sound_save.
  by eapply sound_update_open.
Qed.

Lemma assign_prizes_sound (w : World) (i : Interaction)
    (giveaway_id prize_ids : string) (c : Cog) :
  sound c → sound (final (assign_prizes w i giveaway_id prize_ids c)).
Proof.
  intros Hs. unfold assign_prizes.
  destruct (is_admin_cases i c) as [[_ ->]|[_ [r ->]]]; simpl;
    [|by apply sound_emit].
  destruct (giveaways c !! giveaway_id) as [g|] eqn:Hg; [|by apply sound_emit].
  destruct (ended g) eqn:He; [by apply sound_emit|].
  destruct (Resolver.parse_prize_ids prize_ids (prizes c)) as [[a m]|]; [|done].
  case_bool_decide; [by apply sound_emit|]. simpl.
  apply sound_logged, sound_emit; [done|]. apply sound_save.
  by eapply sound_update_open.
Qed.

(** Asking the timer of a giveaway to cancel. *)
Lemma cancel_scheduled_sound (giveaway_id : string) (c : Cog) :
  sound c →
  sound (cancel_scheduled giveaway_id c)
  ∧ ∀ h t, tasks (cancel_scheduled giveaway_id c) !! h = Some t →
           status t = Pending → target (coro t) ≠ giveaway_id.
Proof.
  intros Hs. unfold cancel_scheduled, cancel.
  assert (∀ h0, active_giveaways c !! giveaway_id = Some h0 →
                (∀ co, tasks c !! h0 ≠ Some {| coro := co; status := Pending |}) →
                ∀ h t, tasks c !! h = Some t → status t = Pending →
                       target (coro t) ≠ giveaway_id) as Hstale.
  { intros h0 Ha Hnot h t Hh Hp Heq.
    destruct (pending_registered c Hs h t Hh Hp) as [Hr _].
    rewrite Heq, Ha in Hr. injection Hr as ->. destruct t as [co st].
    simpl in Hp. subst st. by apply (Hnot co). }
  destruct (active_giveaways c !! giveaway_id) as [h0|] eqn:Ha.
  - destruct (tasks c !! h0) as [[co st]|] eqn:Ht.
    + destruct st.
      * destruct (sound_unpend c h0 co CancelRequested Hs Ht) as [Hs' Hfree];
          [done|].
        split; [done|]. intros h t Hh Hp Heq.
        assert (h ≠ h0 ∧ tasks c !! h = Some t) as [Hne Hc].
        { simpl in Hh. destruct (decide (h = h0)) as [->|Hne].
          - rewrite list_lookup_insert_eq in Hh by (by eapply lookup_lt_Some).
            injection Hh as <-. simpl in Hp. congruence.
          - by rewrite list_lookup_insert_ne in Hh. }
        destruct (pending_registered c Hs h t Hc Hp) as [Hr _].
        rewrite Heq, Ha in Hr. congruence.
      * split; [done|]. apply (Hstale h0 eq_refl). congruence.
      * split; [done|]. apply (Hstale h0 eq_refl). congruence.
    + split; [done|]. apply (Hstale h0 eq_refl). congruence.
  - split; [done|]. intros h t Hh Hp Heq.
    destruct (pending_registered c Hs h t Hh Hp) as [Hr _].
    rewrite Heq, Ha in Hr. congruence.
Qed.

(** A new pending timer for an open giveaway that no pending task works
    on, put in the table. *)
Lemma sound_new_timer (c : Cog) (giveaway_id : string) (g : Giveaway) (seconds : Z) :
  sound c →
  (∀ h t, tasks c !! h = Some t → status t = Pending →
          target (coro t) ≠ giveaway_id) →
  giveaways c !! giveaway_id = Some g → ended g = false →
  sound (with_active (<[giveaway_id := length (tasks c)]> (active_giveaways c))
           (with_tasks (tasks c ++ [{| coro := ScheduleGiveawayEnd giveaway_id seconds;
                                       status := Pending |}]) c)).
Proof.
  intros [H1 H2] Hfree Hg Ho. split; [|done].
  intros h t. simpl. intros Hh Hp.
  apply lookup_app_Some in Hh as [Hh|[Hlen Hh]].
  - pose proof (Hfree h t Hh Hp) as Hne.
    rewrite lookup_insert_ne by done. by apply H1.
  - apply list_lookup_singleton_Some in Hh as [Hz <-]. simpl.
    rewrite lookup_insert_eq. split; [f_equal; lia|]. eauto.
Qed.

Lemma update_end_time_message_quiet (w : World) (g : Giveaway) (t : Z) (c : Cog) :
  let c' := match update_end_time_message w g t c with
            | Done c' => c'
            | Raised _ c' => logged ErrorUpdatingEndTime c'
            end in
  ∃ new, sent c' = sent c ++ new ∧ Forall (λ e, is_winner_post e = false) new.
Proof.
  unfold update_end_time_message, edit_message.
  repeat case_match; simplify_eq; simpl.
  all: first [ exists []; split; [by rewrite app_nil_r | by constructor]
             | eexists [_]; split; [reflexivity | by repeat constructor] ].
Qed.

Lemma set_exact_time_sound (w : World) (i : Interaction)
    (giveaway_id date time : string) (c : Cog) :
  sound c → sound (set_exact_time w i giveaway_id date time c).
Proof.
  intros Hs. unfold set_exact_time.
  destruct (is_admin_cases i c) as [[_ ->]|[_ [r ->]]]; simpl;
    [|by apply sound_emit].
  destruct (giveaways c !! giveaway_id) as [g|] eqn:Hg; [|by apply sound_emit].
  destruct (ended g) eqn:He; [by apply sound_emit|].
  destruct (parse_end_time date time) as [t|[]];
    try (by apply sound_emit); try (by apply sound_emit, sound_logged).
  destruct (t <=? now w); [by apply sound_emit|].
  destruct (cancel_scheduled_sound giveaway_id c Hs) as [Hs1 Hfree1].
  destruct (cancel_scheduled_keeps giveaway_id c) as (K1 & _).
  set (c1 := cancel_scheduled giveaway_id c) in *.
  set (c2 := save_giveaways w (update_giveaway giveaway_id (set_end_time t g) c1)).
  assert (sound c2) as Hs2.
  { apply sound_save. eapply sound_update_open; try done. by rewrite K1. }
  assert (tasks c2 = tasks c1) as Ht2 by (unfold c2; by rewrite tasks_save).
  assert (active_giveaways c2 = active_giveaways c1) as Ha2
    by (unfold c2; by rewrite active_save).
  assert (giveaways c2 !! giveaway_id = Some (set_end_time t g)) as Hg2.
  { unfold c2. rewrite giveaways_save. simpl. apply lookup_insert_eq. }
  pose proof (sound_new_timer c2 giveaway_id (set_end_time t g) (t - now w) Hs2)
    as Hs3.
  rewrite Ht2 in Hs3. specialize (Hs3 Hfree1 Hg2 He).
  simpl. rewrite Ht2.
  match goal with
  | |- context [update_end_time_message ?w ?g ?t ?c] =>
      set (c3 := c) in *;
      destruct (update_end_time_message_keeps w g t c3) as (U1 & U2 & U3 & _);
      destruct (update_end_time_message_quiet w g t c3) as (new & U5 & U6)
  end.
  apply sound_logged, sound_emit; [done|].
  eapply (sound_quiet c3); try done.
  - intros id g0 Hg0. simpl in U1. rewrite U1. by exists g0.
  - by exists new.
Qed.

Lemma update_cancelled_message_quiet (w : World) (g : Giveaway) (c : Cog) :
  let c' := match update_cancelled_message w g c with
            | Done c' => c'
            | Raised _ c' => logged ErrorUpdatingCancelled c'
            end in
  ∃ new, sent c' = sent c ++ new ∧ Forall (λ e, is_winner_post e = false) new.
Proof.
  unfold update_cancelled_message, edit_message.
  repeat case_match; simplify_eq; simpl.
  all: first [ exists []; split; [by rewrite app_nil_r | by constructor]
             | eexists [_]; split; [reflexivity | by repeat constructor] ].
Qed.

(** Marking ended a giveaway that no pending task works on. *)
Lemma sound_mark_ended (c : Cog) (giveaway_id : string) (g : Giveaway) :
  sound c →
  (∀ h t, tasks c !! h = Some t → status t = Pending →
          target (coro t) ≠ giveaway_id) →
  giveaways c !! giveaway_id = Some g →
  sound (update_giveaway giveaway_id (set_ended true g) c).
Proof.
  intros [H1 H2] Hfree Hg. split.
  - intros h t. simpl. intros Hh Hp. pose proof (Hfree h t Hh Hp) as Hne.
    rewrite lookup_insert_ne by done. by apply H1.
  - intros id. simpl. destruct (H2 id) as [Hle Hen]. split; [done|].
    intros Hone. destruct (decide (giveaway_id = id)) as [->|Hne].
    + rewrite lookup_insert_eq. eauto.
    + rewrite lookup_insert_ne by done. by apply Hen.
Qed.

Lemma cancel_giveaway_sound (w : World) (i : Interaction) (giveaway_id : string)
    (c : Cog) :
  sound c → sound (cancel_giveaway w i giveaway_id c).
Proof.
  intros Hs. unfold cancel_giveaway.
  destruct (is_admin_cases i c) as [[_ ->]|[_ [r ->]]]; simpl;
    [|by apply sound_emit].
  destruct (giveaways c !! giveaway_id) as [g|] eqn:Hg; [|by apply sound_emit].
  destruct (ended g) eqn:He; [by apply sound_emit|].
  set (c1 := match active_giveaways c !! giveaway_id with
             | Some h => with_active (delete giveaway_id (active_giveaways c))
                                     (cancel h c)
             | None => c
             end).
  assert (sound c1
          ∧ (∀ h t, tasks c1 !! h = Some t → status t = Pending →
                    target (coro t) ≠ giveaway_id)
          ∧ giveaways c1 = giveaways c) as (Hs1 & Hfree1 & Hg1).
  { destruct (cancel_scheduled_sound giveaway_id c Hs) as [Hs' Hfree'].
    unfold c1. unfold cancel_scheduled in Hs', Hfree'.
    destruct (active_giveaways c !! giveaway_id) as [h0|] eqn:Ha; [|done].
    destruct (cancel_keeps h0 c) as (K1 & _ & _ & _ & K5 & K6 & _).
    split_and!; [|done|done].
    destruct Hs' as [H1 H2]. split.
    - intros h t. simpl. intros Hh Hp. pose proof (Hfree' h t Hh Hp) as Hne.
      rewrite lookup_delete_ne by done. rewrite <- K5. by apply H1.
    - intros id. simpl. apply H2. }
  set (c2 := save_giveaways w (update_giveaway giveaway_id (set_ended true g) c1)).
  assert (sound c2) as Hs2.
  { apply sound_save. apply sound_mark_ended; try done. by rewrite Hg1. }
  destruct (update_cancelled_message_keeps w (set_ended true g) c2) as (U1 & U2 & U3).
  destruct (update_cancelled_message_quiet w (set_ended true g) c2) as (new & U5 & U6).
  apply sound_logged, sound_emit; [done|].
  eapply (sound_quiet c2); try done.
  - intros id g0 Hg0. simpl in U1. rewrite U1. by exists g0.
  - by exists new.
Qed.

Lemma end_giveaway_command_sound (w : World) (i : Interaction)
    (giveaway_id : string) (c : Cog) :
  sound c → sound (end_giveaway_command w i giveaway_id c).
Proof.
  intros Hs. unfold end_giveaway_command.
  destruct (is_admin_cases i c) as [[_ ->]|[_ [r ->]]]; simpl;
    [|by apply sound_emit].
  destruct (giveaways c !! giveaway_id) as [g|] eqn:Hg; [|by apply sound_emit].
  destruct (ended g) eqn:He; [by apply sound_emit|].
  destruct (cancel_scheduled_sound giveaway_id c Hs) as [Hs1 Hfree1].
  destruct (cancel_scheduled_keeps giveaway_id c) as (K1 & _).
  apply (end_giveaway_sound w giveaway_id _ g); try done.
  - by apply sound_emit.
  - simpl. by rewrite K1.
Qed.

Lemma run_task_sound (w : World) (h : nat) (c : Cog) :
  sound c → sound (run_task w h c).
Proof.
  intros Hs. unfold run_task.
  destruct (tasks c !! h) as [[co st]|] eqn:Ht; [|done].
  destruct st; [| |done].
  - destruct (sound_unpend c h co Finished Hs Ht) as [Hs' Hfree]; [done|].
    destruct (pending_registered c Hs h _ Ht eq_refl) as (_ & g & Hg & Ho).
    simpl in Hg.
    destruct co as [giveaway_id seconds|giveaway_id];
      by apply (end_giveaway_sound w giveaway_id _ g).
  - assert (sound (finish h co c)) as Hs'.
    { destruct Hs as [H1 H2]. split; [|done].
      intros h' t'. simpl. intros Hh' Hp.
      destruct (decide (h' = h)) as [->|Hne].
      - rewrite list_lookup_insert_eq in Hh' by (by eapply lookup_lt_Some).
        injection Hh' as <-. simpl in Hp. congruence.
      - rewrite list_lookup_insert_ne in Hh' by done. by apply H1. }
    destruct co; [by apply sound_logged|done].
Qed.

Lemma create_giveaway_sound (w : World) (i : Interaction) (hours minutes : Z)
    (title_ description_ : string) (c : Cog) :
  giveaways c !! new_giveaway_id w i = None →
  sound c →
  sound (final (create_giveaway w i hours minutes title_ description_ c)).
Proof.
  intros Hfresh Hs. unfold create_giveaway.
  destruct (is_admin_cases i c) as [[_ ->]|[_ [r ->]]]; simpl;
    [|by apply sound_emit].
  destruct (Datetime.timedelta hours minutes) as [d|]; [|done].
  destruct (Datetime.add (now w) d) as [t1|]; [|by simpl].
  destruct (Datetime.timestamp t1) as [t|]; [|by simpl].
  unfold send. destruct (send_ok w); simpl; [|by apply sound_emit].
  fold (new_giveaway_id w i).
  set (g := {| title := title_; description := description_;
               creator_id := Py.str (user_id i);
               channel_id := Some (Py.str (interaction_channel i));
               message_id := Some (Py.str (sent_message_id w));
               guild_id := Py.str (interaction_guild i);
               end_time := t; participants := []; ended := false;
               assigned_prizes := None; prize_list_id := None;
               celebration_gif := None |}).
  set (c1 := emit (Send (interaction_channel i)
                        (GiveawayPost (new_giveaway_id w i) t))
                  (emit (Reply GiveawayCreated) c)).
  assert (sound c1) as Hs1 by (by apply sound_emit, sound_emit).
  set (c2 := save_giveaways w (update_giveaway (new_giveaway_id w i) g c1)).
  assert (sound c2) as Hs2.
  { apply sound_save. apply (sound_quiet c1); try done.
    - intros id g0 Hg0. simpl. simpl in Hg0.
      rewrite lookup_insert_ne by congruence. by exists g0.
    - exists []. split; [by rewrite app_nil_r|constructor]. }
  assert (tasks c2 = tasks c) as Ht2 by (unfold c2; by rewrite tasks_save).
  assert (giveaways c2 !! new_giveaway_id w i = Some g) as Hg2.
  { unfold c2. rewrite giveaways_save. simpl. apply lookup_insert_eq. }
  assert (∀ h t0, tasks c2 !! h = Some t0 → status t0 = Pending →
                  target (coro t0) ≠ new_giveaway_id w i) as Hfree.
  { intros h t0. rewrite Ht2. intros Hh Hp Heq.
    destruct (pending_registered c Hs h t0 Hh Hp) as (_ & g0 & Hg0 & _).
    rewrite Heq in Hg0. congruence. }
  pose proof (sound_new_timer c2 (new_giveaway_id w i) g d Hs2 Hfree Hg2 eq_refl)
    as Hs3.
  by apply sound_logged.
Qed.

(** Every step keeps the state of the timers sound. *)
Lemma step_sound (c c' : Cog) : sound c → step c c' → sound c'.
Proof.
  intros Hs [].
  - by apply create_giveaway_sound.
  - by apply add_participant_sound.
  - by apply end_giveaway_command_sound.
  - by apply cancel_giveaway_sound.
  - by apply set_exact_time_sound.
  - by apply attach_gif_sound.
  - by apply assign_prizes_sound.
  - by apply run_task_sound.
Qed.

(** The tasks the sweep creates: each is pending, works on an open
    giveaway of the list and, when that giveaway ends in the future, is
    the one the table has for it. *)
Lemma restore_sweep_tasks (now_ : Z) (c : Cog) (items : list (string * Giveaway)) :
  NoDup items.*1 →
  let c' := foldl (restore now_) c items in
  ∀ h t, tasks c' !! h = Some t → (length (tasks c) ≤ h)%nat →
         status t = Pending
         ∧ ∃ g, (target (coro t), g) ∈ items ∧ ended g = false
                ∧ (now_ < end_time g →
                   active_giveaways c' !! target (coro t) = Some h).
Proof.
  induction items as [|[k x] items IH] using rev_ind; intros Hnodup c'.
  - subst c'. simpl in *. intros h t Hh Hlen. apply lookup_lt_Some in Hh. lia.
  - rewrite fmap_app in Hnodup. simpl in Hnodup.
    apply NoDup_app in Hnodup as (Hnodup & Hk & _).
    assert (k ∉ items.*1) as Hfresh.
    { intros Hin. apply (Hk k Hin). apply list_elem_of_here. }
    specialize (IH Hnodup). simpl in IH.
    destruct (restore_sweep now_ c items Hnodup) as (_ & (extra & Hextra & _) & _).
    unfold c'. rewrite foldl_app. simpl.
    set (c1 := foldl (restore now_) c items) in *.
    assert (∀ h t, tasks c1 !! h = Some t → (length (tasks c) ≤ h)%nat →
                   target (coro t) ≠ k) as Hother.
    { intros h t Hh Hlen Heq. destruct (IH h t Hh Hlen) as (_ & g & Hin & _).
      apply Hfresh. apply list_elem_of_fmap. exists (k, g). by rewrite <- Heq. }
    destruct (ended x) eqn:Hended; [|destruct (now_ <? end_time x) eqn:Hfuture].
    + intros h t Hh Hlen. destruct (IH h t Hh Hlen) as (Hp & g & Hin & Ho & Hr).
      split; [done|]. exists g. split_and!; try done. apply elem_of_app. by left.
    + simpl. intros h t Hh Hlen.
      apply lookup_app_Some in Hh as [Hh|[Hlen' Hh]].
      * destruct (IH h t Hh Hlen) as (Hp & g & Hin & Ho & Hr).
        split; [done|]. exists g. split_and!; try done.
        -- apply elem_of_app. by left.
        -- rewrite lookup_insert_ne; [done|].
           intros Heq. by apply (Hother h t Hh Hlen).
      * apply list_lookup_singleton_Some in Hh as [Hz <-]. simpl.
        split; [done|]. exists x. split_and!; try done.
        -- apply elem_of_app. right. apply list_elem_of_here.
        -- intros _. rewrite lookup_insert_eq. f_equal. lia.
    + apply Z.ltb_ge in Hfuture. simpl. intros h t Hh Hlen.
      apply lookup_app_Some in Hh as [Hh|[Hlen' Hh]].
      * destruct (IH h t Hh Hlen) as (Hp & g & Hin & Ho & Hr).
        split; [done|]. exists g. split_and!; try done.
        apply elem_of_app. by left.
      * apply list_lookup_singleton_Some in Hh as [Hz <-]. simpl.
        split; [done|]. exists x. split_and!; try done.
        -- apply elem_of_app. right. apply list_elem_of_here.
        -- lia.
Qed.

(** X6. The cog built on a file in which no open giveaway is overdue is
    in a sound state: every task created is a pending timer of an open
    giveaway, registered in the table under that giveaway, and no winner
    has been announced. *)
Theorem init_sound (w : World) (file : option (gmap string Giveaway))
    (prizes_ gifs_ : gmap string string) (debug : bool) :
  (∀ id g, load_giveaways file !! id = Some g → ended g = false →
           now w < end_time g) →
  sound (init w file prizes_ gifs_ debug).
Proof.
  intros Hdue. unfold init, reload_active_giveaways.
  set (c := {| giveaways := load_giveaways file; prizes := prizes_; gifs := gifs_;
               debug_mode := debug; active_giveaways := ∅; tasks := [];
               giveaways_file := file; sent := []; log := [] |}).
  change (giveaways c) with (load_giveaways file).
  assert (∀ items c0, sent (foldl (restore (now w)) c0 items) = sent c0) as Hsent.
  { induction items as [|[k x] items IH]; intros c0; simpl; [done|].
    rewrite IH. unfold restore. by repeat case_match. }
  destruct (restore_sweep (now w) c (map_to_list (load_giveaways file)))
    as (H1 & _); [apply NoDup_fst_map_to_list|].
  pose proof (restore_sweep_tasks (now w) c (map_to_list (load_giveaways file))
                (NoDup_fst_map_to_list _)) as H2.
  simpl in H2. split.
  - intros h t Hh _. destruct (H2 h t Hh) as (_ & g & Hg & Ho & Hr); [lia|].
    apply elem_of_map_to_list in Hg. split.
    + apply Hr. by eapply Hdue.
    + exists g. by rewrite H1.
  - intros id. rewrite Hsent. simpl. unfold winners_for. simpl. split; lia.
Qed.

Lemma scenario_sound : sound Scenario.cog.
Proof.
  split.
  - intros [|[|h]] t Hh Hp; simpl in Hh; try discriminate Hh.
    injection Hh as <-. simpl. split; [reflexivity|].
    exists Scenario.box. split; reflexivity.
  - intros id. unfold winners_for. simpl. split; lia.
Qed.

Lemma cancel_giveaway_outcome_witness :
  active_giveaways (cancel_giveaway Scenario.world Scenario.admin Scenario.gid
                                    Scenario.cog) = ∅
  ∧ tasks (cancel_giveaway Scenario.world Scenario.admin Scenario.gid Scenario.cog)
      !! 0%nat
    = Some {| coro := ScheduleGiveawayEnd Scenario.gid 4000000;
              status := CancelRequested |}.
Proof.
  destruct (cancel_giveaway_outcome Scenario.world Scenario.admin Scenario.gid
              Scenario.cog Scenario.box eq_refl eq_refl eq_refl)
    as (_ & H2 & H3 & _).
  split.
  - rewrite H2. reflexivity.
  - apply H3; reflexivity.
Defined.

Lemma init_sound_witness :
  sound (init Scenario.world (Some {[Scenario.gid := Scenario.box]}) ∅ ∅ false).
Proof.
  apply init_sound. intros id g Hg _.
  destruct (decide (id = Scenario.gid)) as [->|Hne].
  - vm_compute in Hg. injection Hg as <-. reflexivity.
  - simpl in Hg. rewrite lookup_singleton_ne in Hg by congruence. discriminate.
Defined.

(** *** The file follows the memory *)

Lemma end_giveaway_synced (w : World) (giveaway_id : string) (c : Cog) :
  disk_ok w = true → synced c → synced (end_giveaway w giveaway_id c).
Proof.
  intros Hdisk Hs.
  unfold end_giveaway, end_giveaway_body, save_giveaways, announce, send,
    edit_message, select_prize, synced in *.
  rewrite Hdisk. simpl. repeat case_match; simpl in *; simplify_eq; done.
Qed.

Lemma cancel_synced (h : nat) (c : Cog) : synced c → synced (cancel h c).
Proof.
  unfold synced. destruct (cancel_keeps h c) as (-> & _ & _ & _ & _ & _ & -> & _).
  done.
Qed.

Lemma cancel_scheduled_synced (giveaway_id : string) (c : Cog) :
  synced c → synced (cancel_scheduled giveaway_id c).
Proof.
  unfold synced.
  destruct (cancel_scheduled_keeps giveaway_id c)
    as (-> & _ & _ & _ & _ & _ & -> & _). done.
Qed.

Lemma is_admin_synced (i : Interaction) (c : Cog) : synced c → synced (is_admin i c).2.
Proof. by destruct (is_admin_cases i c) as [[_ ->]|[_ [r ->]]]. Qed.

(** X9. The file follows the memory. When the file of giveaways holds
    what is in memory and the disk takes the writes, it still does after
    every command, after a press of the button and after the turn of a
    task: no operation changes a giveaway without saving. A process
    started from the file then has the giveaways of the one that wrote
    it. *)
Theorem write_through (w : World) (i : Interaction)
    (giveaway_id date time gif_id prize_ids title_ description_ : string)
    (hours minutes : Z) (h : nat) (c : Cog) :
  disk_ok w = true → synced c →
  synced (final (create_giveaway w i hours minutes title_ description_ c))
  ∧ synced (add_participant w i giveaway_id c)
  ∧ synced (end_giveaway_command w i giveaway_id c)
  ∧ synced (cancel_giveaway w i giveaway_id c)
  ∧ synced (set_exact_time w i giveaway_id date time c)
  ∧ synced (attach_gif w i giveaway_id gif_id c)
  ∧ synced (final (assign_prizes w i giveaway_id prize_ids c))
  ∧ synced (run_task w h c)
  ∧ ∀ w' prizes_ gifs_ debug,
      giveaways (init w' (giveaways_file c) prizes_ gifs_ debug) = giveaways c.
Proof.
  intros Hdisk Hs. split_and!.
  - unfold create_giveaway.
    destruct (is_admin_cases i c) as [[_ ->]|[_ [r ->]]]; simpl; [|done].
    unfold Datetime.timedelta, Datetime.add, send, save_giveaways, synced in *.
    rewrite Hdisk. repeat case_match; simpl in *; simplify_eq; done.
  - unfold add_participant. rewrite button_guild_check.
    unfold save_giveaways, synced in *. rewrite Hdisk.
    repeat case_match; simpl in *; simplify_eq; done.
  - unfold end_giveaway_command.
    destruct (is_admin_cases i c) as [[_ ->]|[_ [r ->]]]; simpl; [|done].
    repeat case_match; try done.
    apply end_giveaway_synced; [done|]. by apply cancel_scheduled_synced.
  - unfold cancel_giveaway.
    destruct (is_admin_cases i c) as [[_ ->]|[_ [r ->]]]; simpl; [|done].
    destruct (giveaways c !! giveaway_id) as [g|]; [|done].
    destruct (ended g); [done|].
    match goal with
    | |- context [update_cancelled_message ?w ?g ?c] =>
        destruct (update_cancelled_message_keeps w g c) as (U1 & _);
        destruct (update_cancelled_message_sends w g c) as (U4 & _)
    end.
    unfold synced in *. simpl in *. rewrite U1, U4.
    unfold save_giveaways. rewrite Hdisk. done.
  - unfold set_exact_time.
    destruct (is_admin_cases i c) as [[_ ->]|[_ [r ->]]]; simpl; [|done].
    destruct (giveaways c !! giveaway_id) as [g|]; [|done].
    destruct (ended g); [done|].
    destruct (parse_end_time date time) as [t|[]]; try done.
    destruct (t <=? now w); [done|].
    match goal with
    | |- context [update_end_time_message ?w ?g ?t ?c] =>
        destruct (update_end_time_message_keeps w g t c) as (U1 & _ & _ & U4 & _)
    end.
    unfold synced in *. simpl in *. rewrite U1, U4. simpl.
    unfold save_giveaways. rewrite Hdisk. done.
  - unfold attach_gif.
    destruct (is_admin_cases i c) as [[_ ->]|[_ [r ->]]]; simpl; [|done].
    unfold save_giveaways, synced in *. rewrite Hdisk.
    repeat case_match; simpl in *; simplify_eq; done.
  - unfold assign_prizes.
    destruct (is_admin_cases i c) as [[_ ->]|[_ [r ->]]]; simpl; [|done].
    unfold save_giveaways, synced in *. rewrite Hdisk.
    repeat case_match; simpl in *; simplify_eq; done.
  - unfold run_task.
    destruct (tasks c !! h) as [[co []]|]; try done; destruct co; simpl;
      try done; by apply end_giveaway_synced.
  - intros w' prizes_ gifs_ debug. unfold init, reload_active_giveaways.
    match goal with
    | |- giveaways (foldl _ ?c0 ?l) = _ =>
        destruct (restore_sweep (now w') c0 l) as (-> & _);
          [apply NoDup_fst_map_to_list|]
    end.
    simpl. unfold synced in Hs. by rewrite Hs.
Qed.

Lemma write_through_witness :
  synced (add_participant Scenario.world Scenario.member Scenario.gid Scenario.cog).
Proof.
  refine (proj1 (proj2 (write_through Scenario.world Scenario.member Scenario.gid
                          "" "" "" "" "" "" 0 0 0%nat Scenario.cog _ _)));
    reflexivity.
Defined.

(** *** A resolution and the next start *)

Lemma end_giveaway_written (w : World) (giveaway_id : string) (c : Cog) (g : Giveaway) :
  disk_ok w = true → giveaways c !! giveaway_id = Some g →
  giveaways_file (end_giveaway w giveaway_id c)
  = Some (<[giveaway_id := set_ended true g]> (giveaways c)).
Proof.
  intros Hdisk Hg.
  unfold end_giveaway, end_giveaway_body, save_giveaways, announce, send,
    edit_message, select_prize.
  rewrite Hg, Hdisk. simpl. repeat case_match; simpl in *; simplify_eq; done.
Qed.

Lemma init_tasks (w : World) (file : option (gmap string Giveaway))
    (prizes_ gifs_ : gmap string string) (debug : bool)
    (giveaway_id : string) (g : Giveaway) :
  load_giveaways file !! giveaway_id = Some g →
  let c' := init w file prizes_ gifs_ debug in
  (ended g = true →
     active_giveaways c' !! giveaway_id = None
     ∧ ∀ h t, tasks c' !! h = Some t → target (coro t) ≠ giveaway_id)
  ∧ (ended g = false → end_time g ≤ now w →
     ∃ h, tasks c' !! h
          = Some {| coro := EndGiveaway giveaway_id; status := Pending |}).
Proof.
  intros Hg c'. unfold c', init, reload_active_giveaways.
  set (c := {| giveaways := load_giveaways file; prizes := prizes_; gifs := gifs_;
               debug_mode := debug; active_giveaways := ∅; tasks := [];
               giveaways_file := file; sent := []; log := [] |}).
  change (giveaways c) with (load_giveaways file).
  destruct (restore_sweep (now w) c (map_to_list (load_giveaways file)))
    as (_ & _ & _ & H4); [apply NoDup_fst_map_to_list|].
  destruct (H4 giveaway_id g) as (_ & R2 & R3); [by apply elem_of_map_to_list|].
  simpl in *. split.
  - intros He. destruct (R3 He) as (Ha & Hnone). split; [by rewrite Ha|].
    intros h t Ht. eapply Hnone; [|done]. lia.
  - intros He Hp. destruct (R2 He Hp) as (_ & h & _ & Ht). by exists h.
Qed.

(** X10. A resolution is not retried. [end_giveaway] writes the giveaway as
    ended before it looks for the channel; when the write succeeds, a
    process started from the file left behind has no timer and no task for
    the giveaway, whether the announcement went out or failed on the
    way. *)
Theorem resolution_not_retried (w w' : World) (giveaway_id : string) (c : Cog)
    (g : Giveaway) (prizes_ gifs_ : gmap string string) (debug : bool) :
  disk_ok w = true → giveaways c !! giveaway_id = Some g →
  let c' := end_giveaway w giveaway_id c in
  let c'' := init w' (giveaways_file c') prizes_ gifs_ debug in
  giveaways c'' = giveaways c'
  ∧ ended <$> giveaways c'' !! giveaway_id = Some true
  ∧ active_giveaways c'' !! giveaway_id = None
  ∧ ∀ h t, tasks c'' !! h = Some t → target (coro t) ≠ giveaway_id.
Proof.
  intros Hdisk Hg c' c''.
  pose proof (end_giveaway_written w giveaway_id c g Hdisk Hg) as Hfile.
  destruct (end_giveaway_effect w giveaway_id c g Hg) as (Eg & _).
  fold c' in Hfile, Eg.
  assert (giveaways c'' = giveaways c') as Hsame.
  { unfold c'', init, reload_active_giveaways.
    match goal with
    | |- giveaways (foldl _ ?c0 ?l) = _ =>
        destruct (restore_sweep (now w') c0 l) as (-> & _);
          [apply NoDup_fst_map_to_list|]
    end.
    simpl. by rewrite Hfile, Eg. }
  split; [done|]. split.
  { rewrite Hsame, Eg, lookup_insert. by case_decide. }
  apply (init_tasks w' (giveaways_file c') prizes_ gifs_ debug giveaway_id
           (set_ended true g)); [|done].
  rewrite Hfile. simpl. rewrite lookup_insert. by case_decide.
Qed.

Lemma resolution_not_retried_witness :
  let c' := end_giveaway Scenario.world_channel_gone Scenario.gid Scenario.cog in
  let c'' := init Scenario.world (giveaways_file c') ∅ ∅ false in
  giveaways c'' = giveaways c'
  ∧ ended <$> giveaways c'' !! Scenario.gid = Some true
  ∧ active_giveaways c'' !! Scenario.gid = None
  ∧ ∀ h t, tasks c'' !! h = Some t → target (coro t) ≠ Scenario.gid.
Proof.
  apply (resolution_not_retried Scenario.world_channel_gone Scenario.world
           Scenario.gid Scenario.cog Scenario.box ∅ ∅ false); reflexivity.
Defined.

(** X11. A failed write of [end_giveaway] and the next start. The giveaway
    is ended in memory. When the write was refused as the file was opened,
    the file still has the giveaway open: a process started from it after
    the end time runs the resolution again. When the write failed after
    the file was opened, the file is empty: a process started from it has
    no giveaway, no timer and no task. *)
Theorem unsaved_resolution_repeats (w w' : World) (giveaway_id : string) (c : Cog)
    (g : Giveaway) (prizes_ gifs_ : gmap string string) (debug : bool) :
  disk_ok w = false → synced c →
  giveaways c !! giveaway_id = Some g → ended g = false →
  end_time g ≤ now w' →
  let c' := end_giveaway w giveaway_id c in
  let c'' := init w' (giveaways_file c') prizes_ gifs_ debug in
  ended <$> giveaways c' !! giveaway_id = Some true
  ∧ (write_truncates w = false →
     giveaways c'' !! giveaway_id = Some g
     ∧ ∃ h, tasks c'' !! h
            = Some {| coro := EndGiveaway giveaway_id; status := Pending |}
            ∧ run_task w' h c''
              = end_giveaway w' giveaway_id
                             (finish h (EndGiveaway giveaway_id) c''))
  ∧ (write_truncates w = true →
     giveaways_file c' = None
     ∧ giveaways c'' = ∅ ∧ active_giveaways c'' = ∅ ∧ tasks c'' = []).
Proof.
  intros Hdisk Hs Hg Hopen Hpast c' c''.
  destruct (end_giveaway_effect w giveaway_id c g Hg) as (Eg & _).
  fold c' in Eg.
  split; [rewrite Eg, lookup_insert; by case_decide|].
  split; intros Htr.
  - assert (giveaways_file c' = Some (giveaways c)) as Hfile.
    { unfold synced in Hs. rewrite <- Hs. unfold c'.
      unfold end_giveaway, end_giveaway_body, save_giveaways, announce, send,
        edit_message, select_prize.
      rewrite Hg, Hdisk, Htr. simpl.
      repeat case_match; simpl in *; simplify_eq; done. }
    assert (giveaways c'' = giveaways c) as Hsame.
    { unfold c'', init, reload_active_giveaways.
      match goal with
      | |- giveaways (foldl _ ?c0 ?l) = _ =>
          destruct (restore_sweep (now w') c0 l) as (-> & _);
            [apply NoDup_fst_map_to_list|]
      end.
      simpl. by rewrite Hfile. }
    split; [by rewrite Hsame|].
    destruct (init_tasks w' (giveaways_file c') prizes_ gifs_ debug giveaway_id g)
      as (_ & H); [by rewrite Hfile|].
    destruct (H Hopen Hpast) as [h Hh]. exists h. split; [done|].
    subst c''. unfold run_task. by rewrite Hh.
  - assert (giveaways_file c' = None) as Hfile.
    { unfold c'.
      unfold end_giveaway, end_giveaway_body, save_giveaways, announce, send,
        edit_message, select_prize.
      rewrite Hg, Hdisk, Htr. simpl.
      repeat case_match; simpl in *; simplify_eq; done. }
    split; [done|]. unfold c'', init, reload_active_giveaways.
    rewrite Hfile. simpl. by rewrite map_to_list_empty.
Qed.

Lemma unsaved_resolution_repeats_witness :
  let m : gmap string Giveaway := {[Scenario.gid := set_end_time 900000 Scenario.box]} in
  let c := with_file (Some m) (with_giveaways m Scenario.cog) in
  let c' := end_giveaway Scenario.world_disk_full Scenario.gid c in
  let c'' := init Scenario.world (giveaways_file c') ∅ ∅ false in
  ended <$> giveaways c' !! Scenario.gid = Some true
  ∧ giveaways c'' !! Scenario.gid = Some (set_end_time 900000 Scenario.box)
  ∧ ∃ h, tasks c'' !! h
         = Some {| coro := EndGiveaway Scenario.gid; status := Pending |}
         ∧ run_task Scenario.world h c''
           = end_giveaway Scenario.world Scenario.gid
                          (finish h (EndGiveaway Scenario.gid) c'').
Proof.
  intros m c.
  destruct (unsaved_resolution_repeats Scenario.world_disk_full Scenario.world
              Scenario.gid c (set_end_time 900000 Scenario.box) ∅ ∅ false)
    as (H1 & H2 & _); try reflexivity.
  - simpl. lia.
  - split; [exact H1|]. apply H2. reflexivity.
Defined.

(** The same resolution with a write that fails after the file was
    opened: the next start finds nothing. *)
Example emptied_file_restarts_empty :
  let m : gmap string Giveaway := {[Scenario.gid := set_end_time 900000 Scenario.box]} in
  let c := with_file (Some m) (with_giveaways m Scenario.cog) in
  let w := {| now := 1000000; disk_ok := false; write_truncates := true;
              get_channel := λ ch, ch =? 100;
              fetch_message := λ _ _, MessageFound true; send_ok := true;
              edit_ok := true; gif_path_exists := λ _, false;
              sent_message_id := 200; draw := λ _, 0%nat |} in
  let c' := end_giveaway w Scenario.gid c in
  let c'' := init Scenario.world (giveaways_file c') ∅ ∅ false in
  winner_posts (sent c') = 1%nat
  ∧ giveaways_file c' = None ∧ giveaways c'' = ∅ ∧ tasks c'' = [].
Proof. vm_compute. repeat split. Qed.

(** *** From creation to the announcement *)

Lemma random_choice_single {A} (r : nat) (x : A) : random_choice r [x] = Some x.
Proof.
  unfold random_choice.
  replace (r mod length [x])%nat with 0%nat; [done|].
  change (length [x]) with 1%nat. by rewrite Nat.mod_1_r.
Qed.

(** X12. The life of a giveaway, end to end. An administrator creates it
    (its duration, end date and end timestamp can be computed), one member
    presses the button, the timer armed at creation gets its
    turn while the channel still exists: that member is announced as the
    winner in the channel where the command was given, the giveaway is
    ended, and when the original message can be rewritten the handle is
    out of the table. The ids of the channel and of the message, stored as
    text, are read back as the integers they were. *)
Theorem created_joined_resolved (w w1 w2 : World) (i j : Interaction)
    (hours minutes duration end_timestamp : Z) (title_ description_ : string)
    (c : Cog) :
  admin_ok i c = true → send_ok w = true →
  Datetime.timedelta hours minutes = Ok duration →
  Datetime.add (now w) duration = Ok end_timestamp →
  Datetime.timestamp end_timestamp = Ok end_timestamp →
  guild_allowed j c = true →
  get_channel w2 (interaction_channel i) = true →
  fetch_message w2 (interaction_channel i) (sent_message_id w) ≠ FetchFailed →
  send_ok w2 = true →
  let giveaway_id := new_giveaway_id w i in
  let c1 := final (create_giveaway w i hours minutes title_ description_ c) in
  let c2 := add_participant w1 j giveaway_id c1 in
  let c3 := run_task w2 (length (tasks c)) c2 in
  sent c2 = sent c ++ [Reply GiveawayCreated;
                       Send (interaction_channel i)
                            (GiveawayPost giveaway_id end_timestamp);
                       Reply Joined]
  ∧ (∃ prize rest,
       sent c3 = sent c2
                 ++ Send (interaction_channel i)
                         (WinnerPost giveaway_id (Py.str (user_id j)) prize false)
                 :: rest)
  ∧ ended <$> giveaways c3 !! giveaway_id = Some true
  ∧ (edit_ok w2 = true → active_giveaways c3 !! giveaway_id = None).
Proof.
  intros Hadmin Hsend Hdelta Hadd Hstamp Hguild Hch Hfetch Hsend2
    giveaway_id c1 c2 c3.
  set (g0 := {| title := title_; description := description_;
                creator_id := Py.str (user_id i);
                channel_id := Some (Py.str (interaction_channel i));
                message_id := Some (Py.str (sent_message_id w));
                guild_id := Py.str (interaction_guild i);
                end_time := end_timestamp; participants := []; ended := false;
                assigned_prizes := None; prize_list_id := None;
                celebration_gif := None |}).
  set (t0 := {| coro := ScheduleGiveawayEnd giveaway_id duration; status := Pending |}).
  assert (giveaways c1 = <[giveaway_id := g0]> (giveaways c)
          ∧ debug_mode c1 = debug_mode c
          ∧ prizes c1 = prizes c ∧ gifs c1 = gifs c
          ∧ active_giveaways c1 = <[giveaway_id := length (tasks c)]> (active_giveaways c)
          ∧ tasks c1 = tasks c ++ [t0]
          ∧ sent c1 = sent c ++ [Reply GiveawayCreated;
                                 Send (interaction_channel i)
                                      (GiveawayPost giveaway_id end_timestamp)])
    as (G1 & D1 & P1 & F1 & A1 & T1 & S1).
  { unfold c1, create_giveaway.
    destruct (is_admin_cases i c) as [[_ ->]|[Hno _]]; [|congruence]. simpl.
    rewrite Hdelta, Hadd, Hstamp. unfold send. rewrite Hsend. simpl.
    rewrite giveaways_save, active_save, tasks_save, sent_save, debug_mode_save,
      prizes_save, gifs_save. simpl.
    split_and!; try done. by rewrite <- app_assoc. }
  set (u := Py.str (user_id j)).
  set (g1 := set_participants [u] g0).
  assert (giveaways c2 = <[giveaway_id := g1]> (giveaways c1)
          ∧ prizes c2 = prizes c1 ∧ gifs c2 = gifs c1
          ∧ active_giveaways c2 = active_giveaways c1
          ∧ tasks c2 = tasks c1
          ∧ sent c2 = sent c1 ++ [Reply Joined])
    as (G2 & P2 & F2 & A2 & T2 & S2).
  { unfold c2, add_participant. rewrite button_guild_check.
    assert (guild_allowed j c1 = true) as ->.
    { unfold guild_allowed in *. by rewrite D1. }
    rewrite G1, lookup_insert. case_decide; [|done]. simpl.
    rewrite giveaways_save, active_save, tasks_save, sent_save, prizes_save,
      gifs_save. simpl. by rewrite G1. }
  split; [by rewrite S2, S1, <- app_assoc|].
  assert (tasks c2 !! length (tasks c) = Some t0) as Ht.
  { rewrite T2, T1. rewrite lookup_app_r by lia.
    by replace (length (tasks c) - length (tasks c))%nat with 0%nat by lia. }
  assert (c3 = end_giveaway w2 giveaway_id
                 (finish (length (tasks c)) (ScheduleGiveawayEnd giveaway_id duration) c2))
    as Hc3.
  { unfold c3, run_task. by rewrite Ht. }
  set (c2' := finish (length (tasks c)) (ScheduleGiveawayEnd giveaway_id duration) c2)
    in Hc3.
  assert (giveaways c2' !! giveaway_id = Some g1) as Hg.
  { unfold c2', finish. simpl. rewrite G2, lookup_insert. by case_decide. }
  destruct (end_giveaway_effect w2 giveaway_id c2' g1 Hg) as (Eg & _).
  rewrite <- Hc3 in Eg.
  destruct (select_prize_ok w2 (set_ended true g1) (prizes c2')) as [prize Hprize].
  split; [|split].
  - exists prize. rewrite Hc3.
    unfold end_giveaway, end_giveaway_body. rewrite Hg. simpl.
    rewrite !int_str. rewrite Hch. simpl.
    assert (∀ z, match Py.str z with "" => false | String _ _ => true end = true)
      as Htr.
    { intros z. apply (int_truthy _ z), int_str. }
    rewrite !Htr. simpl.
    destruct (fetch_message w2 (interaction_channel i) (sent_message_id w))
      as [[]| |] eqn:Hf; try done; unfold announce; simpl.
    all: rewrite ?prizes_save.
    all: change (prizes (update_giveaway giveaway_id (set_ended true g1) c2'))
           with (prizes c2').
    all: rewrite Hprize; simpl.
    all: unfold send; rewrite Hsend2; simpl.
    all: unfold edit_message; destruct (edit_ok w2); simpl.
    all: rewrite ?sent_save; simpl; eexists; appended.
  - rewrite Eg, lookup_insert. by case_decide.
  - intros Hedit. rewrite Hc3.
    unfold end_giveaway, end_giveaway_body. rewrite Hg. simpl.
    rewrite !int_str. rewrite Hch. simpl.
    assert (∀ z, match Py.str z with "" => false | String _ _ => true end = true)
      as Htr.
    { intros z. apply (int_truthy _ z), int_str. }
    rewrite !Htr. simpl.
    destruct (fetch_message w2 (interaction_channel i) (sent_message_id w))
      as [[]| |] eqn:Hf; try done; unfold announce; simpl.
    all: rewrite ?prizes_save.
    all: change (prizes (update_giveaway giveaway_id (set_ended true g1) c2'))
           with (prizes c2').
    all: rewrite Hprize; simpl.
    all: unfold send; rewrite Hsend2; simpl.
    all: unfold edit_message; rewrite ?Hedit; simpl.
    all: rewrite ?active_save; simpl; rewrite lookup_delete; by case_decide.
Qed.

Lemma created_joined_resolved_witness :
  let c1 := final (create_giveaway Scenario.world Scenario.admin 0 1 "Box" "Join"
                                   Scenario.cog) in
  let c2 := add_participant Scenario.world Scenario.member
                            (new_giveaway_id Scenario.world Scenario.admin) c1 in
  let c3 := run_task Scenario.world 1 c2 in
  ended <$> giveaways c3 !! new_giveaway_id Scenario.world Scenario.admin
  = Some true.
Proof.
  refine (proj1 (proj2 (proj2
            (created_joined_resolved Scenario.world Scenario.world Scenario.world
               Scenario.admin Scenario.member 0 1 60000000 61000000 "Box" "Join"
               Scenario.cog _ _ _ _ _ _ _ _ _)))); try reflexivity.
  simpl. discriminate.
Defined.

(** *** Who may do what *)

Lemma is_admin_refuses (i : Interaction) (c : Cog) :
  admin_ok i c = false →
  ∃ r, (r = GuildNotAllowed ∨ r = NotAdministrator)
       ∧ is_admin i c = (false, emit (Reply r) c).
Proof.
  unfold admin_ok, guild_allowed, is_admin, is_allowed_guild.
  destruct (debug_mode c) eqn:Hd; simpl; [done|].
  case_bool_decide; simpl; [|eauto].
  rewrite Hd. destruct (has_admin i); [done|eauto].
Qed.

(** X13. The commands are for administrators of the allowed guilds. Called
    by anyone else outside debug mode, each of them answers with one
    refusal and does nothing else: no giveaway, timer, task or file
    changes and nothing is posted. The button asks only for an allowed
    guild, and is refused the same way outside one. *)
Theorem refused_without_rights (w : World) (i : Interaction)
    (giveaway_id date time gif_id prize_ids title_ description_ : string)
    (hours minutes : Z) (c : Cog) :
  (admin_ok i c = false →
   ∃ r, (r = GuildNotAllowed ∨ r = NotAdministrator)
        ∧ create_giveaway w i hours minutes title_ description_ c
          = Done (emit (Reply r) c)
        ∧ end_giveaway_command w i giveaway_id c = emit (Reply r) c
        ∧ cancel_giveaway w i giveaway_id c = emit (Reply r) c
        ∧ set_exact_time w i giveaway_id date time c = emit (Reply r) c
        ∧ attach_gif w i giveaway_id gif_id c = emit (Reply r) c
        ∧ assign_prizes w i giveaway_id prize_ids c = Done (emit (Reply r) c))
  ∧ (guild_allowed i c = false →
     add_participant w i giveaway_id c = emit (Reply GuildNotAllowed) c).
Proof.
  split.
  - intros Hno. destruct (is_admin_refuses i c Hno) as (r & Hr & Hi).
    exists r. split; [done|].
    unfold create_giveaway, end_giveaway_command, cancel_giveaway, set_exact_time,
      attach_gif, assign_prizes.
    rewrite Hi. simpl. by split_and!.
  - intros Hno. unfold add_participant. rewrite button_guild_check. by rewrite Hno.
Qed.

Lemma refused_without_rights_witness :
  (∃ r, (r = GuildNotAllowed ∨ r = NotAdministrator)
        ∧ cancel_giveaway Scenario.world Scenario.member Scenario.gid Scenario.cog
          = emit (Reply r) Scenario.cog)
  ∧ add_participant Scenario.world
      {| user_id := 7; interaction_guild := 1; interaction_channel := 100;
         has_admin := true |} Scenario.gid Scenario.cog
    = emit (Reply GuildNotAllowed) Scenario.cog.
Proof.
  split.
  - destruct (proj1 (refused_without_rights Scenario.world Scenario.member
                       Scenario.gid "" "" "" "" "" "" 0 0 Scenario.cog))
      as (r & Hr & _ & _ & H & _); [reflexivity|].
    by exists r.
  - refine (proj2 (refused_without_rights Scenario.world _ Scenario.gid
                     "" "" "" "" "" "" 0 0 Scenario.cog) _).
    reflexivity.
Defined.

(** *** Dates that are refused *)

Lemma datetime_valid (year month day hour minute t : Z) :
  Datetime.datetime year month day hour minute = Ok t →
  1 ≤ year ≤ 9999 ∧ 1 ≤ month ≤ 12
  ∧ 1 ≤ day ≤ Datetime.days_in_month year month
  ∧ 0 ≤ hour ≤ 23 ∧ 0 ≤ minute ≤ 59.
Proof.
  unfold Datetime.datetime. destruct (negb _); [done|].
  destruct (_ && _) eqn:H; [|done]. intros _.
  repeat (apply andb_true_iff in H as [H ?]). lia.
Qed.

Lemma datetime_errors (year month day hour minute : Z) (e : exn) :
  Datetime.datetime year month day hour minute = Err e →
  e = ValueError ∨ e = OverflowError.
Proof.
  unfold Datetime.datetime. repeat case_match; intros [= <-]; auto.
Qed.

(** X29. [/setexacttime] and the dates it refuses. For an administrator
    and an open giveaway: a date that is not three integers between dots
    or a time that is not two integers between a colon, or fields that name
    no day of the calendar or no minute of the day, are answered with "wrong
    format"; fields too large for the date arithmetic are answered with
    the general error, which is logged; either way nothing else changes:
    the end time, the file, the timer and the table are as before. A date
    is accepted only if its month is 1 to 12, its day exists in that month
    of that year, and the time is at most 23:59. *)
Theorem set_exact_time_refuses_bad_dates (w : World) (i : Interaction)
    (giveaway_id date time : string) (c : Cog) (g : Giveaway) :
  giveaways c !! giveaway_id = Some g → ended g = false →
  admin_ok i c = true →
  let c' := set_exact_time w i giveaway_id date time c in
  (length (Py.split "." date) ≠ 3%nat ∨ length (Py.split ":" time) ≠ 2%nat
   ∨ None ∈ (Py.int <$> Py.split "." date) ∨ None ∈ (Py.int <$> Py.split ":" time) →
   c' = emit (Reply BadDateFormat) c)
  ∧ (∀ e, parse_end_time date time = Err e →
       (e = ValueError ∧ c' = emit (Reply BadDateFormat) c)
       ∨ (e = OverflowError
          ∧ c' = emit (Reply SetTimeError) (logged ErrorSettingTime c)))
  ∧ (∀ t, parse_end_time date time = Ok t →
       ∃ day month year hour minute,
         Py.int <$> Py.split "." date = [Some day; Some month; Some year]
         ∧ Py.int <$> Py.split ":" time = [Some hour; Some minute]
         ∧ 1 ≤ year ≤ 9999 ∧ 1 ≤ month ≤ 12
         ∧ 1 ≤ day ≤ Datetime.days_in_month year month
         ∧ 0 ≤ hour ≤ 23 ∧ 0 ≤ minute ≤ 59).
Proof.
  intros Hg Hopen Hadmin c'.
  assert (∀ e, parse_end_time date time = Err e →
               c' = match e with
                    | ValueError => emit (Reply BadDateFormat) c
                    | _ => emit (Reply SetTimeError) (logged ErrorSettingTime c)
                    end) as Herr.
  { intros e He. unfold c', set_exact_time.
    destruct (is_admin_cases i c) as [[_ ->]|[Hno _]]; [|congruence]. simpl.
    by rewrite Hg, Hopen, He. }
  assert (∀ e, parse_end_time date time = Err e →
               e = ValueError ∨ e = OverflowError) as Hkinds.
  { intros e. unfold parse_end_time.
    repeat case_match; try (intros [= <-]; auto); apply datetime_errors. }
  split_and!.
  - intros Hbad. rewrite (Herr ValueError); [done|].
    unfold parse_end_time.
    destruct (Py.int <$> Py.split "." date) as [|[d|] [|[m|] [|[y|] [|? ?]]]] eqn:Hd;
      try done.
    destruct (Py.int <$> Py.split ":" time) as [|[h|] [|[mi|] [|? ?]]] eqn:Ht;
      try done.
    exfalso.
    apply (f_equal length) in Hd as Hd', Ht as Ht'.
    rewrite length_fmap in Hd', Ht'. simpl in *.
    destruct Hbad as [H|[H|[H|H]]]; try done.
    + rewrite !elem_of_cons in H. destruct H as [?|[?|[?|H]]]; try done.
      by apply not_elem_of_nil in H.
    + rewrite !elem_of_cons in H. destruct H as [?|[?|H]]; try done.
      by apply not_elem_of_nil in H.
  - intros e He. destruct (Hkinds e He) as [-> | ->]; [left|right];
      (split; [done|]); by rewrite (Herr _ He).
  - intros t. unfold parse_end_time.
    destruct (Py.int <$> Py.split "." date) as [|[d|] [|[m|] [|[y|] [|? ?]]]];
      try done.
    destruct (Py.int <$> Py.split ":" time) as [|[h|] [|[mi|] [|? ?]]]; try done.
    intros Ht. exists d, m, y, h, mi.
    destruct (datetime_valid _ _ _ _ _ _ Ht) as (? & ? & ? & ? & ?).
    do 2 (split; [done|]). lia.
Qed.

Lemma set_exact_time_refuses_bad_dates_witness :
  set_exact_time Scenario.world Scenario.admin Scenario.gid "30.02.2030" "18:30"
                 Scenario.cog
  = emit (Reply BadDateFormat) Scenario.cog
  ∧ set_exact_time Scenario.world Scenario.admin Scenario.gid "2030-02-01" "18:30"
                   Scenario.cog
    = emit (Reply BadDateFormat) Scenario.cog.
Proof.
  split.
  - destruct (proj1 (proj2 (set_exact_time_refuses_bad_dates Scenario.world
                              Scenario.admin Scenario.gid "30.02.2030" "18:30"
                              Scenario.cog Scenario.box eq_refl eq_refl eq_refl))
                ValueError eq_refl) as [[_ H]|[H _]]; [exact H|discriminate H].
  - apply (proj1 (set_exact_time_refuses_bad_dates Scenario.world
                    Scenario.admin Scenario.gid "2030-02-01" "18:30"
                    Scenario.cog Scenario.box eq_refl eq_refl eq_refl)).
    left. vm_compute. lia.
Defined.

(** The separator U+001C after the year: [str.strip] would drop it, [int]
    does not, and the date is answered with "wrong format", also when the
    year is too large for a date. *)
Example set_exact_time_separator_ex :
  let fs := String "028" "" in
  Py.strip ("2025" +:+ fs) = "2025"
  ∧ Py.int ("2025" +:+ fs) = None
  ∧ Py.int (" 2025" +:+ String "009" "") = Some 2025
  ∧ set_exact_time Scenario.world Scenario.admin Scenario.gid
                   ("25.12.2025" +:+ fs) "18:30" Scenario.cog
    = emit (Reply BadDateFormat) Scenario.cog
  ∧ set_exact_time Scenario.world Scenario.admin Scenario.gid
                   ("1.1.99999999999" +:+ fs) "18:30" Scenario.cog
    = emit (Reply BadDateFormat) Scenario.cog
  ∧ set_exact_time Scenario.world Scenario.admin Scenario.gid
                   "1.1.99999999999" "18:30" Scenario.cog
    = emit (Reply SetTimeError) (logged ErrorSettingTime Scenario.cog).
Proof. vm_compute. repeat split. Qed.

(** *** The celebration GIF *)

(** X30. The GIF of the celebration. [/attachgif] refuses a GIF id that
    is not in the table of GIFs, on an ended giveaway as well. By an
    administrator on an open giveaway with a known GIF it stores the id
    and answers "attached"; when that giveaway is then resolved with
    participants, a reachable channel and a working [send], the winner's
    announcement carries the GIF exactly when the id is not empty and its
    file exists at that moment. *)
Theorem attached_gif_is_shown (w w' : World) (i : Interaction)
    (giveaway_id gif_id : string) (c : Cog) (g : Giveaway) :
  admin_ok i c = true → giveaways c !! giveaway_id = Some g →
  (gifs c !! gif_id = None →
     attach_gif w i giveaway_id gif_id c = emit (Reply GifNotFound) c)
  ∧ (is_Some (gifs c !! gif_id) → ended g = false →
     participants g ≠ [] → reachable w' g → send_ok w' = true →
     let c1 := attach_gif w i giveaway_id gif_id c in
     let c2 := end_giveaway w' giveaway_id c1 in
     giveaways c1 = <[giveaway_id := set_celebration_gif gif_id g]> (giveaways c)
     ∧ ∃ ch winner prize rest,
         winner ∈ participants g
         ∧ sent c2
           = sent c ++ Reply GifAttached
               :: Send ch (WinnerPost giveaway_id winner prize
                             (truthy (Some gif_id) && gif_path_exists w' gif_id))
               :: rest).
Proof.
  intros Hadmin Hg. split.
  - intros Hnone. unfold attach_gif.
    destruct (is_admin_cases i c) as [[_ ->]|[Hno _]]; [|congruence]. simpl.
    rewrite Hg, Hnone. rewrite bool_decide_eq_false_2 by (by intros [? ?]). done.
  - intros Hgif Hopen Hp (cs & ms & ch & m & Hc & Hm & Hci & Hmi & Hch & Hf) Hsend
      c1 c2.
    set (g1 := set_celebration_gif gif_id g).
    assert (c1 = logged (InfoGifAttached gif_id giveaway_id)
                   (emit (Reply GifAttached)
                      (save_giveaways w (update_giveaway giveaway_id g1 c)))) as Hc1.
    { unfold c1, attach_gif.
      destruct (is_admin_cases i c) as [[_ ->]|[Hno _]]; [|congruence]. simpl.
      rewrite Hg. rewrite bool_decide_eq_true_2 by done. simpl. by rewrite Hopen. }
    assert (giveaways c1 = <[giveaway_id := g1]> (giveaways c)
            ∧ gifs c1 = gifs c ∧ prizes c1 = prizes c
            ∧ sent c1 = sent c ++ [Reply GifAttached]) as (G1 & F1 & P1 & S1).
    { rewrite Hc1. simpl.
      by rewrite giveaways_save, gifs_save, prizes_save, sent_save. }
    split; [done|].
    assert (giveaways c1 !! giveaway_id = Some g1) as Hg1.
    { rewrite G1. apply lookup_insert_eq. }
    destruct (random_choice_some (draw w' 0) (participants g) Hp) as [winner Hw].
    destruct (select_prize_ok w' (set_ended true g1) (prizes c1)) as [prize Hprize].
    exists ch, winner, prize.
    unfold c2, end_giveaway, end_giveaway_body. rewrite Hg1. simpl.
    rewrite Hc, Hm, (int_truthy _ _ Hci), (int_truthy _ _ Hmi). simpl.
    rewrite Hci, Hch, Hmi. simpl.
    assert (∀ original c0, sent c0 = sent c1 → prizes c0 = prizes c1 →
              gifs c0 = gifs c1 →
              ∃ rest,
                sent match bind_outcome
                             (announce w' giveaway_id (set_ended true g1) ch original c0)
                             (λ c, Done (clean_up giveaway_id c)) with
                     | Done c' => c'
                     | Raised _ c' => logged (ErrorEnding giveaway_id) c'
                     end
                = sent c ++ Reply GifAttached
                    :: Send ch (WinnerPost giveaway_id winner prize
                                  (truthy (Some gif_id) && gif_path_exists w' gif_id))
                    :: rest) as Hloud.
    { intros original c0 Hs0 Hp0 Hf0. unfold announce. simpl.
      destruct (participants g) as [|u us] eqn:Hus; [done|].
      rewrite Hw, Hp0, Hprize, Hf0, F1.
      rewrite (bool_decide_eq_true_2 _ Hgif). rewrite andb_true_r.
      unfold send. rewrite Hsend. simpl.
      destruct original as [message|]; simpl.
      - unfold edit_message. destruct (edit_ok w'); simpl;
          rewrite Hs0, S1, <- !app_assoc; simpl; eauto.
      - rewrite Hs0, S1, <- !app_assoc. simpl. eauto. }
    assert (winner ∈ participants g) as Hin by (by eapply random_choice_elem).
    destruct (fetch_message w' ch m) as [has_embed| |]; [| |done].
    + destruct (Hloud (if has_embed then Some m else None)
                  (save_giveaways w' (update_giveaway giveaway_id (set_ended true g1) c1)))
        as [rest Hrest]; [by rewrite sent_save|by rewrite prizes_save
                         |by rewrite gifs_save|].
      exists rest. by split.
    + destruct (Hloud None
                  (logged ErrorNoMessage
                     (save_giveaways w' (update_giveaway giveaway_id (set_ended true g1) c1))))
        as [rest Hrest]; [simpl; by rewrite sent_save|simpl; by rewrite prizes_save
                         |simpl; by rewrite gifs_save|].
      exists rest. by split.
Qed.

Lemma attached_gif_is_shown_witness :
  let c := {| giveaways := {[Scenario.gid := Scenario.box]}; prizes := ∅;
              gifs := {["party" := "Party"]}; debug_mode := false;
              active_giveaways := ∅; tasks := []; giveaways_file := None;
              sent := []; log := [] |} in
  giveaways (attach_gif Scenario.world Scenario.admin Scenario.gid "party" c)
  = <[Scenario.gid := set_celebration_gif "party" Scenario.box]> (giveaways c).
Proof.
  intros c.
  refine (proj1 (proj2 (attached_gif_is_shown Scenario.world Scenario.world
                          Scenario.admin Scenario.gid "party" c Scenario.box
                          eq_refl eq_refl) _ eq_refl _ scenario_reachable eq_refl)).
  - by exists "Party".
  - discriminate.
Defined.

Example attached_gif_ex :
  let c := {| giveaways := {[Scenario.gid := Scenario.box]}; prizes := ∅;
              gifs := {["party" := "Party"]}; debug_mode := false;
              active_giveaways := ∅; tasks := []; giveaways_file := None;
              sent := []; log := [] |} in
  let w := {| now := 1000000; disk_ok := true; write_truncates := false;
              get_channel := λ ch, ch =? 100;
              fetch_message := λ _ _, MessageFound true; send_ok := true;
              edit_ok := true; gif_path_exists := λ id, String.eqb id "party";
              sent_message_id := 200; draw := λ _, 0%nat |} in
  sent (end_giveaway w Scenario.gid
          (attach_gif w Scenario.admin Scenario.gid "party" c))
  = [Reply GifAttached;
     Send 100 (WinnerPost Scenario.gid "42" "Mystery Prize" true);
     EditMessage 100 200 (WinnerEdit "42" "Mystery Prize")].
Proof. vm_compute. reflexivity. Qed.

End EngineMore.

(** ** The prize catalogue, the prize lists and the views *)

Module CatalogFacts.
Import Engine EngineSpec EngineInv EngineFacts PyFacts EngineMore Catalog CatalogSpec.
Import ResolverSpec ResolverFacts ResolverMore.

(** *** Python pieces *)

Lemma lstrip_head (s : string) :
  Py.lstrip s = "" ∨ ∃ c t, Py.lstrip s = String c t ∧ Py.isspace c = false.
Proof.
  induction s as [|c s IH]; simpl; [by left|].
  destruct (Py.isspace c) eqn:Hc; [done|]. right. eauto.
Qed.

Lemma rstrip_head (c : ascii) (s : string) :
  Py.isspace c = false → ∃ t, Py.rstrip (String c s) = String c t.
Proof.
  intros Hc. simpl. destruct (Py.rstrip s); [|eauto]. rewrite Hc. eauto.
Qed.

Lemma rstrip_idemp (s : string) : Py.rstrip (Py.rstrip s) = Py.rstrip s.
Proof.
  induction s as [|c s IH]; simpl; [done|].
  destruct (Py.rstrip s) as [|d r] eqn:Hr.
  - destruct (Py.isspace c) eqn:Hc; simpl; [done|]. by rewrite Hc.
  - change (Py.rstrip (String c (String d r)))
      with (match Py.rstrip (String d r) with
            | "" => if Py.isspace c then "" else String c ""
            | r' => String c r'
            end).
    rewrite IH. done.
Qed.

(** The head of a stripped string is no white space. *)
Lemma strip_head (s : string) :
  Py.strip s = "" ∨ ∃ c t, Py.strip s = String c t ∧ Py.isspace c = false.
Proof.
  unfold Py.strip. destruct (lstrip_head s) as [->|(c & t & -> & Hc)]; [by left|].
  right. destruct (rstrip_head c t Hc) as [t' ->]. eauto.
Qed.

Lemma lstrip_fixed (s : string) :
  (s = "" ∨ ∃ c t, s = String c t ∧ Py.isspace c = false) → Py.lstrip s = s.
Proof. intros [->|(c & t & -> & Hc)]; simpl; [done|]. by rewrite Hc. Qed.

Lemma strip_idemp (s : string) : Py.strip (Py.strip s) = Py.strip s.
Proof.
  unfold Py.strip at 1. rewrite (lstrip_fixed (Py.strip s)) by apply strip_head.
  unfold Py.strip. apply rstrip_idemp.
Qed.

Lemma contains_rstrip (c : ascii) (s : string) :
  Py.contains c s = false → Py.contains c (Py.rstrip s) = false.
Proof.
  induction s as [|d s IH]; simpl; [done|].
  intros [Hd Hs]%orb_false_iff. specialize (IH Hs).
  destruct (Py.rstrip s); simpl.
  - destruct (Py.isspace d); simpl; [done|]. by rewrite Hd.
  - simpl in IH. by rewrite Hd, IH.
Qed.

Lemma contains_lstrip (c : ascii) (s : string) :
  Py.contains c s = false → Py.contains c (Py.lstrip s) = false.
Proof.
  induction s as [|d s IH]; simpl; [done|].
  intros [Hd Hs]%orb_false_iff.
  destruct (Py.isspace d); [auto|]. simpl. by rewrite Hd, Hs.
Qed.

Lemma contains_strip (c : ascii) (s : string) :
  Py.contains c s = false → Py.contains c (Py.strip s) = false.
Proof. intros H. by apply contains_rstrip, contains_lstrip. Qed.

(** [s.split(sep, 1)] gives one part when the separator is absent, else the
    text before its first occurrence and the text after it. *)
Lemma split_once_parts (sep : ascii) (s : string) :
  (Py.contains sep s = false ∧ split_once sep s = [s])
  ∨ ∃ a b, Py.contains sep s = true ∧ split_once sep s = [a; b]
           ∧ Py.contains sep a = false
           ∧ s = a +:+ String sep b.
Proof.
  induction s as [|c s IH]; simpl; [by left|].
  destruct (Ascii.eqb c sep) eqn:Hc; simpl.
  - right. exists "", s. apply Ascii.eqb_eq in Hc as ->. by split_and!.
  - destruct IH as [[Hn ->]|(a & b & Hy & -> & Ha & Hs)]; [by left|].
    right. exists (String c a), b. split_and!; try done.
    + simpl. by rewrite Hc, Ha.
    + rewrite Hs. reflexivity.
Qed.

(** *** The lines of a prize list *)

Lemma enumerate_snd {A} (l : list A) : (enumerate l).*2 = l.
Proof. unfold enumerate. apply snd_zip. by rewrite length_seq. Qed.

Lemma scan_line_prizes (st : scanned) (item : nat * string) :
  scan_prizes (scan_line st item) = read_line (scan_prizes st) item.2.
Proof.
  destruct item as [i line]. unfold scan_line, read_line. simpl.
  repeat case_match; done.
Qed.

Lemma scan_fold_prizes (items : list (nat * string)) (st : scanned) :
  scan_prizes (foldl scan_line st items) = foldl read_line (scan_prizes st) items.*2.
Proof.
  revert st. induction items as [|item items IH]; intros st; simpl; [done|].
  by rewrite IH, scan_line_prizes.
Qed.

Lemma scan_prizes_read (content_text : string) :
  scan_prizes (scan content_text) = read_prizes content_text.
Proof.
  unfold scan, read_prizes. rewrite scan_fold_prizes. simpl.
  by rewrite enumerate_snd.
Qed.

(** X14. The three copies of the parser agree: the dictionary that
    [create_prize_list] counts and previews for a text is the one that
    [view_prize_list] and [assign_prize_list] read from the same text. *)
Theorem scan_reads (content_text : string) :
  scan_prizes (scan content_text) = read_prizes content_text.
Proof.
  unfold scan, read_prizes. rewrite scan_fold_prizes. simpl.
  by rewrite enumerate_snd.
Qed.

Lemma nonempty_ne (s : string) : nonempty s = true ↔ s ≠ "".
Proof. by destruct s. Qed.

(** What the parser takes from a line: nothing, or a well-formed entry. *)
Lemma read_line_cases (prizes : dict) (line : string) :
  read_line prizes line = prizes
  ∨ ∃ prize_id prize_name,
      read_line prizes line = dict_set prize_id prize_name prizes
      ∧ well_formed (prize_id, prize_name)
      ∧ is_content line = true.
Proof.
  unfold read_line, is_content.
  destruct (nonempty (Py.strip line)) eqn:Hne; simpl; [|by left].
  destruct (startswith "#" (Py.strip line)) eqn:Hhash; simpl; [by left|].
  destruct (split_once_parts ":" (Py.strip line))
    as [[-> _]|(a & b & -> & -> & Ha & Hline)]; [by left|].
  destruct (nonempty (Py.strip a)) eqn:Hid; simpl; [|by left].
  destruct (nonempty (Py.strip b)) eqn:Hname; simpl; [|by left].
  right. exists (Py.strip a), (Py.strip b). split; [done|]. split; [|done].
  unfold well_formed. simpl. split_and!.
  - by apply nonempty_ne.
  - by apply nonempty_ne.
  - apply strip_idemp.
  - apply strip_idemp.
  - by apply contains_strip.
  - destruct (strip_head line) as [He|(c & t & Hl & Hc)].
    { rewrite He in Hne. done. }
    rewrite Hl in Hline, Hhash. simpl in Hhash.
    destruct a as [|c' a'].
    { done. }
    simpl in Hline. injection Hline as <- _.
    unfold Py.strip. simpl Py.lstrip. rewrite Hc.
    destruct (rstrip_head c a' Hc) as [t' ->]. done.
Qed.

Lemma dict_set_keys (k v : string) (d : dict) :
  (k ∈ d.*1 ∧ (dict_set k v d).*1 = d.*1)
  ∨ ((k ∉ d.*1) ∧ (dict_set k v d).*1 = (d.*1) ++ [k]).
Proof.
  induction d as [|[k' v'] d IH].
  - right. split; [|done]. apply not_elem_of_nil.
  - cbn [dict_set]. destruct (String.eqb k' k) eqn:Hk; rewrite !fmap_cons; simpl fst.
    + apply String.eqb_eq in Hk as ->. left. split; [|done]. apply list_elem_of_here.
    + apply String.eqb_neq in Hk.
      destruct IH as [[Hin ->]|[Hout ->]].
      * left. split; [|done]. by apply list_elem_of_further.
      * right. split; [|done]. rewrite not_elem_of_cons. by split.
Qed.

Lemma dict_set_elem (k v : string) (d : dict) (e : string * string) :
  e ∈ dict_set k v d → e = (k, v) ∨ e ∈ d.
Proof.
  induction d as [|[k' v'] d IH]; simpl.
  - intros ->%list_elem_of_singleton. by left.
  - destruct (String.eqb k' k) eqn:Hk.
    + apply String.eqb_eq in Hk as ->.
      intros [->|Hin]%elem_of_cons; [by left|]. right. by apply list_elem_of_further.
    + intros [->|Hin]%elem_of_cons; [right; apply list_elem_of_here|].
      destruct (IH Hin) as [->|Hd]; [by left|]. right. by apply list_elem_of_further.
Qed.

Lemma dict_set_NoDup (k v : string) (d : dict) :
  NoDup d.*1 → NoDup (dict_set k v d).*1.
Proof.
  intros Hd. destruct (dict_set_keys k v d) as [[_ ->]|[Hout ->]]; [done|].
  apply NoDup_app. split_and!; [done| |apply NoDup_singleton].
  intros x Hx ->%list_elem_of_singleton. done.
Qed.

Lemma dict_set_length (k v : string) (d : dict) :
  (length d ≤ length (dict_set k v d) ≤ S (length d))%nat.
Proof.
  pose proof (dict_set_keys k v d) as H.
  rewrite <- (length_fmap fst d), <- (length_fmap fst (dict_set k v d)).
  destruct H as [[_ ->]|[_ ->]]; [lia|]. rewrite length_app. simpl. lia.
Qed.

(** [d[k] = v] on the dictionary read as a map. *)
Lemma dict_set_map (k v : string) (d : dict) :
  NoDup d.*1 →
  (list_to_map (dict_set k v d) : gmap string string) = <[k := v]> (list_to_map d).
Proof.
  induction d as [|[k' v'] d IH]; simpl; [done|].
  intros [Hk' Hd]%NoDup_cons.
  destruct (String.eqb k' k) eqn:Hk; simpl.
  - apply String.eqb_eq in Hk as ->. by rewrite insert_insert_eq.
  - apply String.eqb_neq in Hk. rewrite IH by done.
    by rewrite insert_insert_ne.
Qed.

Lemma read_fold_inv (lines : list string) (prizes : dict) :
  Forall well_formed prizes → NoDup prizes.*1 →
  Forall well_formed (foldl read_line prizes lines)
  ∧ NoDup (foldl read_line prizes lines).*1.
Proof.
  revert prizes. induction lines as [|line lines IH]; intros prizes Hw Hn; simpl;
    [done|].
  apply IH.
  - destruct (read_line_cases prizes line) as [->|(k & v & -> & Hkv & _)]; [done|].
    apply Forall_forall. intros e [->|He]%dict_set_elem; [done|].
    by eapply Forall_forall in Hw.
  - destruct (read_line_cases prizes line) as [->|(k & v & -> & _)]; [done|].
    by apply dict_set_NoDup.
Qed.

Lemma read_prizes_keys (content : string) : NoDup (read_prizes content).*1.
Proof. apply read_fold_inv; [constructor|]. simpl. apply NoDup_nil_2. Qed.

(** X15. What the parser of the prize lists accepts. Whatever the text,
    every entry read from it has an id and a name that are not empty and
    have no white space around them, the id has no colon and does not
    start like a comment, and no id comes twice. *)
Theorem read_prizes_well_formed (content : string) :
  Forall well_formed (read_prizes content)
  ∧ NoDup (read_prizes content).*1.
Proof. apply read_fold_inv; [constructor|]. simpl. apply NoDup_nil_2. Qed.


(** One turn of the loop of [create_prize_list]: a blank line or a comment
    changes nothing; any other line is counted once, as valid or as
    invalid under its number. *)
Lemma scan_line_counts (st : scanned) (i : nat) (raw : string) :
  let st' := scan_line st (i, raw) in
  (is_content raw = false ∧ st' = st)
  ∨ (is_content raw = true
     ∧ ((length (valid_lines st') = S (length (valid_lines st))
         ∧ invalid_lines st' = invalid_lines st
         ∧ (length (scan_prizes st') ≤ S (length (scan_prizes st)))%nat)
        ∨ (valid_lines st' = valid_lines st
           ∧ invalid_lines st' = invalid_lines st ++ [(S i, Py.strip raw)]
           ∧ scan_prizes st' = scan_prizes st))).
Proof.
  unfold scan_line, is_content.
  destruct (nonempty (Py.strip raw)); simpl; [|by left].
  destruct (startswith "#" (Py.strip raw)); simpl; [by left|].
  right. split; [done|]. rewrite Nat.add_1_r.
  repeat case_match; simpl; auto.
  left. rewrite length_app. simpl. split_and!; [lia|done|].
  apply dict_set_length.
Qed.

Lemma scan_fold_counts (items : list (nat * string)) (st : scanned) :
  let st' := foldl scan_line st items in
  (length (valid_lines st') + length (invalid_lines st')
   = length (valid_lines st) + length (invalid_lines st)
     + length (filter (λ l, is_content l = true) items.*2))%nat
  ∧ (length (scan_prizes st') + length (valid_lines st)
     ≤ length (scan_prizes st) + length (valid_lines st'))%nat
  ∧ Forall (λ e, e ∈ invalid_lines st
                 ∨ ∃ i raw, (i, raw) ∈ items ∧ e = (S i, Py.strip raw)
                            ∧ is_content raw = true)
           (invalid_lines st').
Proof.
  revert st. induction items as [|[i raw] items IH]; intros st.
  - simpl. split_and!; [lia|lia|]. apply Forall_forall. auto.
  - cbn [foldl]. rewrite fmap_cons. cbn [snd].
    destruct (IH (scan_line st (i, raw))) as (IH1 & IH2 & IH3).
    destruct (scan_line_counts st i raw)
      as [[Hc Hst]|[Hc [(Hv & Hi & Hp)|(Hv & Hi & Hp)]]].
    + rewrite Hst in *.
      rewrite filter_cons_False by (by rewrite Hc). split_and!; [done|done|].
      eapply Forall_impl; [exact IH3|]. intros e [He|(i' & raw' & Hin & He)];
        [by left|]. right. exists i', raw'. split; [|done].
      by apply list_elem_of_further.
    + rewrite filter_cons_True by done. cbn [length]. rewrite Hi in *.
      split_and!; [lia|lia|].
      eapply Forall_impl; [exact IH3|]. intros e [He|(i' & raw' & Hin & He)];
        [by left|]. right. exists i', raw'. split; [|done].
      by apply list_elem_of_further.
    + rewrite filter_cons_True by done. cbn [length].
      rewrite Hv, Hi, length_app in IH1. cbn [length] in IH1.
      rewrite Hv, Hp in IH2.
      split_and!; [lia|lia|].
      eapply Forall_impl; [exact IH3|]. rewrite Hi.
      intros e [[He|He%list_elem_of_singleton]%elem_of_app|(i' & raw' & Hin & He)].
      * by left.
      * subst e. right. exists i, raw. split_and!; try done. apply list_elem_of_here.
      * right. exists i', raw'. split; [|done]. by apply list_elem_of_further.
Qed.

Lemma enumerate_lookup {A} (l : list A) (i : nat) (x : A) :
  (i, x) ∈ enumerate l → l !! i = Some x.
Proof.
  unfold enumerate. intros (k & Hk)%list_elem_of_lookup_1.
  apply lookup_zip_with_Some in Hk as (a & b & [= <- <-] & Ha & Hb).
  apply lookup_seq in Ha as [-> _]. done.
Qed.

(** X16. No line of an uploaded list is dropped in silence. Of the lines of
    the text, those that are neither blank nor comments are each counted
    once, among the valid entries or among the invalid lines; the
    dictionary has at most one entry per valid line; and an invalid line is
    reported with its own number in the text and its own content. *)
Theorem scan_accounts (content_text : string) :
  let lines := Py.split LF (Py.strip content_text) in
  let st := scan content_text in
  (length (valid_lines st) + length (invalid_lines st)
   = length (filter (λ l, is_content l = true) lines))%nat
  ∧ (length (scan_prizes st) ≤ length (valid_lines st))%nat
  ∧ Forall (λ e, ∃ raw, (1 ≤ e.1)%nat ∧ lines !! (e.1 - 1)%nat = Some raw
                        ∧ e.2 = Py.strip raw ∧ is_content raw = true)
           (invalid_lines st).
Proof.
  intros lines st. unfold st, scan. fold lines.
  destruct (scan_fold_counts (enumerate lines)
              {| scan_prizes := []; valid_lines := []; invalid_lines := [] |})
    as (H1 & H2 & H3).
  rewrite enumerate_snd in H1. simpl in *. split_and!; [done|lia|].
  eapply Forall_impl; [exact H3|].
  intros e [He|(i & raw & Hin & -> & Hc)]; [by apply not_elem_of_nil in He|].
  exists raw. simpl. split_and!; try done; [lia|].
  rewrite Nat.sub_0_r. by apply enumerate_lookup.
Qed.


(** *** The fields of a view *)

Lemma range_step_length (stop step : nat) :
  (0 < step)%nat →
  let m := length (range_step stop step) in
  (stop ≤ m * step)%nat ∧ (∀ k, (k < m)%nat → (k * step < stop)%nat).
Proof.
  intros Hstep. unfold range_step. rewrite length_fmap, length_seq.
  pose proof (Nat.div_mod (stop + step - 1) step ltac:(lia)) as Hdm.
  pose proof (Nat.mod_upper_bound (stop + step - 1) step ltac:(lia)) as Hlt.
  split; [nia|]. intros k Hk. nia.
Qed.

Lemma range_step_lookup (stop step k i : nat) :
  range_step stop step !! k = Some i → i = (k * step)%nat.
Proof.
  unfold range_step. rewrite list_lookup_fmap.
  destruct (seq 0 _ !! k) as [j|] eqn:Hj; [|done].
  apply lookup_seq in Hj as [-> _]. simpl. by intros [= <-].
Qed.

Lemma chunks_concat {A} (size m : nat) (l : list A) :
  (length l ≤ m * size)%nat →
  concat ((λ k, take size (drop (k * size) l)) <$> seq 0 m) = l.
Proof.
  revert l. induction m as [|m IH]; intros l Hlen.
  - simpl in *. destruct l; [done|simpl in Hlen; lia].
  - rewrite <- cons_seq, <- fmap_S_seq, fmap_cons, <- list_fmap_compose. simpl.
    rewrite drop_0.
    transitivity (take size l ++ drop size l); [|apply take_drop]. f_equal.
    etransitivity; [|apply (IH (drop size l)); rewrite length_drop; lia].
    f_equal. apply list_fmap_ext. intros _ k _. simpl. rewrite drop_drop.
    repeat f_equal; lia.
Qed.

(** The fields of a view cut the list into consecutive chunks. *)
Lemma fields_of_cover {A} (size : nat) (l : list A) :
  (0 < size)%nat →
  concat (chunk <$> fields_of size l) = l
  ∧ ∀ k f, fields_of size l !! k = Some f →
           chunk f = take size (drop (k * size) l)
           ∧ (0 < length (chunk f) ≤ size)%nat
           ∧ from_index f = (k * size + 1)%nat
           ∧ to_index f = ((k * size + size) `min` length l)%nat.
Proof.
  intros Hsize.
  destruct (range_step_length (length l) size Hsize) as [Hcover Hin].
  split.
  - unfold fields_of. rewrite <- list_fmap_compose.
    unfold range_step in *. rewrite <- list_fmap_compose.
    rewrite length_fmap, length_seq in Hcover.
    erewrite list_fmap_ext; [by apply chunks_concat|].
    intros _ k _. simpl. unfold slice. f_equal. lia.
  - intros k f. unfold fields_of. rewrite list_lookup_fmap.
    destruct (range_step (length l) size !! k) as [i|] eqn:Hi; [|done].
    pose proof (lookup_lt_Some _ _ _ Hi) as Hk.
    apply range_step_lookup in Hi as ->. simpl. intros [= <-]. simpl.
    unfold slice. replace (k * size + size - k * size)%nat with size by lia.
    specialize (Hin k Hk).
    rewrite length_take, length_drop. split_and!; try done; lia.
Qed.


(** *** The commands *)

Lemma with_cog_same (s : Shelf) : with_cog (cog s) s = s.
Proof. by destruct s. Qed.

Lemma check_admin_cases (i : Interaction) (s : Shelf) :
  (admin_ok i (cog s) = true ∧ check_admin i s = (true, s))
  ∨ (admin_ok i (cog s) = false
     ∧ ∃ r, (r = GuildNotAllowed ∨ r = NotAdministrator)
            ∧ check_admin i s = (false, with_cog (emit (Reply r) (cog s)) s)).
Proof.
  unfold check_admin.
  destruct (is_admin_cases i (cog s)) as [[Hok ->]|[Hno _]].
  - left. by rewrite with_cog_same.
  - right. split; [done|].
    destruct (is_admin_refuses i (cog s) Hno) as (r & Hr & ->). eauto.
Qed.

(** X17. The catalogue of prizes. [/addprize] never overwrites: on an id
    already in the catalogue it answers that the id is taken and changes
    nothing. On a new id it adds the prize, and a [/removeprize] of that id
    afterwards gives back the catalogue as it was, on disk as well when the
    write succeeds. Neither touches a giveaway. *)
Theorem add_prize_remove_prize (d d' : Desk) (i i' : Interaction)
    (prize_id prize_name : string) (s : Shelf) :
  admin_ok i (cog s) = true → admin_ok i' (cog s) = true →
  (∀ old, prizes (cog s) !! prize_id = Some old →
          add_prize d i prize_id prize_name s = say PrizeIdTaken s)
  ∧ (prizes (cog s) !! prize_id = None →
     let s1 := add_prize d i prize_id prize_name s in
     let s2 := remove_prize d' i' prize_id s1 in
     prizes (cog s1) = <[prize_id := prize_name]> (prizes (cog s))
     ∧ prizes (cog s2) = prizes (cog s)
     ∧ answers s2 = answers s ++ [PrizeAdded prize_name; PrizeRemoved prize_name]
     ∧ (prizes_write_ok d = true → prizes_file s1 = Some (prizes (cog s1)))
     ∧ (prizes_write_ok d' = true → prizes_file s2 = Some (prizes (cog s)))
     ∧ giveaways (cog s2) = giveaways (cog s)
     ∧ active_giveaways (cog s2) = active_giveaways (cog s)
     ∧ tasks (cog s2) = tasks (cog s)).
Proof.
  intros Hadmin Hadmin'. split.
  - intros old Hold. unfold add_prize.
    destruct (check_admin_cases i s) as [[_ ->]|[Hno _]]; [|congruence]. simpl.
    rewrite Hold. rewrite bool_decide_eq_true_2 by eauto. done.
  - intros Hnew s1 s2.
    assert (s1 = noted (InfoPrizeAdded prize_id prize_name)
                   (say (PrizeAdded prize_name)
                      (save_prizes d
                         (with_cog (with_prizes (<[prize_id := prize_name]>
                                                   (prizes (cog s))) (cog s)) s))))
      as Hs1.
    { unfold s1, add_prize.
      destruct (check_admin_cases i s) as [[_ ->]|[Hno _]]; [|congruence]. simpl.
      rewrite Hnew. rewrite bool_decide_eq_false_2 by (by intros [? ?]). done. }
    assert (cog s1 = with_prizes (<[prize_id := prize_name]> (prizes (cog s))) (cog s))
      as Hc1.
    { rewrite Hs1. unfold save_prizes. by destruct (prizes_write_ok d). }
    assert (admin_ok i' (cog s1) = true) as Hadmin1.
    { rewrite Hc1. exact Hadmin'. }
    assert (s2 = noted (InfoPrizeRemoved prize_id prize_name)
                   (say (PrizeRemoved prize_name)
                      (save_prizes d'
                         (with_cog (with_prizes (delete prize_id (prizes (cog s1)))
                                                (cog s1)) s1))))
      as Hs2.
    { unfold s2, remove_prize.
      destruct (check_admin_cases i' s1) as [[_ ->]|[Hno _]]; [|congruence]. simpl.
      rewrite Hc1. simpl. rewrite lookup_insert_eq. done. }
    assert (cog s2 = with_prizes (prizes (cog s)) (cog s)) as Hc2.
    { rewrite Hs2. unfold save_prizes. destruct (prizes_write_ok d'); simpl.
      all: rewrite Hc1; simpl; unfold with_prizes; simpl.
      all: by rewrite delete_insert_id. }
    split_and!.
    + by rewrite Hc1.
    + by rewrite Hc2.
    + rewrite Hs2. unfold save_prizes. destruct (prizes_write_ok d'); simpl.
      all: rewrite Hs1; unfold save_prizes; destruct (prizes_write_ok d); simpl.
      all: by rewrite <- app_assoc.
    + intros Hw. rewrite Hs1. unfold save_prizes. rewrite Hw. done.
    + intros Hw. rewrite Hs2. unfold save_prizes. rewrite Hw. simpl.
      rewrite Hc1. simpl. by rewrite delete_insert_id.
    + by rewrite Hc2.
    + by rewrite Hc2.
    + by rewrite Hc2.
Qed.


Lemma add_prize_remove_prize_witness :
  let s1 := add_prize CatalogScenario.desk Scenario.admin "2" "Shield"
                      CatalogScenario.shelf in
  let s2 := remove_prize CatalogScenario.desk Scenario.admin "2" s1 in
  prizes (cog s1) = <["2" := "Shield"]> (prizes Scenario.cog)
  ∧ prizes (cog s2) = prizes Scenario.cog.
Proof.
  destruct (proj2 (add_prize_remove_prize CatalogScenario.desk CatalogScenario.desk
                     Scenario.admin Scenario.admin "2" "Shield" CatalogScenario.shelf
                     eq_refl eq_refl) eq_refl) as (H1 & H2 & _).
  by split.
Defined.

Example add_prize_taken_ex :
  answers (add_prize CatalogScenario.desk Scenario.admin "1" "Bow" CatalogScenario.shelf)
  = [PrizeIdTaken].
Proof. vm_compute. reflexivity. Qed.

(** What [parse_prize_ids] resolves is a part of the catalogue. *)
Lemma resolved_in_catalog (spec : string) (catalog assigned : gmap string string)
    (missing : list string) :
  Resolver.parse_prize_ids spec catalog = Done (assigned, missing) →
  assigned ⊆ catalog.
Proof.
  rewrite parse_prize_ids_done. intros [= H].
  destruct (foldl_classify catalog (tokens spec ≫= requested) (∅, [])) as [H1 _].
  rewrite H in H1. simpl in H1.
  apply map_subseteq_spec. intros id name Hid. rewrite H1 in Hid.
  case_bool_decide; [|by rewrite lookup_empty in Hid].
  destruct (catalog !! id); [done|by rewrite lookup_empty in Hid].
Qed.

Ltac kept :=
  unfold engine_kept; simpl; split_and!; try done;
  first [ exists []; split; [by rewrite app_nil_r | by constructor]
        | eexists [_]; split; [reflexivity | by repeat constructor] ].

Lemma engine_kept_reply (r : reply) (c : Cog) : engine_kept c (emit (Reply r) c).
Proof. kept. Qed.

(** The cog after a command that only answers, notes and writes the files
    of the shelf. *)
Ltac shelf_steps :=
  unfold save_prizes, save_prize_lists, save_prize_list_file, load_prize_list_file;
  repeat case_match; simplify_eq; simpl; kept.

Lemma add_prize_kept (d : Desk) (i : Interaction) (prize_id prize_name : string)
    (s : Shelf) :
  engine_kept (cog s) (cog (add_prize d i prize_id prize_name s)).
Proof.
  unfold add_prize.
  destruct (check_admin_cases i s) as [[_ ->]|[_ (r & _ & ->)]]; simpl;
    [|apply engine_kept_reply].
  shelf_steps.
Qed.

Lemma remove_prize_kept (d : Desk) (i : Interaction) (prize_id : string) (s : Shelf) :
  let s' := remove_prize d i prize_id s in
  engine_kept (cog s) (cog s')
  ∧ (prizes (cog s') = prizes (cog s)
     ∨ prizes (cog s') = delete prize_id (prizes (cog s))).
Proof.
  unfold remove_prize.
  destruct (check_admin_cases i s) as [[_ ->]|[_ (r & _ & ->)]]; simpl;
    [|split; [apply engine_kept_reply|by left]].
  unfold save_prizes. repeat case_match; simpl; (split; [kept|auto]).
Qed.

Lemma view_participants_kept (d : Desk) (i : Interaction) (giveaway_id : string)
    (s : Shelf) :
  engine_kept (cog s) (cog (view_participants d i giveaway_id s)).
Proof.
  unfold view_participants.
  destruct (check_admin_cases i s) as [[_ ->]|[_ (r & _ & ->)]]; simpl;
    [|apply engine_kept_reply].
  shelf_steps.
Qed.

Lemma create_prize_list_kept (d : Desk) (i : Interaction) (list_id list_name : string)
    (s : Shelf) :
  engine_kept (cog s) (cog (create_prize_list d i list_id list_name s)).
Proof.
  unfold create_prize_list.
  destruct (check_admin_cases i s) as [[_ ->]|[_ (r & _ & ->)]]; simpl;
    [|apply engine_kept_reply].
  shelf_steps.
Qed.

Lemma view_prize_list_kept (d : Desk) (i : Interaction) (list_id : string)
    (s : Shelf) :
  engine_kept (cog s) (cog (view_prize_list d i list_id s)).
Proof.
  unfold view_prize_list.
  destruct (check_admin_cases i s) as [[_ ->]|[_ (r & _ & ->)]]; simpl;
    [|apply engine_kept_reply].
  shelf_steps.
Qed.

Lemma remove_prize_list_kept (d : Desk) (i : Interaction) (list_id : string)
    (s : Shelf) :
  engine_kept (cog s) (cog (remove_prize_list d i list_id s)).
Proof.
  unfold remove_prize_list.
  destruct (check_admin_cases i s) as [[_ ->]|[_ (r & _ & ->)]]; simpl;
    [|apply engine_kept_reply].
  shelf_steps.
Qed.


(** *** A prize assigned and then removed from the catalogue *)

Lemma assign_prizes_done (w : World) (i : Interaction) (giveaway_id prize_ids : string)
    (c : Cog) (g : Giveaway) (assigned : gmap string string) (missing : list string) :
  admin_ok i c = true →
  giveaways c !! giveaway_id = Some g → ended g = false →
  Resolver.parse_prize_ids prize_ids (prizes c) = Done (assigned, missing) →
  assigned ≠ ∅ →
  let c' := final (assign_prizes w i giveaway_id prize_ids c) in
  giveaways c' = <[giveaway_id := set_assigned_prizes assigned g]> (giveaways c)
  ∧ prizes c' = prizes c ∧ debug_mode c' = debug_mode c
  ∧ sent c' = sent c ++ [Reply (PrizesAssigned missing)].
Proof.
  intros Hadmin Hg Hopen Hparse Hne. unfold assign_prizes.
  destruct (is_admin_cases i c) as [[_ ->]|[Hno _]]; [|congruence]. simpl.
  rewrite Hg, Hopen, Hparse. rewrite bool_decide_eq_false_2 by done. simpl.
  by rewrite giveaways_save, prizes_save, debug_mode_save, sent_save.
Qed.

(** X18. The prizes of a giveaway are a copy. After [/assignprizes] has
    given a giveaway the prizes its specification resolves to, a
    [/removeprize] on any id leaves the giveaway its prizes, and the prize
    of a winner announced later for it is one the catalogue had under the
    same id when the prizes were assigned, whatever the catalogue has
    by then. *)
Theorem assigned_prizes_are_a_copy (w w' : World) (d : Desk) (i i' : Interaction)
    (giveaway_id prize_ids prize_id : string) (s : Shelf) (g : Giveaway)
    (assigned : gmap string string) (missing : list string) :
  admin_ok i (cog s) = true →
  giveaways (cog s) !! giveaway_id = Some g → ended g = false →
  Resolver.parse_prize_ids prize_ids (prizes (cog s)) = Done (assigned, missing) →
  assigned ≠ ∅ →
  let s1 := with_cog (final (assign_prizes w i giveaway_id prize_ids (cog s))) s in
  let s2 := remove_prize d i' prize_id s1 in
  let c3 := end_giveaway w' giveaway_id (cog s2) in
  giveaways (cog s2) !! giveaway_id = Some (set_assigned_prizes assigned g)
  ∧ ∃ new, sent c3 = sent (cog s2) ++ new
           ∧ ∀ ch id winner prize gif,
               Send ch (WinnerPost id winner prize gif) ∈ new →
               ∃ k, assigned !! k = Some prize ∧ prizes (cog s) !! k = Some prize.
Proof.
  intros Hadmin Hg Hopen Hparse Hne s1 s2 c3.
  destruct (assign_prizes_done w i giveaway_id prize_ids (cog s) g assigned missing)
    as (G1 & _); try done.
  destruct (remove_prize_kept d i' prize_id s1) as [(G2 & _) _].
  fold s2 in G2.
  assert (giveaways (cog s2) !! giveaway_id = Some (set_assigned_prizes assigned g))
    as Hg2.
  { rewrite G2. unfold s1. simpl. rewrite G1. apply lookup_insert_eq. }
  split; [done|].
  destruct (end_giveaway_effect w' giveaway_id (cog s2) _ Hg2)
    as (_ & _ & _ & _ & _ & _ & new & Hsent & _ & _ & Hwin).
  exists new. split; [done|].
  intros ch id winner prize gif Hin.
  destruct (Hwin ch id winner prize gif Hin) as (_ & _ & Hprize).
  destruct (select_prize_precedence w' _ _ _ Hprize) as (Hown & _).
  destruct Hown as [Hval _]; [done|]. simpl in Hval.
  unfold values in Hval. apply list_elem_of_fmap in Hval as ([k v] & -> & Hkv).
  apply elem_of_map_to_list in Hkv. exists k. split; [done|].
  pose proof (resolved_in_catalog _ _ _ _ Hparse) as Hsub.
  by eapply lookup_weaken.
Qed.

Lemma assigned_prizes_are_a_copy_witness :
  let s1 := with_cog (final (assign_prizes Scenario.world Scenario.admin Scenario.gid "1"
                                           Scenario.cog)) CatalogScenario.shelf in
  let s2 := remove_prize CatalogScenario.desk Scenario.admin "1" s1 in
  giveaways (cog s2) !! Scenario.gid
  = Some (set_assigned_prizes {["1" := "Sword"]} Scenario.box).
Proof.
  refine (proj1 (assigned_prizes_are_a_copy Scenario.world Scenario.world
                   CatalogScenario.desk Scenario.admin Scenario.admin Scenario.gid
                   "1" "1" CatalogScenario.shelf Scenario.box {["1" := "Sword"]} []
                   _ _ _ _ _)); try reflexivity.
  intros H. by apply (f_equal (λ m, m !! "1")) in H.
Defined.

Example removed_prize_still_won_ex :
  let s1 := with_cog (final (assign_prizes Scenario.world Scenario.admin Scenario.gid "1"
                                           Scenario.cog)) CatalogScenario.shelf in
  let s2 := remove_prize CatalogScenario.desk Scenario.admin "1" s1 in
  prizes (cog s2) = ∅
  ∧ sent (end_giveaway Scenario.world Scenario.gid (cog s2))
    = [Reply (PrizesAssigned []);
       Send 100 (WinnerPost Scenario.gid "42" "Sword" false);
       EditMessage 100 200 (WinnerEdit "42" "Sword")].
Proof. vm_compute. split; reflexivity. Qed.


(** *** From the upload of a list to its assignment *)

(** **** Line endings *)

Lemma isspace_CR : Py.isspace CR = true.
Proof. done. Qed.

Lemma CR_not_LF : Ascii.eqb LF CR = false.
Proof. done. Qed.

Lemma universal_newlines_cons (c : ascii) (text : string) :
  Ascii.eqb c CR = false →
  universal_newlines (String c text) = String c (universal_newlines text).
Proof. intros H. simpl. by rewrite H. Qed.

Lemma universal_newlines_crlf (text : string) :
  universal_newlines (String CR (String LF text))
  = String LF (universal_newlines text).
Proof. done. Qed.

(** The cases of a text whose carriage returns are followed by line
    feeds. *)
Lemma crlf_only_cases (text : string) :
  crlf_only text = true →
  text = ""
  ∨ (∃ t, text = String CR (String LF t) ∧ crlf_only (String LF t) = true)
  ∨ (∃ c t, text = String c t ∧ Ascii.eqb c CR = false ∧ crlf_only t = true).
Proof.
  destruct text as [|c t]; [by left|]. simpl.
  destruct (Ascii.eqb c CR) eqn:Hc.
  - apply Ascii.eqb_eq in Hc as ->. intros [Hs Ht]%andb_true_iff.
    destruct t as [|d t]; [done|]. simpl in Hs. apply Ascii.eqb_eq in Hs as ->.
    right. left. by exists t.
  - intros Ht. right. right. by exists c, t.
Qed.

Lemma universal_newlines_nonempty (c : ascii) (text : string) :
  crlf_only (String c text) = true →
  ∃ d r, universal_newlines (String c text) = String d r.
Proof.
  intros H. destruct (crlf_only_cases _ H) as [?|[(t & [= -> ->] & _)|(c' & t & [= <- <-] & Hc & _)]];
    [done| |].
  - rewrite universal_newlines_crlf. eauto.
  - rewrite universal_newlines_cons by done. eauto.
Qed.

Lemma lstrip_universal (text : string) :
  crlf_only text = true →
  Py.lstrip (universal_newlines text) = universal_newlines (Py.lstrip text)
  ∧ crlf_only (Py.lstrip text) = true.
Proof.
  induction text as [|c t IH]; [done|]. intros H.
  destruct (crlf_only_cases _ H) as [?|[(t' & [= -> ->] & Ht)|(c' & t' & [= <- <-] & Hc & Ht)]];
    [done| |].
  - destruct (IH Ht) as [IH1 IH2]. rewrite universal_newlines_crlf.
    change (Py.lstrip (String CR (String LF t'))) with (Py.lstrip t').
    change (Py.lstrip (String LF t')) with (Py.lstrip t') in IH1, IH2.
    change (Py.lstrip (String LF (universal_newlines t')))
      with (Py.lstrip (universal_newlines t')).
    change (universal_newlines (String LF t'))
      with (String LF (universal_newlines t')) in IH1.
    change (Py.lstrip (String LF (universal_newlines t')))
      with (Py.lstrip (universal_newlines t')) in IH1.
    done.
  - destruct (IH Ht) as [IH1 IH2]. rewrite universal_newlines_cons by done.
    simpl Py.lstrip. destruct (Py.isspace c); [done|].
    rewrite universal_newlines_cons by done. done.
Qed.

Lemma rstrip_cons (c : ascii) (s : string) :
  Py.rstrip (String c s)
  = match Py.rstrip s with
    | "" => if Py.isspace c then "" else String c ""
    | r => String c r
    end.
Proof. done. Qed.

Lemma rstrip_first (c : ascii) (s : string) :
  Py.rstrip (String c s) = "" ∨ ∃ r, Py.rstrip (String c s) = String c r.
Proof.
  rewrite rstrip_cons. destruct (Py.rstrip s); [|eauto].
  destruct (Py.isspace c); eauto.
Qed.

Lemma rstrip_universal (text : string) :
  crlf_only text = true →
  Py.rstrip (universal_newlines text) = universal_newlines (Py.rstrip text)
  ∧ crlf_only (Py.rstrip text) = true.
Proof.
  induction text as [|c t IH]; [done|]. intros H.
  destruct (crlf_only_cases _ H) as [?|[(t' & [= -> ->] & Ht)|(c' & t' & [= <- <-] & Hc & Ht)]];
    [done| |].
  - destruct (IH Ht) as [IH1 IH2]. rewrite universal_newlines_crlf.
    change (universal_newlines (String LF t'))
      with (String LF (universal_newlines t')) in IH1.
    rewrite IH1. rewrite (rstrip_cons CR).
    destruct (rstrip_first LF t') as [He|[r Hr]].
    + rewrite He. rewrite isspace_CR. done.
    + rewrite Hr in *. split; [done|]. simpl. simpl in IH2. done.
  - destruct (IH Ht) as [IH1 IH2]. rewrite universal_newlines_cons by done.
    rewrite !rstrip_cons, IH1.
    destruct (Py.rstrip t) as [|d r] eqn:Hr.
    + simpl. destruct (Py.isspace c); [done|]. simpl. by rewrite Hc.
    + destruct (universal_newlines_nonempty d r IH2) as (d' & r' & Hun).
      rewrite (universal_newlines_cons c) by done. rewrite Hun.
      split; [done|]. cbn [crlf_only]. rewrite Hc. cbn [crlf_only] in IH2.
      by rewrite IH2.
Qed.

Lemma strip_universal (text : string) :
  crlf_only text = true →
  Py.strip (universal_newlines text) = universal_newlines (Py.strip text)
  ∧ crlf_only (Py.strip text) = true.
Proof.
  intros H. unfold Py.strip. destruct (lstrip_universal text H) as [L1 L2].
  rewrite L1. by apply rstrip_universal.
Qed.


Lemma lstrip_app_cr (b : string) :
  Py.lstrip (b +:+ String CR "")
  = match Py.lstrip b with
    | "" => ""
    | l => l +:+ String CR ""
    end.
Proof.
  induction b as [|c b IH]; [done|].
  change (String c b +:+ String CR "") with (String c (b +:+ String CR "")).
  simpl Py.lstrip. destruct (Py.isspace c); done.
Qed.

Lemma rstrip_app_cr (b : string) : Py.rstrip (b +:+ String CR "") = Py.rstrip b.
Proof.
  induction b as [|c b IH]; [done|].
  change (String c b +:+ String CR "") with (String c (b +:+ String CR "")).
  by rewrite !rstrip_cons, IH.
Qed.

Lemma strip_same_line (line line' : string) :
  same_line line line' → Py.strip line = Py.strip line'.
Proof.
  intros [->| ->]; [done|]. unfold Py.strip. rewrite lstrip_app_cr.
  destruct (Py.lstrip line'); [done|]. apply rstrip_app_cr.
Qed.

Lemma split_cons_other (sep c : ascii) (s : string) :
  Ascii.eqb c sep = false →
  ∃ p ps, Py.split sep s = p :: ps ∧ Py.split sep (String c s) = String c p :: ps.
Proof.
  intros Hc. simpl. rewrite Hc. pose proof (split_nonempty sep s) as Hne.
  destruct (Py.split sep s) as [|p ps]; [done|]. eauto.
Qed.

(** Line by line, the text read back is the text written, but for the
    carriage returns at the end of the lines. *)
Lemma split_universal (text : string) :
  crlf_only text = true →
  Forall2 same_line (Py.split LF text) (Py.split LF (universal_newlines text)).
Proof.
  induction text as [|c t IH]; intros H.
  { repeat constructor. }
  destruct (crlf_only_cases _ H) as [?|[(t' & [= -> ->] & Ht)|(c' & t' & [= <- <-] & Hc & Ht)]];
    [done| |].
  - specialize (IH Ht). rewrite universal_newlines_crlf.
    change (universal_newlines (String LF t'))
      with (String LF (universal_newlines t')) in IH.
    change (Py.split LF (String LF (universal_newlines t')))
      with ("" :: Py.split LF (universal_newlines t')) in *.
    change (Py.split LF (String CR (String LF t')))
      with (String CR "" :: Py.split LF t').
    change (Py.split LF (String LF t')) with ("" :: Py.split LF t') in IH.
    apply Forall2_cons in IH as [_ IH]. constructor; [by right|done].
  - specialize (IH Ht). rewrite universal_newlines_cons by done.
    destruct (Ascii.eqb c LF) eqn:Hlf.
    + apply Ascii.eqb_eq in Hlf as ->.
      change (Py.split LF (String LF t)) with ("" :: Py.split LF t).
      change (Py.split LF (String LF (universal_newlines t)))
        with ("" :: Py.split LF (universal_newlines t)).
      constructor; [by left|done].
    + destruct (split_cons_other LF c t Hlf) as (p & ps & Hs & ->).
      destruct (split_cons_other LF c (universal_newlines t) Hlf)
        as (p' & ps' & Hs' & ->).
      rewrite Hs, Hs' in IH. apply Forall2_cons in IH as [[->| ->] IH].
      * constructor; [by left|done].
      * constructor; [by right|done].
Qed.

Lemma read_line_strip (prizes : dict) (line line' : string) :
  Py.strip line = Py.strip line' → read_line prizes line = read_line prizes line'.
Proof. intros H. unfold read_line. by rewrite H. Qed.

Lemma read_fold_same (lines lines' : list string) (prizes : dict) :
  Forall2 same_line lines lines' →
  foldl read_line prizes lines = foldl read_line prizes lines'.
Proof.
  intros H. revert prizes. induction H as [|l l' ls ls' Hl _ IH]; intros prizes;
    [done|].
  simpl. rewrite (read_line_strip prizes l l') by (by apply strip_same_line).
  apply IH.
Qed.

(** Reading the file back gives the entries of the text that was written,
    when every carriage return of the text is followed by a line feed. *)
Lemma read_prizes_universal (text : string) :
  crlf_only text = true →
  read_prizes (universal_newlines text) = read_prizes text.
Proof.
  intros H. unfold read_prizes. destruct (strip_universal text H) as [-> Hs].
  symmetry. apply read_fold_same. by apply split_universal.
Qed.

Lemma read_prizes_size (content : string) :
  size (list_to_map (read_prizes content) : gmap string string)
  = length (read_prizes content).
Proof. apply map_size_list_to_map, read_prizes_keys. Qed.


(** X19. From the upload to the giveaway. An administrator uploads a text
    that has a valid entry and whose lines end with a line feed or with a
    carriage return and a line feed, under a new id; the
    file is written; an administrator then assigns the list to an open
    giveaway. The giveaway gets the very entries that were counted at the
    upload: its prizes are the dictionary read from the text, as many as
    the count stored with the list and shown in both answers, and it
    remembers the id of the list. *)
Theorem uploaded_list_is_assigned (d d' : Desk) (i i' : Interaction)
    (list_id list_name giveaway_id content_text : string) (s : Shelf) (g : Giveaway) :
  admin_ok i (cog s) = true → admin_ok i' (cog s) = true →
  prize_lists s !! list_id = None →
  upload d = Some (Some content_text) → crlf_only content_text = true →
  read_prizes content_text ≠ [] →
  list_file_write_ok d = true → list_file_read_ok d' = true →
  giveaways (cog s) !! giveaway_id = Some g → ended g = false →
  let s1 := create_prize_list d i list_id list_name s in
  let s2 := assign_prize_list d' i' giveaway_id list_id s1 in
  let prizes_ := read_prizes content_text in
  (∃ entry, prize_lists s1 !! list_id = Some entry
            ∧ name entry = list_name ∧ prize_count entry = length prizes_
            ∧ created_by entry = Py.str (user_id i))
  ∧ list_files s1 !! list_id = Some content_text
  ∧ giveaways (cog s2)
    = <[giveaway_id := set_prize_list (list_to_map prizes_) list_id g]>
        (giveaways (cog s))
  ∧ size (list_to_map prizes_ : gmap string string) = length prizes_
  ∧ ∃ preview more invalid more_invalid,
      answers s2
      = answers s ++ [AskForFile;
                      ListCreated list_name list_id (length prizes_)
                                  preview more invalid more_invalid;
                      ListAssigned (title g) list_name (length prizes_)].
Proof.
  intros Hadmin Hadmin' Hnew Hup Hcr Hne Hwrite Hread Hg Hopen s1 s2 prizes_.
  set (entry := {| name := list_name; path := list_file_path list_id;
                   created_by := Py.str (user_id i); created_at := now (world d);
                   prize_count := length prizes_ |}).
  assert (∃ preview more invalid more_invalid,
            s1 = noted (InfoListCreated list_id (length prizes_))
                   (say (ListCreated list_name list_id (length prizes_)
                                     preview more invalid more_invalid)
                      (save_prize_lists d
                         (with_prize_lists (<[list_id := entry]> (prize_lists s))
                            (with_list_files (<[list_id := content_text]> (list_files s))
                               (say AskForFile s))))))
    as (preview & more & invalid & more_invalid & Hs1).
  { unfold s1, create_prize_list.
    destruct (check_admin_cases i s) as [[_ ->]|[Hno _]]; [|congruence]. simpl.
    rewrite Hnew. rewrite bool_decide_eq_false_2 by (by intros [? ?]).
    rewrite Hup. rewrite scan_prizes_read. fold prizes_.
    rewrite bool_decide_eq_false_2 by done.
    unfold save_prize_list_file. rewrite Hwrite. simpl. eauto. }
  assert (cog s1 = cog s ∧ prize_lists s1 = <[list_id := entry]> (prize_lists s)
          ∧ list_files s1 = <[list_id := content_text]> (list_files s))
    as (C1 & L1 & F1).
  { rewrite Hs1. unfold save_prize_lists. by destruct (lists_write_ok d). }
  split; [|split; [|split; [|split]]].
  - exists entry. rewrite L1, lookup_insert_eq. done.
  - by rewrite F1, lookup_insert_eq.
  - unfold s2, assign_prize_list.
    destruct (check_admin_cases i' s1) as [[_ ->]|[Hno _]];
      [|rewrite C1 in Hno; congruence]. simpl.
    rewrite C1, Hg, L1, lookup_insert_eq, Hopen.
    unfold load_prize_list_file. rewrite F1, lookup_insert_eq, Hread.
    rewrite read_prizes_universal by done. fold prizes_.
    rewrite bool_decide_eq_false_2 by done. simpl.
    by rewrite giveaways_save, C1.
  - apply read_prizes_size.
  - exists preview, more, invalid, more_invalid.
    unfold s2, assign_prize_list.
    destruct (check_admin_cases i' s1) as [[_ ->]|[Hno _]];
      [|rewrite C1 in Hno; congruence]. simpl.
    rewrite C1, Hg, L1, lookup_insert_eq, Hopen.
    unfold load_prize_list_file. rewrite F1, lookup_insert_eq, Hread.
    rewrite read_prizes_universal by done. fold prizes_.
    rewrite bool_decide_eq_false_2 by done. simpl.
    rewrite Hs1. unfold save_prize_lists. destruct (lists_write_ok d); simpl.
    all: by rewrite <- !app_assoc.
Qed.


Lemma uploaded_list_is_assigned_witness :
  let s1 := create_prize_list CatalogScenario.desk Scenario.admin "spring" "Spring"
                              CatalogScenario.shelf in
  let s2 := assign_prize_list CatalogScenario.desk Scenario.admin Scenario.gid
                              "spring" s1 in
  giveaways (cog s2)
  = <[Scenario.gid := set_prize_list
                        (list_to_map (read_prizes CatalogScenario.upload_text))
                        "spring" Scenario.box]>
      (giveaways (cog CatalogScenario.shelf)).
Proof.
  refine (proj1 (proj2 (proj2
            (uploaded_list_is_assigned CatalogScenario.desk CatalogScenario.desk
               Scenario.admin Scenario.admin "spring" "Spring" Scenario.gid
               CatalogScenario.upload_text CatalogScenario.shelf Scenario.box
               _ _ _ _ _ _ _ _ _ _)))); try reflexivity.
  vm_compute. discriminate.
Defined.

Example upload_ex :
  let st := scan CatalogScenario.upload_text in
  scan_prizes st = [("1", "Bow"); ("2", "Shield")]
  ∧ valid_lines st = ["1: Sword"; "2: Shield"; "1: Bow"]
  ∧ invalid_lines st = [(4%nat, "oops")].
Proof. vm_compute. repeat split. Qed.

(** A lone carriage return is inside a line for the upload and ends a
    line for the later readings of the file. *)
Example lone_cr_ex :
  let text := "1:a" +:+ String CR "2:b" in
  length (scan_prizes (scan text)) = 1%nat
  ∧ length (read_prizes (universal_newlines text)) = 2%nat.
Proof. vm_compute. split; reflexivity. Qed.

(** *** Removing a list *)

(** X20. [/removeprizelist] by an administrator on a known list takes it
    out of the table, writes the table, deletes the text file when the
    system lets it, and leaves the cog as it is: a giveaway that was given
    the list keeps its prizes. From then on [/viewprizelist] and
    [/assignprizelist] answer that the list is not found and change
    nothing else. *)
Theorem remove_prize_list_effect (d d' : Desk) (i i' : Interaction)
    (list_id giveaway_id : string) (s : Shelf) (entry : list_data) :
  admin_ok i (cog s) = true → admin_ok i' (cog s) = true →
  prize_lists s !! list_id = Some entry →
  let s1 := remove_prize_list d i list_id s in
  cog s1 = cog s
  ∧ prize_lists s1 = delete list_id (prize_lists s)
  ∧ (lists_write_ok d = true → lists_file s1 = Some (prize_lists s1))
  ∧ (list_file_remove_ok d = true → list_files s1 = delete list_id (list_files s))
  ∧ answers s1 = answers s ++ [ListRemoved (name entry)]
  ∧ view_prize_list d' i' list_id s1 = say ListNotFound s1
  ∧ (is_Some (giveaways (cog s) !! giveaway_id) →
     assign_prize_list d' i' giveaway_id list_id s1 = say ListNotFound s1).
Proof.
  intros Hadmin Hadmin' Hentry s1.
  assert (s1 = noted (InfoListRemoved list_id)
                 (say (ListRemoved (name entry))
                    (let s0 := save_prize_lists d
                                 (with_prize_lists (delete list_id (prize_lists s)) s) in
                     match list_files s0 !! list_id with
                     | Some _ =>
                         if list_file_remove_ok d
                         then with_list_files (delete list_id (list_files s0)) s0
                         else noted ErrorDeletingListFile s0
                     | None => s0
                     end))) as Hs1.
  { unfold s1, remove_prize_list.
    destruct (check_admin_cases i s) as [[_ ->]|[Hno _]]; [|congruence]. simpl.
    by rewrite Hentry. }
  assert (cog s1 = cog s ∧ prize_lists s1 = delete list_id (prize_lists s))
    as [C1 L1].
  { rewrite Hs1. unfold save_prize_lists. simpl.
    destruct (lists_write_ok d); simpl; repeat case_match; done. }
  split_and!; try done.
  - intros Hw. rewrite L1, Hs1. unfold save_prize_lists. rewrite Hw. simpl.
    repeat case_match; done.
  - intros Hr. rewrite Hs1. unfold save_prize_lists. rewrite Hr.
    destruct (lists_write_ok d); simpl.
    all: destruct (list_files s !! list_id) eqn:Hf; simpl; [done|].
    all: by rewrite delete_id.
  - rewrite Hs1. unfold save_prize_lists. simpl.
    destruct (lists_write_ok d); simpl; repeat case_match; done.
  - unfold view_prize_list.
    destruct (check_admin_cases i' s1) as [[_ ->]|[Hno _]];
      [|rewrite C1 in Hno; congruence]. simpl.
    by rewrite L1, lookup_delete_eq.
  - intros [g Hg]. unfold assign_prize_list.
    destruct (check_admin_cases i' s1) as [[_ ->]|[Hno _]];
      [|rewrite C1 in Hno; congruence]. simpl.
    by rewrite C1, Hg, L1, lookup_delete_eq.
Qed.


Lemma remove_prize_list_effect_witness :
  let s := create_prize_list CatalogScenario.desk Scenario.admin "spring" "Spring"
                             CatalogScenario.shelf in
  let s1 := remove_prize_list CatalogScenario.desk Scenario.admin "spring" s in
  assign_prize_list CatalogScenario.desk Scenario.admin Scenario.gid "spring" s1
  = say ListNotFound s1.
Proof.
  intros s s1.
  refine (proj2 (proj2 (proj2 (proj2 (proj2 (proj2
            (remove_prize_list_effect CatalogScenario.desk CatalogScenario.desk
               Scenario.admin Scenario.admin "spring" Scenario.gid s
               {| name := "Spring"; path := "data/prize_lists/spring.txt";
                  created_by := "7"; created_at := 1000000; prize_count := 2 |}
               _ _ _)))))) _); try reflexivity.
  by exists Scenario.box.
Defined.

(** *** Who may do what, and what is left alone *)

(** X21. The commands of the catalogue, of the lists and of the view of the
    participants are for administrators of the allowed guilds as well:
    called by anyone else outside debug mode, each answers with one
    refusal and changes nothing, neither the catalogue nor the lists nor
    their files. *)
Theorem catalogue_refused_without_rights (d : Desk) (i : Interaction)
    (prize_id prize_name list_id list_name giveaway_id : string) (s : Shelf) :
  admin_ok i (cog s) = false →
  ∃ r, (r = GuildNotAllowed ∨ r = NotAdministrator)
       ∧ let refused := with_cog (emit (Reply r) (cog s)) s in
         add_prize d i prize_id prize_name s = refused
         ∧ remove_prize d i prize_id s = refused
         ∧ view_participants d i giveaway_id s = refused
         ∧ create_prize_list d i list_id list_name s = refused
         ∧ view_prize_list d i list_id s = refused
         ∧ remove_prize_list d i list_id s = refused
         ∧ assign_prize_list d i giveaway_id list_id s = refused.
Proof.
  intros Hno.
  destruct (check_admin_cases i s) as [[Hok _]|[_ (r & Hr & Hc)]]; [congruence|].
  exists r. split; [done|].
  unfold add_prize, remove_prize, view_participants, create_prize_list,
    view_prize_list, remove_prize_list, assign_prize_list.
  rewrite Hc. simpl. by split_and!.
Qed.

Lemma catalogue_refused_without_rights_witness :
  ∃ r, (r = GuildNotAllowed ∨ r = NotAdministrator)
       ∧ remove_prize CatalogScenario.desk Scenario.member "1" CatalogScenario.shelf
         = with_cog (emit (Reply r) Scenario.cog) CatalogScenario.shelf.
Proof.
  destruct (catalogue_refused_without_rights CatalogScenario.desk Scenario.member
              "1" "" "" "" "" CatalogScenario.shelf) as (r & Hr & _ & H & _);
    [reflexivity|].
  by exists r.
Defined.

Lemma assign_prize_list_kept (d : Desk) (i : Interaction)
    (giveaway_id list_id : string) (s : Shelf) :
  let c := cog s in
  let c' := cog (assign_prize_list d i giveaway_id list_id s) in
  guarded_update giveaway_id (giveaways c) (giveaways c')
  ∧ active_giveaways c' = active_giveaways c ∧ tasks c' = tasks c
  ∧ prizes c' = prizes c
  ∧ ∃ new, sent c' = sent c ++ new ∧ Forall (λ e, is_post e = false) new.
Proof.
  unfold assign_prize_list.
  destruct (check_admin_cases i s) as [[_ ->]|[_ (r & _ & ->)]]; simpl.
  2:{ split_and!; try done; [by left|]. exists [Reply r]. split; [done|].
      by repeat constructor. }
  destruct (giveaways (cog s) !! giveaway_id) as [g|] eqn:Hg; simpl.
  2:{ split_and!; try done; [by left|]. exists []. split; [|constructor].
      by rewrite app_nil_r. }
  unfold load_prize_list_file.
  repeat case_match; simplify_eq; simpl;
    rewrite ?giveaways_save, ?active_save, ?tasks_save, ?prizes_save, ?sent_save;
    simpl; split_and!; try done; try (by left);
    try (exists []; split; [by rewrite app_nil_r|constructor]).
  right. exists g. eexists. by split_and!.
Qed.

(** X22. These commands leave the engine alone. The catalogue commands, the
    views and the creation and removal of a list change no giveaway, no
    timer, no task and not the file of giveaways, and post nothing in a
    channel. [/assignprizelist] alone touches a giveaway, and only the one
    it names, and only when that one is open. *)
Theorem catalogue_leaves_engine_alone (d : Desk) (i : Interaction)
    (prize_id prize_name list_id list_name giveaway_id : string) (s : Shelf) :
  engine_kept (cog s) (cog (add_prize d i prize_id prize_name s))
  ∧ engine_kept (cog s) (cog (remove_prize d i prize_id s))
  ∧ engine_kept (cog s) (cog (view_participants d i giveaway_id s))
  ∧ engine_kept (cog s) (cog (create_prize_list d i list_id list_name s))
  ∧ engine_kept (cog s) (cog (view_prize_list d i list_id s))
  ∧ engine_kept (cog s) (cog (remove_prize_list d i list_id s))
  ∧ guarded_update giveaway_id (giveaways (cog s))
      (giveaways (cog (assign_prize_list d i giveaway_id list_id s)))
  ∧ active_giveaways (cog (assign_prize_list d i giveaway_id list_id s))
    = active_giveaways (cog s)
  ∧ tasks (cog (assign_prize_list d i giveaway_id list_id s)) = tasks (cog s).
Proof.
  split_and!.
  - apply add_prize_kept.
  - apply remove_prize_kept.
  - apply view_participants_kept.
  - apply create_prize_list_kept.
  - apply view_prize_list_kept.
  - apply remove_prize_list_kept.
  - apply assign_prize_list_kept.
  - apply assign_prize_list_kept.
  - apply assign_prize_list_kept.
Qed.


(** *** The views *)

(** X23. [/participants] lists everyone once. For an administrator and a
    giveaway with participants, the answer carries the number of
    participants and fields that, read one after the other, have one line
    per participant in the order of entry: the name when the id is an
    integer and the user is found, the raw id otherwise. Every field has
    between 1 and 25 lines and is labelled with the positions of its first
    and last line, counted from 1. Nothing else changes. *)
Theorem view_participants_lists_everyone (d : Desk) (i : Interaction)
    (giveaway_id : string) (s : Shelf) (g : Giveaway) :
  admin_ok i (cog s) = true →
  giveaways (cog s) !! giveaway_id = Some g → participants g ≠ [] →
  ∃ fields,
    view_participants d i giveaway_id s
    = say (ParticipantsView (title g) (length (participants g)) fields giveaway_id) s
    ∧ length (concat (chunk <$> fields)) = length (participants g)
    ∧ (∀ k u, participants g !! k = Some u →
         ∃ line, concat (chunk <$> fields) !! k = Some line
                 ∧ (line = UnknownUser u
                    ∨ ∃ user_name user, line = KnownUser user_name user
                                        ∧ Py.int u = Some user
                                        ∧ fetch_user d user = Some user_name))
    ∧ (∀ k f, fields !! k = Some f →
         (0 < length (chunk f) ≤ 25)%nat
         ∧ from_index f = (k * 25 + 1)%nat
         ∧ to_index f = ((k * 25 + 25) `min` length (participants g))%nat).
Proof.
  intros Hadmin Hg Hne.
  set (line_of := λ user_id : string,
         match Py.int user_id with
         | Some user =>
             match fetch_user d user with
             | Some user_name => KnownUser user_name user
             | None => UnknownUser user_id
             end
         | None => UnknownUser user_id
         end).
  exists (fields_of 25 (line_of <$> participants g)).
  destruct (fields_of_cover 25 (line_of <$> participants g)) as [Hcat Hfields]; [lia|].
  split_and!.
  - unfold view_participants.
    destruct (check_admin_cases i s) as [[_ ->]|[Hno _]]; [|congruence]. simpl.
    rewrite Hg. by destruct (participants g).
  - by rewrite Hcat, length_fmap.
  - intros k u Hu. rewrite Hcat, list_lookup_fmap, Hu. simpl.
    eexists. split; [done|]. unfold line_of.
    destruct (Py.int u) as [user|]; [|by left].
    destruct (fetch_user d user) as [user_name|] eqn:Hf; [|by left].
    right. by exists user_name, user.
  - intros k f Hf. destruct (Hfields k f Hf) as (_ & H1 & H2 & H3).
    rewrite length_fmap in H3. done.
Qed.

Lemma view_participants_lists_everyone_witness :
  ∃ fields,
    view_participants CatalogScenario.desk Scenario.admin Scenario.gid
                      CatalogScenario.shelf
    = say (ParticipantsView "Box" 1 fields Scenario.gid) CatalogScenario.shelf
    ∧ length (concat (chunk <$> fields)) = 1%nat.
Proof.
  destruct (view_participants_lists_everyone CatalogScenario.desk Scenario.admin
              Scenario.gid CatalogScenario.shelf Scenario.box)
    as (fields & H1 & H2 & _); try reflexivity; [discriminate|].
  by exists fields.
Defined.

Example view_participants_ex :
  answers (view_participants CatalogScenario.desk Scenario.admin Scenario.gid
                             CatalogScenario.shelf)
  = [ParticipantsView "Box" 1
       [{| from_index := 1; to_index := 1; chunk := [KnownUser "ann" 42] |}]
       Scenario.gid].
Proof. vm_compute. reflexivity. Qed.

(** X24. [/viewprizelist] shows the whole list. For an administrator, a
    known list and a text file that can be read, the answer carries the
    number of entries read from the file and fields that, read one after
    the other, are these entries in their order, at most 15 per field; the
    file is attached exactly when there are more than 50 entries. When the
    file is missing or cannot be read the answer says so. Nothing else
    changes but the log. *)
Theorem view_prize_list_shows_all (d : Desk) (i : Interaction) (list_id : string)
    (s : Shelf) (entry : list_data) :
  admin_ok i (cog s) = true → prize_lists s !! list_id = Some entry →
  (∀ text, list_files s !! list_id = Some text → list_file_read_ok d = true →
     let prizes_ := read_prizes (universal_newlines text) in
     ∃ fields,
       view_prize_list d i list_id s
       = say (ListView (name entry) list_id (length prizes_) fields
                       (50 <? length prizes_)%nat) s
       ∧ concat (chunk <$> fields) = prizes_
       ∧ ∀ k f, fields !! k = Some f →
                (0 < length (chunk f) ≤ 15)%nat
                ∧ from_index f = (k * 15 + 1)%nat
                ∧ to_index f = ((k * 15 + 15) `min` length prizes_)%nat)
  ∧ (list_files s !! list_id = None →
     view_prize_list d i list_id s = say ListUnreadable (noted ErrorListFileMissing s))
  ∧ (is_Some (list_files s !! list_id) → list_file_read_ok d = false →
     view_prize_list d i list_id s = say ListUnreadable (noted ErrorLoadingListFile s)).
Proof.
  intros Hadmin Hentry.
  assert (view_prize_list d i list_id s
          = match load_prize_list_file d list_id s with
            | (None, s) => say ListUnreadable s
            | (Some content, s) =>
                let prizes := read_prizes content in
                say (ListView (name entry) list_id (length prizes)
                              (fields_of 15 prizes) (50 <? length prizes)%nat) s
            end) as ->.
  { unfold view_prize_list.
    destruct (check_admin_cases i s) as [[_ ->]|[Hno _]]; [|congruence]. simpl.
    by rewrite Hentry. }
  unfold load_prize_list_file. split_and!.
  - intros text Hfile Hread. rewrite Hfile, Hread.
    set (prizes_ := read_prizes (universal_newlines text)).
    exists (fields_of 15 prizes_).
    destruct (fields_of_cover 15 prizes_) as [Hcat Hfields]; [lia|].
    split_and!; try done.
    intros k f Hf. by destruct (Hfields k f Hf) as (_ & H1 & H2 & H3).
  - by intros ->.
  - intros [text ->] ->. done.
Qed.

Lemma view_prize_list_shows_all_witness :
  let s := create_prize_list CatalogScenario.desk Scenario.admin "spring" "Spring"
                             CatalogScenario.shelf in
  ∃ fields,
    view_prize_list CatalogScenario.desk Scenario.admin "spring" s
    = say (ListView "Spring" "spring" 2 fields false) s
    ∧ concat (chunk <$> fields) = [("1", "Bow"); ("2", "Shield")].
Proof.
  intros s.
  destruct (proj1 (view_prize_list_shows_all CatalogScenario.desk Scenario.admin
                     "spring" s
                     {| name := "Spring"; path := "data/prize_lists/spring.txt";
                        created_by := "7"; created_at := 1000000; prize_count := 2 |}
                     eq_refl eq_refl)
              CatalogScenario.upload_text eq_refl eq_refl)
    as (fields & H1 & H2 & _).
  by exists fields.
Defined.

End CatalogFacts.

(** ** Runs of the cog: start-up and what follows *)

Module RunsFacts.
Import Engine EngineSpec EngineInv EngineFacts PyFacts EngineMore.
Import Catalog CatalogSpec CatalogFacts Runs.

(** *** Start-up *)

Lemma sound_starting (c : Cog) : sound c → starting c.
Proof.
  intros [H1 H2]. split; [| | |done].
  - intros h t Hh Hp. by destruct (H1 h t Hh Hp).
  - intros h id seconds Hh. by destruct (H1 h _ Hh eq_refl).
  - intros h h' t t' Hh Hh' Hp Hp' Heq.
    destruct (H1 h t Hh Hp) as [Hr _]. destruct (H1 h' t' Hh' Hp') as [Hr' _].
    rewrite Heq in Hr. congruence.
Qed.

Lemma starting_sound (c : Cog) :
  starting c → (∀ h t, tasks c !! h = Some t → missed_end t = false) → sound c.
Proof.
  intros [H1 H2 H3 H4] Hnone. split; [|done].
  intros h t Hh Hp. split; [|by apply (H1 h)].
  destruct t as [[id seconds|id] st]; simpl in *; subst st.
  - by apply (H2 h id seconds).
  - by specialize (Hnone h _ Hh).
Qed.

(** The tasks of the sweep: a timer is in the table under its giveaway,
    and no two tasks work on the same giveaway. *)
Lemma restore_sweep_alone (now_ : Z) (c : Cog) (items : list (string * Giveaway)) :
  NoDup items.*1 →
  let c' := foldl (restore now_) c items in
  (∀ h t, tasks c' !! h = Some t → (length (tasks c) ≤ h)%nat →
          target (coro t) ∈ items.*1)
  ∧ (∀ h giveaway_id seconds,
       tasks c' !! h = Some {| coro := ScheduleGiveawayEnd giveaway_id seconds;
                               status := Pending |} →
       (length (tasks c) ≤ h)%nat →
       active_giveaways c' !! giveaway_id = Some h)
  ∧ (∀ h h' t t', tasks c' !! h = Some t → tasks c' !! h' = Some t' →
                  (length (tasks c) ≤ h)%nat → (length (tasks c) ≤ h')%nat →
                  target (coro t) = target (coro t') → h = h').
Proof.
  induction items as [|[k x] items IH] using rev_ind; intros Hnodup c'.
  - subst c'. simpl. split_and!.
    + intros h t Hh Hlen. apply lookup_lt_Some in Hh. lia.
    + intros h id seconds Hh Hlen. apply lookup_lt_Some in Hh. lia.
    + intros h h' t t' Hh _ Hlen. apply lookup_lt_Some in Hh. lia.
  - rewrite fmap_app in Hnodup. simpl in Hnodup.
    apply NoDup_app in Hnodup as (Hnodup & Hk & _).
    assert (k ∉ items.*1) as Hfresh.
    { intros Hin. apply (Hk k Hin). apply list_elem_of_here. }
    destruct (IH Hnodup) as (I1 & I2 & I3).
    destruct (restore_sweep now_ c items Hnodup) as (_ & (extra & Hextra & _) & _).
    unfold c'. rewrite foldl_app, fmap_app. simpl.
    set (c1 := foldl (restore now_) c items) in *.
    assert (length (tasks c) ≤ length (tasks c1))%nat as Hlen1.
    { rewrite Hextra, length_app. lia. }
    destruct (ended x) eqn:Hended; [|destruct (now_ <? end_time x) eqn:Hfuture].
    + split_and!.
      * intros h t Hh Hlen. apply elem_of_app. left. by apply (I1 h).
      * done.
      * done.
    + simpl. split_and!.
      * intros h t Hh Hlen. apply elem_of_app.
        apply lookup_app_Some in Hh as [Hh|[_ Hh]].
        -- left. by apply (I1 h).
        -- right. apply list_lookup_singleton_Some in Hh as [_ <-].
           apply list_elem_of_here.
      * intros h id seconds Hh Hlen.
        apply lookup_app_Some in Hh as [Hh|[Hge Hh]].
        -- rewrite lookup_insert_ne; [by apply (I2 h id seconds)|].
           intros <-. apply Hfresh. by apply (I1 h _ Hh).
        -- apply list_lookup_singleton_Some in Hh as [Hz [= <- _]].
           rewrite lookup_insert_eq. f_equal. lia.
      * intros h h' t t' Hh Hh' Hlen Hlen' Heq.
        apply lookup_app_Some in Hh as [Hh|[Hge Hh]];
          apply lookup_app_Some in Hh' as [Hh'|[Hge' Hh']].
        -- by apply (I3 h h' t t').
        -- apply list_lookup_singleton_Some in Hh' as [_ <-]. simpl in Heq.
           exfalso. apply Hfresh. rewrite <- Heq. by apply (I1 h).
        -- apply list_lookup_singleton_Some in Hh as [_ <-]. simpl in Heq.
           exfalso. apply Hfresh. rewrite Heq. by apply (I1 h').
        -- apply list_lookup_singleton_Some in Hh as [Hz _].
           apply list_lookup_singleton_Some in Hh' as [Hz' _]. lia.
    + simpl. split_and!.
      * intros h t Hh Hlen. apply elem_of_app.
        apply lookup_app_Some in Hh as [Hh|[_ Hh]].
        -- left. by apply (I1 h).
        -- right. apply list_lookup_singleton_Some in Hh as [_ <-].
           apply list_elem_of_here.
      * intros h id seconds Hh Hlen.
        apply lookup_app_Some in Hh as [Hh|[Hge Hh]].
        -- by apply (I2 h id seconds).
        -- by apply list_lookup_singleton_Some in Hh as [_ [=]].
      * intros h h' t t' Hh Hh' Hlen Hlen' Heq.
        apply lookup_app_Some in Hh as [Hh|[Hge Hh]];
          apply lookup_app_Some in Hh' as [Hh'|[Hge' Hh']].
        -- by apply (I3 h h' t t').
        -- apply list_lookup_singleton_Some in Hh' as [_ <-]. simpl in Heq.
           exfalso. apply Hfresh. rewrite <- Heq. by apply (I1 h).
        -- apply list_lookup_singleton_Some in Hh as [_ <-]. simpl in Heq.
           exfalso. apply Hfresh. rewrite Heq. by apply (I1 h').
        -- apply list_lookup_singleton_Some in Hh as [Hz _].
           apply list_lookup_singleton_Some in Hh' as [Hz' _]. lia.
Qed.

Lemma init_starting (w : World) (file : option (gmap string Giveaway))
    (prizes_ gifs_ : gmap string string) (debug : bool) :
  starting (init w file prizes_ gifs_ debug).
Proof.
  unfold init, reload_active_giveaways.
  set (c := {| giveaways := load_giveaways file; prizes := prizes_; gifs := gifs_;
               debug_mode := debug; active_giveaways := ∅; tasks := [];
               giveaways_file := file; sent := []; log := [] |}).
  change (giveaways c) with (load_giveaways file).
  assert (∀ items c0, sent (foldl (restore (now w)) c0 items) = sent c0) as Hsent.
  { induction items as [|[k x] items IH]; intros c0; simpl; [done|].
    rewrite IH. unfold restore. by repeat case_match. }
  destruct (restore_sweep (now w) c (map_to_list (load_giveaways file)))
    as (H1 & _); [apply NoDup_fst_map_to_list|].
  pose proof (restore_sweep_tasks (now w) c (map_to_list (load_giveaways file))
                (NoDup_fst_map_to_list _)) as H2.
  destruct (restore_sweep_alone (now w) c (map_to_list (load_giveaways file))
              (NoDup_fst_map_to_list _)) as (_ & H3 & H4).
  simpl in H2, H3, H4. split.
  - intros h t Hh _. destruct (H2 h t Hh) as (_ & g & Hg & Ho & _); [lia|].
    apply elem_of_map_to_list in Hg. exists g. by rewrite H1.
  - intros h id seconds Hh. apply (H3 h id seconds Hh). lia.
  - intros h h' t t' Hh Hh' _ _ Heq. apply (H4 h h' t t' Hh Hh'); [lia|lia|done].
  - intros id. rewrite Hsent. simpl. unfold winners_for. simpl. split; lia.
Qed.

(** The turn of a pending task keeps the state of start-up. *)
Lemma run_pending_starting (w : World) (h : nat) (co : coroutine) (c : Cog) :
  starting c → tasks c !! h = Some {| coro := co; status := Pending |} →
  starting (run_task w h c)
  ∧ tasks (run_task w h c) = <[h := {| coro := co; status := Finished |}]> (tasks c).
Proof.
  intros [H1 H2 H3 H4] Hh.
  destruct (H1 h _ Hh eq_refl) as (g & Hg & Hopen). simpl in Hg.
  assert (run_task w h c = end_giveaway w (target co) (finish h co c)) as ->.
  { unfold run_task. rewrite Hh. by destruct co. }
  destruct (end_giveaway_effect w (target co) (finish h co c) g Hg)
    as (Eg & _ & _ & _ & Et & Ea & new & Es & Ele & _ & Epost).
  simpl in Eg, Et, Ea, Es.
  assert (∀ h' t', (<[h := {| coro := co; status := Finished |}]> (tasks c)) !! h'
                   = Some t' → status t' = Pending →
                   h' ≠ h ∧ tasks c !! h' = Some t') as Hold.
  { intros h' t' Hh' Hp. destruct (decide (h' = h)) as [->|Hne].
    - rewrite list_lookup_insert_eq in Hh' by (by eapply lookup_lt_Some).
      injection Hh' as <-. simpl in Hp. congruence.
    - rewrite list_lookup_insert_ne in Hh' by done. done. }
  assert (∀ h' t', (<[h := {| coro := co; status := Finished |}]> (tasks c)) !! h'
                   = Some t' → status t' = Pending →
                   target (coro t') ≠ target co) as Hfree.
  { intros h' t' Hh' Hp Heq. destruct (Hold h' t' Hh' Hp) as [Hne Hc].
    apply Hne. by apply (H3 h' h t' _ Hc Hh Hp eq_refl). }
  split; [|done]. split.
  - intros h' t'. rewrite Et. intros Hh' Hp.
    destruct (Hold h' t' Hh' Hp) as [_ Hc].
    destruct (H1 h' t' Hc Hp) as (g' & Hg' & Ho). exists g'.
    rewrite Eg, lookup_insert_ne; [done|]. intros Heq.
    by apply (Hfree h' t' Hh' Hp).
  - intros h' id seconds. rewrite Et. intros Hh'.
    destruct (Hold h' _ Hh' eq_refl) as [_ Hc].
    pose proof (Hfree h' _ Hh' eq_refl) as Hne. simpl in Hne.
    pose proof (H2 h' id seconds Hc) as Hr.
    destruct Ea as [-> | ->]; [done|]. by rewrite lookup_delete_ne.
  - intros h1 h2 t1 t2. rewrite Et. intros Hh1 Hh2 Hp1 Hp2 Heq.
    destruct (Hold h1 t1 Hh1 Hp1) as [_ Hc1].
    destruct (Hold h2 t2 Hh2 Hp2) as [_ Hc2].
    by apply (H3 h1 h2 t1 t2).
  - intros id. rewrite Es, winners_for_app, Eg.
    destruct (H4 id) as [Hle Hen].
    destruct (decide (id = target co)) as [->|Hne].
    + assert (winners_for (target co) (sent c) = 0%nat) as Hzero.
      { destruct (winners_for (target co) (sent c)) as [|n] eqn:Hn; [done|].
        destruct Hen as (g' & Hk & He); [lia|]. congruence. }
      rewrite Hzero. pose proof (winners_for_le (target co) new). split; [lia|].
      intros _. exists (set_ended true g). split; [apply lookup_insert_eq|done].
    + rewrite (winners_for_other id (target co) new);
        [|by intros; eapply Epost|done].
      rewrite Nat.add_0_r. split; [done|]. intros Hone.
      destruct (Hen Hone) as (g' & Hk & He). exists g'.
      by rewrite lookup_insert_ne.
Qed.

Lemma settle_one_starting (ws : nat → World) (c : Cog) (h : nat) :
  starting c →
  let c' := settle_one ws c h in
  starting c'
  ∧ length (tasks c') = length (tasks c)
  ∧ (∀ t, tasks c' !! h = Some t → missed_end t = false)
  ∧ (∀ h' t, h' ≠ h → tasks c' !! h' = Some t → tasks c !! h' = Some t).
Proof.
  intros Hs. unfold settle_one.
  destruct (tasks c !! h) as [[co st]|] eqn:Hh; simpl.
  - destruct (missed_end {| coro := co; status := st |}) eqn:Hm.
    + assert (st = Pending) as ->.
      { unfold missed_end in Hm. simpl in Hm. by destruct co, st. }
      destruct (run_pending_starting (ws h) h co c Hs Hh) as [Hs' Ht].
      split_and!; [done| | |].
      * by rewrite Ht, length_insert.
      * intros t. rewrite Ht.
        rewrite list_lookup_insert_eq by (by eapply lookup_lt_Some).
        intros [= <-]. unfold missed_end. simpl. by destruct co.
      * intros h' t Hne. rewrite Ht. by rewrite list_lookup_insert_ne.
    + split_and!; try done. intros t. rewrite Hh. by intros [= <-].
  - split_and!; try done. intros t. by rewrite Hh.
Qed.

Lemma settle_fold (ws : nat → World) (n : nat) (c : Cog) :
  starting c →
  let c' := foldl (settle_one ws) c (seq 0 n) in
  starting c'
  ∧ length (tasks c') = length (tasks c)
  ∧ ∀ h t, (h < n)%nat → tasks c' !! h = Some t → missed_end t = false.
Proof.
  intros Hs. induction n as [|n IH].
  - simpl. split_and!; try done. intros h t Hlt. lia.
  - rewrite seq_S, foldl_app. simpl.
    destruct IH as (I1 & I2 & I3).
    destruct (settle_one_starting ws (foldl (settle_one ws) c (seq 0 n)) n I1)
      as (S1 & S2 & S3 & S4).
    split_and!; [done|congruence|].
    intros h t Hlt Hh. destruct (decide (h = n)) as [->|Hne].
    + by apply S3.
    + apply (I3 h); [lia|]. by apply S4.
Qed.

Lemma settle_sound (ws : nat → World) (c : Cog) : starting c → sound (settle ws c).
Proof.
  intros Hs. unfold settle.
  destruct (settle_fold ws (length (tasks c)) c Hs) as (S1 & S2 & S3).
  apply starting_sound; [done|]. intros h t Hh. apply (S3 h); [|done].
  apply lookup_lt_Some in Hh. lia.
Qed.

(** *** Serial runs *)

Lemma engine_kept_sound (c c' : Cog) : engine_kept c c' → sound c → sound c'.
Proof.
  intros (Hg & _ & Ha & Ht & _ & _ & new & Hs & Hq) Hsound.
  apply (sound_quiet c); try done.
  - intros id g Hk. exists g. by rewrite Hg.
  - exists new. split; [done|]. eapply Forall_impl; [exact Hq|].
    intros [| ? [] |]; simpl; congruence.
Qed.

Lemma assign_prize_list_sound (d : Desk) (i : Interaction)
    (giveaway_id list_id : string) (s : Shelf) :
  sound (cog s) → sound (cog (assign_prize_list d i giveaway_id list_id s)).
Proof.
  intros Hs. unfold assign_prize_list.
  destruct (check_admin_cases i s) as [[_ ->]|[_ (r & _ & ->)]]; simpl;
    [|by apply sound_emit].
  destruct (giveaways (cog s) !! giveaway_id) as [g|] eqn:Hg; simpl; [|done].
  unfold load_prize_list_file.
  repeat case_match; simplify_eq; simpl; try done.
  apply sound_save. by apply (sound_update_open _ _ g).
Qed.

Lemma runs_step_sound (s s' : Shelf) : sound (cog s) → Runs.step s s' → sound (cog s').
Proof.
  intros Hs [].
  - simpl. by eapply step_sound.
  - eapply engine_kept_sound; [apply add_prize_kept|done].
  - eapply engine_kept_sound; [apply remove_prize_kept|done].
  - eapply engine_kept_sound; [apply view_participants_kept|done].
  - eapply engine_kept_sound; [apply create_prize_list_kept|done].
  - eapply engine_kept_sound; [apply view_prize_list_kept|done].
  - eapply engine_kept_sound; [apply remove_prize_list_kept|done].
  - by apply assign_prize_list_sound.
Qed.

(** X5. At most one winner in a run without overlap. Take the cog as
    start-up leaves it once the resolutions missed during downtime have
    had their turn, or in any sound state of the timers. Whatever
    commands of the engine, of the catalogue, of the lists and of the
    views, presses of the button and turns of tasks follow, each carried
    to its end before the next begins, in whatever worlds (giveaways being
    created under ids not yet in use), the state stays sound and no
    giveaway has two winners announced. Commands that overlap are not
    covered: two [/endgiveaway] that do announce two winners. *)
Theorem at_most_one_winner (ws : nat → World) (w : World)
    (file : option (gmap string Giveaway)) (prizes_ gifs_ : gmap string string)
    (debug : bool) (s s' : Shelf) :
  cog s = settle ws (init w file prizes_ gifs_ debug) ∨ sound (cog s) →
  rtc Runs.step s s' →
  sound (cog s') ∧ ∀ giveaway_id, (winners_for giveaway_id (sent (cog s')) ≤ 1)%nat.
Proof.
  intros Hstart Hsteps.
  assert (sound (cog s)) as Hs.
  { destruct Hstart as [->|Hs]; [|done]. apply settle_sound, init_starting. }
  assert (sound (cog s')) as Hs'.
  { clear Hstart. induction Hsteps as [|s0 s1 s2 Hstep _ IH]; [done|].
    apply IH. by eapply runs_step_sound. }
  split; [done|]. intros id. by destruct (winner_once (cog s') Hs' id).
Qed.

Lemma at_most_one_winner_witness :
  let m : gmap string Giveaway :=
    {[Scenario.gid := set_end_time 900000 Scenario.box]} in
  let c := settle (λ _, Scenario.world) (init Scenario.world (Some m) ∅ ∅ false) in
  let s := with_cog c CatalogScenario.shelf in
  let s1 := with_cog (end_giveaway_command Scenario.world Scenario.admin
                                           Scenario.gid (cog s)) s in
  let s2 := assign_prize_list CatalogScenario.desk Scenario.admin Scenario.gid
                              "spring" s1 in
  (winners_for Scenario.gid (sent (cog s2)) ≤ 1)%nat.
Proof.
  intros m c s s1 s2.
  apply (at_most_one_winner (λ _, Scenario.world) Scenario.world (Some m) ∅ ∅
           false s s2).
  - left. reflexivity.
  - eapply rtc_l; [apply (step_engine s), step_end|].
    apply rtc_once. apply step_assign_prize_list.
Defined.

(** Start-up with an overdue giveaway: its resolution has its turn before
    any command, and a [/endgiveaway] that follows is told that the
    giveaway has ended. *)
Example settle_ex :
  let m : gmap string Giveaway :=
    {[Scenario.gid := set_end_time 900000 Scenario.box]} in
  let c0 := init Scenario.world (Some m) ∅ ∅ false in
  let c := settle (λ _, Scenario.world) c0 in
  let c' := end_giveaway_command Scenario.world Scenario.admin Scenario.gid c in
  tasks c0 = [{| coro := EndGiveaway Scenario.gid; status := Pending |}]
  ∧ tasks c = [{| coro := EndGiveaway Scenario.gid; status := Finished |}]
  ∧ winners_for Scenario.gid (sent c) = 1%nat
  ∧ sent c' = sent c ++ [Reply AlreadyEnded].
Proof. vm_compute. repeat split. Qed.

End RunsFacts.

(** ** The start of the process *)

Module MainFacts.
Import QArith Qminmax Lqa.
Import Main MainSpec.
Local Open Scope Q_scope.

Lemma capped (x k : Q) :
  0 <= x → x <= MAX_RETRY_INTERVAL → x <= x * k →
  x <= Qmin (x * k) MAX_RETRY_INTERVAL ∧ Qmin (x * k) MAX_RETRY_INTERVAL <= MAX_RETRY_INTERVAL.
Proof.
  intros H0 H1 Hk. split; [by apply Q.min_glb|]. apply Q.le_min_r.
Qed.

Lemma handle_grows (a : attempt) (x : Q) :
  0 <= x → x <= MAX_RETRY_INTERVAL →
  x <= handle a x ∧ handle a x <= MAX_RETRY_INTERVAL.
Proof.
  intros H0 H1. unfold handle.
  destruct a; try (split; [apply Qle_refl|done]); apply capped; try done; lra.
Qed.

Lemma loop_done (attempts : list attempt) (st : loop_state) :
  (MAX_RETRIES ≤ retry_count st)%nat → loop attempts st = ([], Returned).
Proof.
  intros H. destruct attempts; simpl.
  all: by rewrite (proj2 (Nat.ltb_ge _ _) H).
Qed.

(** The pauses from a state on: each lies between the interval of the
    state and the cap, and they never decrease. *)
Lemma loop_pauses (attempts : list attempt) (st : loop_state) :
  0 <= retry_interval st → retry_interval st <= MAX_RETRY_INTERVAL →
  Forall (λ s, retry_interval st <= s ∧ s <= MAX_RETRY_INTERVAL)
         (retry_pauses (loop attempts st).1)
  ∧ StronglySorted Qle (retry_pauses (loop attempts st).1).
Proof.
  revert st. induction attempts as [|a attempts IH]; intros st H0 H1.
  { simpl. destruct (negb _); simpl; split; constructor. }
  destruct (decide (MAX_RETRIES ≤ retry_count st)%nat) as [Hmax|Hmax].
  { rewrite loop_done by done. simpl. split; constructor. }
  assert ((retry_count st <? MAX_RETRIES)%nat = true) as Hlt
    by (apply Nat.ltb_lt; lia).
  assert (∀ st', 0 <= retry_interval st' → retry_interval st' <= MAX_RETRY_INTERVAL →
                 retry_interval st <= retry_interval st' →
                 Forall (λ s, retry_interval st <= s ∧ s <= MAX_RETRY_INTERVAL)
                        (retry_pauses (loop attempts st').1)
                 ∧ StronglySorted Qle (retry_pauses (loop attempts st').1)) as Hnext.
  { intros st' H0' H1' Hle. destruct (IH st' H0' H1') as [F S]. split; [|done].
    eapply Forall_impl; [exact F|]. simpl. intros s [Hs1 Hs2]. split; [|done].
    by eapply Qle_trans. }
  destruct (handle_grows a (retry_interval st) H0 H1) as [Hg1 Hg2].
  assert (0 <= handle a (retry_interval st)) as Hg0 by (by eapply Qle_trans).
  destruct (capped (handle a (retry_interval st)) 2 Hg0 Hg2 ltac:(lra)) as [Hc1 Hc2].
  destruct (capped (retry_interval st) BACKOFF_MULTIPLIER H0 H1
              ltac:(unfold BACKOFF_MULTIPLIER; lra)) as [Hr1 Hr2].
  assert (∀ interval count total reset,
            interval = handle a (retry_interval st) →
            let st1 := {| retry_count := count;
                          retry_interval := Qmin (interval * 2) MAX_RETRY_INTERVAL;
                          total_retry_attempt := total; rate_limit_reset := reset |} in
            let st2 := {| retry_count := count; retry_interval := interval;
                          total_retry_attempt := total; rate_limit_reset := reset |} in
            let r := if (count <? MAX_RETRIES)%nat
                     then let '(events, e) := loop attempts st1 in
                          (Start (retry_count st + 1) (total_retry_attempt st + 1)
                             :: RetryIn interval :: events, e)
                     else let '(events, e) := loop attempts st2 in
                          (Start (retry_count st + 1) (total_retry_attempt st + 1)
                             :: Failed :: events, e) in
            Forall (λ s, retry_interval st <= s ∧ s <= MAX_RETRY_INTERVAL)
                   (retry_pauses r.1)
            ∧ StronglySorted Qle (retry_pauses r.1)) as Hcounted.
  { intros interval count total reset -> st1 st2 r. unfold r.
    destruct (count <? MAX_RETRIES)%nat.
    - destruct (IH st1) as [F S]; simpl.
      { by eapply Qle_trans. }
      { done. }
      destruct (loop attempts st1) as [events e]. simpl in *. split.
      + constructor; [done|].
        eapply Forall_impl; [exact F|]. simpl. intros s [Hs Hs'].
        split; [|done]. eapply Qle_trans; [exact Hg1|]. by eapply Qle_trans.
      + constructor; [done|].
        eapply Forall_impl; [exact F|]. simpl. intros s [Hs _].
        by eapply Qle_trans.
    - destruct (Hnext st2) as [F S]; simpl; try done.
      destruct (loop attempts st2) as [events e]. simpl in *. done. }
  destruct a; cbn [loop]; rewrite Hlt; cbn [negb];
    try (apply Hcounted; reflexivity).
  - simpl. split; constructor.
  - match goal with
    | |- context [loop attempts ?st'] =>
        destruct (Hnext st') as [F S]; simpl; try done;
          [by eapply Qle_trans|];
          destruct (loop attempts st') as [events e]
    end.
    simpl. done.
  - simpl. split; constructor.
Qed.


(** X25. The pauses between the retries. Whatever the failures, every pause
    announced with "Retrying in" lasts between the initial 5 seconds and
    the cap of 900 seconds, and no pause is shorter than the one before. *)
Theorem retry_pauses_bounded (attempts : list attempt) :
  let pauses := retry_pauses (run_bot_with_retry attempts).1 in
  Forall (λ s, INITIAL_RETRY_INTERVAL <= s ∧ s <= MAX_RETRY_INTERVAL) pauses
  ∧ StronglySorted Qle pauses.
Proof. apply (loop_pauses attempts initial); done. Qed.

Lemma retry_pauses_cons_start (n t : nat) (l : list trace_event) :
  retry_pauses (Start n t :: l) = retry_pauses l.
Proof. done. Qed.

(** Without exit and with enough counted failures the loop gives up. *)
Lemma loop_gives_up (attempts : list attempt) (st : loop_state) :
  Forall (λ a, a ≠ ExitedNormally ∧ a ≠ LoginFailure) attempts →
  (retry_count st < MAX_RETRIES)%nat →
  (MAX_RETRIES - retry_count st ≤ length (filter (λ a, counted a = true) attempts))%nat →
  (loop attempts st).2 = Returned
  ∧ list.last (loop attempts st).1 = Some Failed
  ∧ length (retry_pauses (loop attempts st).1)
    = (MAX_RETRIES - retry_count st - 1)%nat.
Proof.
  revert st. induction attempts as [|a attempts IH]; intros st Hno Hlt Hlen.
  { simpl in Hlen. lia. }
  apply Forall_cons in Hno as [[Ha1 Ha2] Hno].
  assert ((retry_count st <? MAX_RETRIES)%nat = true) as Hltb
    by (by apply Nat.ltb_lt).
  destruct (counted a) eqn:Hc.
  - rewrite filter_cons_True in Hlen by done. simpl in Hlen.
    assert (loop (a :: attempts) st
            = let interval := handle a (retry_interval st) in
              let count := (retry_count st + 1)%nat in
              let total := (total_retry_attempt st + 1)%nat in
              if (count <? MAX_RETRIES)%nat then
                let st' := {| retry_count := count;
                              retry_interval := Qmin (interval * 2) MAX_RETRY_INTERVAL;
                              total_retry_attempt := total;
                              rate_limit_reset := rate_limit_reset st |} in
                let '(events, e) := loop attempts st' in
                (Start (retry_count st + 1) (total_retry_attempt st + 1)
                   :: RetryIn interval :: events, e)
              else
                let st' := {| retry_count := count; retry_interval := interval;
                              total_retry_attempt := total;
                              rate_limit_reset := rate_limit_reset st |} in
                let '(events, e) := loop attempts st' in
                (Start (retry_count st + 1) (total_retry_attempt st + 1)
                   :: Failed :: events, e)) as ->.
    { destruct a; try done; cbn [loop]; by rewrite Hltb. }
    cbv zeta.
    destruct (retry_count st + 1 <? MAX_RETRIES)%nat eqn:Hnext.
    + apply Nat.ltb_lt in Hnext.
      match goal with
      | |- context [loop attempts ?st'] =>
          destruct (IH st') as (E1 & E2 & E3); simpl; [done|done|lia|];
            destruct (loop attempts st') as [events e]
      end.
      simpl in *. split_and!; [done| |rewrite E3; lia].
      destruct events; [done|]. done.
    + apply Nat.ltb_ge in Hnext.
      rewrite loop_done by (simpl; lia). simpl. split_and!; [done|done|lia].
  - rewrite filter_cons_False in Hlen by (by rewrite Hc).
    destruct a; try done. cbn [loop]. rewrite Hltb. cbn [negb].
    match goal with
    | |- context [loop attempts ?st'] =>
        destruct (IH st') as (E1 & E2 & E3); simpl; [done|done|lia|];
          destruct (loop attempts st') as [events e]
    end.
    simpl in *. split_and!; [done| |done].
    destruct events; [done|]. done.
Qed.

(** A rate limit uses up no retry. *)
Lemma loop_rate_limited (attempts : list attempt) (st : loop_state) :
  Forall (λ a, is_rate_limited a = true) attempts →
  (retry_count st < MAX_RETRIES)%nat →
  (loop attempts st).2 = StillRunning
  ∧ length (filter (λ e, is_start e = true) (loop attempts st).1) = length attempts
  ∧ Failed ∉ (loop attempts st).1.
Proof.
  revert st. induction attempts as [|a attempts IH]; intros st Hall Hlt.
  { simpl. rewrite (proj2 (Nat.ltb_lt _ _) Hlt). simpl. split_and!; try done.
    apply not_elem_of_nil. }
  apply Forall_cons in Hall as [Ha Hall]. destruct a; try done.
  cbn [loop]. rewrite (proj2 (Nat.ltb_lt _ _) Hlt). cbn [negb].
  match goal with
  | |- context [loop attempts ?st'] =>
      destruct (IH st') as (E1 & E2 & E3); simpl; [done|done|];
        destruct (loop attempts st') as [events e]
  end.
  simpl in *. split; [done|split].
  - rewrite filter_cons_False by done. by rewrite E2.
  - rewrite !not_elem_of_cons. done.
Qed.

(** X26. The budget of retries. A normal exit or a login failure ends the
    loop at once. Failures other than rate limits are counted: once ten
    of them have occurred the function logs the failure and returns,
    having paused nine times, however many rate limits came in between.
    Rate limits are not counted: after any number of them alone the loop
    is still running and has started the bot once per rate limit. *)
Theorem retry_budget (attempts : list attempt) :
  (∀ a, (a = ExitedNormally ∨ a = LoginFailure) →
        run_bot_with_retry (a :: attempts) = ([Start 1 1], Returned))
  ∧ (Forall (λ a, a ≠ ExitedNormally ∧ a ≠ LoginFailure) attempts →
     (MAX_RETRIES ≤ length (filter (λ a, counted a = true) attempts))%nat →
     (run_bot_with_retry attempts).2 = Returned
     ∧ list.last (run_bot_with_retry attempts).1 = Some Failed
     ∧ length (retry_pauses (run_bot_with_retry attempts).1) = 9%nat)
  ∧ (Forall (λ a, is_rate_limited a = true) attempts →
     (run_bot_with_retry attempts).2 = StillRunning
     ∧ length (filter (λ e, is_start e = true) (run_bot_with_retry attempts).1)
       = length attempts
     ∧ Failed ∉ (run_bot_with_retry attempts).1).
Proof.
  split_and!.
  - by intros a [->| ->].
  - intros Hno Hlen.
    apply (loop_gives_up attempts initial); [done| |];
      unfold MAX_RETRIES in *; simpl; lia.
  - intros Hall. apply (loop_rate_limited attempts initial); [done|].
    unfold MAX_RETRIES. simpl. lia.
Qed.

Lemma retry_budget_witness :
  (run_bot_with_retry (replicate 10 ServerError)).2 = Returned
  ∧ (run_bot_with_retry [RateLimited None 0; RateLimited (Some 2) 1]).2 = StillRunning.
Proof.
  split.
  - apply (proj1 (proj2 (retry_budget (replicate 10 ServerError)))).
    + repeat constructor; discriminate.
    + vm_compute. lia.
  - apply (proj2 (proj2 (retry_budget [RateLimited None 0; RateLimited (Some 2) 1]))).
    repeat constructor.
Defined.

Example backoff_ex :
  map Qred (retry_pauses (run_bot_with_retry
                            [ServerError; ConnectionClosed; GatewayNotFound;
                             InvalidJson; ServerError]).1)
  = [5; 15; 60; 360; 720].
Proof. vm_compute. reflexivity. Qed.

End MainFacts.

(** ** The guilds of the bot *)

Module BotFacts.
Import Bot BotSpec.

Lemma asked_to_leave_app (s : Session) (r : request) (guild : Z) :
  asked_to_leave (ask r s) guild
  = asked_to_leave s guild
    || match r with Leave g => g =? guild | _ => false end.
Proof.
  unfold asked_to_leave, ask. simpl. rewrite existsb_app. simpl.
  by rewrite orb_false_r.
Qed.

Lemma asked_to_leave_write (s : Session) (l : bot_log) (guild : Z) :
  asked_to_leave (write l s) guild = asked_to_leave s guild.
Proof. done. Qed.

(** One turn of the loop of [on_ready]. *)
Lemma check_guild_effect (debug_mode : bool) (p : Platform) (s : Session)
    (guild : Guild) :
  let s' := check_guild debug_mode p s guild in
  (allowed_count s' + unauthorized_count s'
   = S (allowed_count s + unauthorized_count s))%nat
  ∧ (allowed_count s'
     = allowed_count s + (if bool_decide (id_ guild ∈ ALLOWED_GUILD_IDS) then 1 else 0))%nat
  ∧ ∀ g, asked_to_leave s' g
         = asked_to_leave s g
           || (negb debug_mode && negb (bool_decide (g ∈ ALLOWED_GUILD_IDS))
               && (id_ guild =? g)).
Proof.
  unfold check_guild. case_bool_decide as Hin; simpl.
  - split_and!; [lia|lia|]. intros g.
    destruct (Z.eqb_spec (id_ guild) g) as [<-|Hne].
    + rewrite (bool_decide_eq_true_2 _ Hin). simpl.
      by rewrite andb_false_r, orb_false_r.
    + by rewrite andb_false_r, orb_false_r.
  - destruct debug_mode; simpl.
    + split_and!; [lia|lia|]. intros g. by rewrite orb_false_r.
    + split_and!; [unfold leave; destruct (leave_ok p (id_ guild)); simpl; lia
                  |unfold leave; destruct (leave_ok p (id_ guild)); simpl; lia|].
      intros g. unfold leave.
      assert (∀ s0, asked_to_leave
                      (if leave_ok p (id_ guild)
                       then write (InfoLeft (id_ guild)) (ask (Leave (id_ guild)) s0)
                       else write (ErrorLeaving (id_ guild)) (ask (Leave (id_ guild)) s0))
                      g
                    = asked_to_leave s0 g || (id_ guild =? g)) as ->.
      { intros s0. destruct (leave_ok p (id_ guild));
          rewrite asked_to_leave_write, asked_to_leave_app; done. }
      rewrite asked_to_leave_write. f_equal.
      destruct (Z.eqb_spec (id_ guild) g) as [<-|Hne]; [|by rewrite andb_false_r].
      by rewrite (bool_decide_eq_false_2 _ Hin).
Qed.

Lemma check_guilds_effect (debug_mode : bool) (p : Platform) (guilds : list Guild)
    (s : Session) :
  let s' := foldl (check_guild debug_mode p) s guilds in
  (allowed_count s' + unauthorized_count s'
   = allowed_count s + unauthorized_count s + length guilds)%nat
  ∧ (allowed_count s'
     = allowed_count s
       + length (filter (λ g, id_ g ∈ ALLOWED_GUILD_IDS) guilds))%nat
  ∧ ∀ g, asked_to_leave s' g
         = asked_to_leave s g
           || (negb debug_mode && negb (bool_decide (g ∈ ALLOWED_GUILD_IDS))
               && bool_decide (g ∈ id_ <$> guilds)).
Proof.
  revert s. induction guilds as [|guild guilds IH]; intros s.
  - simpl. split_and!; [lia|lia|]. intros g. by rewrite andb_false_r, orb_false_r.
  - cbn [foldl].
    destruct (IH (check_guild debug_mode p s guild)) as (I1 & I2 & I3).
    destruct (check_guild_effect debug_mode p s guild) as (C1 & C2 & C3).
    split_and!.
    + rewrite I1, C1. simpl. lia.
    + rewrite I2, C2. case_bool_decide as Hin.
      * rewrite filter_cons_True by done. simpl. lia.
      * rewrite filter_cons_False by done. lia.
    + intros g. rewrite I3, C3, fmap_cons.
      rewrite <- orb_assoc. f_equal.
      destruct (negb debug_mode && negb (bool_decide (g ∈ ALLOWED_GUILD_IDS)));
        simpl; [|done].
      destruct (Z.eqb_spec (id_ guild) g) as [<-|Hne]; simpl.
      * rewrite bool_decide_eq_true_2; [done|]. apply list_elem_of_here.
      * apply bool_decide_ext. rewrite elem_of_cons. naive_solver.
Qed.

(** X27. The bot keeps to its whitelist, which is the one of the cog. At
    start-up outside debug mode, [on_ready] asks to leave exactly the
    guilds of the bot that are not on the whitelist of [bot.py]; in debug
    mode it asks to leave none. The guilds counted as authorized and as
    unauthorized add up to all of them. And the whitelist is the list that
    the cog checks interactions against: outside debug mode the guilds the
    bot leaves are those whose commands [is_allowed_guild] refuses. *)
Theorem on_ready_keeps_whitelist (debug_mode : bool) (p : Platform)
    (guilds : list Guild) :
  let s := on_ready debug_mode p guilds in
  (∀ g, asked_to_leave s g
        = negb debug_mode && negb (bool_decide (g ∈ ALLOWED_GUILD_IDS))
          && bool_decide (g ∈ id_ <$> guilds))
  ∧ (allowed_count s + unauthorized_count s = length guilds)%nat
  ∧ allowed_count s = length (filter (λ g, id_ g ∈ ALLOWED_GUILD_IDS) guilds)
  ∧ ∀ (i : Engine.Interaction) (c : Engine.Cog),
      Engine.debug_mode c = false →
      Engine.interaction_guild i ∈ id_ <$> guilds →
      asked_to_leave (on_ready false p guilds) (Engine.interaction_guild i)
      = negb (Engine.is_allowed_guild i c).1.
Proof.
  intros s. unfold s, on_ready.
  set (s0 := {| requests := [ChangePresence]; lines := []; allowed_count := 0;
                unauthorized_count := 0 |}).
  destruct (check_guilds_effect debug_mode p guilds s0) as (H1 & H2 & H3).
  split_and!.
  - intros g. rewrite asked_to_leave_write, H3. done.
  - simpl. rewrite H1. done.
  - simpl. rewrite H2. done.
  - intros i c Hdebug Hin.
    destruct (check_guilds_effect false p guilds s0) as (_ & _ & H3').
    rewrite asked_to_leave_write, H3'. simpl.
    rewrite (bool_decide_eq_true_2 _ Hin), andb_true_r.
    unfold Engine.is_allowed_guild. rewrite Hdebug.
    change Engine.allowed_guild_ids with ALLOWED_GUILD_IDS.
    by case_bool_decide.
Qed.

Lemma on_ready_keeps_whitelist_witness :
  asked_to_leave
    (on_ready false {| leave_ok := λ _, true; send_ok := λ _, true |}
              [{| id_ := 714813888226525226; can_write_system_channel := true |};
               {| id_ := 5; can_write_system_channel := false |}]) 714813888226525226
  = negb (Engine.is_allowed_guild Scenario.admin Scenario.cog).1.
Proof.
  refine (proj2 (proj2 (proj2
            (on_ready_keeps_whitelist false
               {| leave_ok := λ _, true; send_ok := λ _, true |}
               [{| id_ := 714813888226525226; can_write_system_channel := true |};
                {| id_ := 5; can_write_system_channel := false |}])))
            Scenario.admin Scenario.cog _ _); [reflexivity|].
  apply list_elem_of_here.
Defined.

(** X28. A guild that adds the bot. A guild on the whitelist is never left;
    it is greeted when its system channel can be written to. Any other
    guild is, outside debug mode, told that the bot is not available when
    its system channel can be written to, and then asked to be left,
    whether that message went through or not; in debug mode nothing is
    asked. *)
Theorem on_guild_join_keeps_whitelist (debug_mode : bool) (p : Platform)
    (guild : Guild) :
  let s := on_guild_join debug_mode p guild in
  (id_ guild ∈ ALLOWED_GUILD_IDS →
     requests s = if can_write_system_channel guild
                  then [SendWelcome (id_ guild)] else [])
  ∧ (id_ guild ∉ ALLOWED_GUILD_IDS →
     requests s = if debug_mode then []
                  else if can_write_system_channel guild
                       then [SendUnavailable (id_ guild); Leave (id_ guild)]
                       else [Leave (id_ guild)]).
Proof.
  unfold on_guild_join. split; intros Hin.
  - rewrite (bool_decide_eq_true_2 _ Hin).
    destruct (can_write_system_channel guild); [|done].
    by destruct (send_ok p (id_ guild)).
  - rewrite (bool_decide_eq_false_2 _ Hin).
    destruct debug_mode; [done|]. simpl. unfold leave.
    destruct (can_write_system_channel guild), (send_ok p (id_ guild)),
      (leave_ok p (id_ guild)); done.
Qed.

Lemma on_guild_join_keeps_whitelist_witness :
  requests (on_guild_join false {| leave_ok := λ _, false; send_ok := λ _, false |}
                          {| id_ := 5; can_write_system_channel := true |})
  = [SendUnavailable 5; Leave 5].
Proof.
  refine (proj2 (on_guild_join_keeps_whitelist false
                   {| leave_ok := λ _, false; send_ok := λ _, false |}
                   {| id_ := 5; can_write_system_channel := true |}) _).
  vm_compute. intros H. by repeat (apply elem_of_cons in H as [H|H]; [done|]);
    apply not_elem_of_nil in H.
Defined.


End BotFacts.
